(** * MotoApp navigation core: a shallow embedding of [src/App.tsx]

    The development follows the TypeScript source function by function.

    Modelling conventions.
    - A JavaScript [number] holding a coordinate, a distance, an angle or a
      speed is a real number ([R]): arithmetic is exact, rounding, [NaN] and
      overflow are outside the model.  The literal [Infinity] that initialises
      [minDistance] in the snapper is [None] of [option R].  What is proved
      over [R] is proved of the formulas; an equation between computed
      numbers holds of the running code up to rounding only.  Module [Dbl]
      evaluates the geometry helpers on binary64 numbers and shows where an
      identity of the exact model fails in the last place.
    - [Date.now()] is an integer number of milliseconds ([Z]) handed to the
      fix handler as an argument.
    - Array indices and frame counters are [nat].
    - [useRef] cells and [useState] cells are fields of explicit state records
      that every handler takes and returns.  A ref that mirrors a state cell
      through a [useEffect] ([appStatusRef], [routeRef]) is identified with
      that cell, and an updater function given to a state setter is applied
      where the setter is called.
    - The drawing lines that end [updateRiderLocation] (the marker, its
      arrow and [setView]) are [drawRider], next to the state part of the
      handler.  The route layers are left out, and with them
      [updateRouteVisuals] and its [currentSegmentIndexRef]. *)

From Stdlib Require Import Reals Lra Lia ZArith List Bool String.
Import ListNotations.

Open Scope R_scope.

(** ** Numbers *)

Definition Rltb (x y : R) : bool := if Rlt_dec x y then true else false.
Definition Rleb (x y : R) : bool := if Rle_dec x y then true else false.
Definition Rgeb (x y : R) : bool := Rleb y x.
Definition Rgtb (x y : R) : bool := Rltb y x.
Definition Reqb (x y : R) : bool := if Req_dec_T x y then true else false.

(** [Math.trunc]: rounding toward zero. *)
Definition Rtrunc (x : R) : R :=
  if Rle_dec 0 x then IZR (Int_part x) else - IZR (Int_part (- x)).

(** The JavaScript remainder [x % y]: the sign follows the dividend. *)
Definition jsmod (x y : R) : R := x - y * Rtrunc (x / y).

(** [Math.atan2 y x], by quadrant. *)
Definition atan2 (y x : R) : R :=
  if Rlt_dec 0 x then atan (y / x)
  else if Rlt_dec x 0 then
    (if Rle_dec 0 y then atan (y / x) + PI else atan (y / x) - PI)
  else if Rlt_dec 0 y then PI / 2
  else if Rlt_dec y 0 then - (PI / 2)
  else 0.

(** ** Data model ([types.ts]) *)

Inductive AppStatus :=
  IDLE | PREVIEW | CONFIRM | NAVIGATING | REROUTING | ARRIVED | ERROR.

Definition AppStatus_eqb (a b : AppStatus) : bool :=
  match a, b with
  | IDLE, IDLE | PREVIEW, PREVIEW | CONFIRM, CONFIRM
  | NAVIGATING, NAVIGATING | REROUTING, REROUTING
  | ARRIVED, ARRIVED | ERROR, ERROR => true
  | _, _ => false
  end.

Record LatLng := { lat : R; lng : R }.

Inductive ManeuverType :=
  | turn_left | turn_right | straight | u_turn | arrive
  | sharp_left | sharp_right | slight_left | slight_right
  | merge_left | merge_right | exit_left | exit_right
  | fork_left | fork_right | roundabout_left | roundabout_right
  | u_turn_left | u_turn_right.

Module Maneuver.
Record t := {
  instruction : string;
  distance : R;
  type : ManeuverType;
  location : option LatLng;
  roadName : option string
}.
End Maneuver.

(** [stats], [warnings] and [optimizedOrder] are display data and are left
    out. *)
Module RouteResponse.
Record t := {
  polyline : list LatLng;
  distance : R;
  duration : R;
  maneuvers : list Maneuver.t
}.
End RouteResponse.

(** ** Geometry helpers of [App] *)

Definition getDistance (p1 p2 : LatLng) : R :=
  sqrt ((lat p2 - lat p1) ^ 2 + (lng p2 - lng p1) ^ 2).

Definition interpolate (p1 p2 : LatLng) (fraction : R) : LatLng :=
  {| lat := lat p1 + (lat p2 - lat p1) * fraction;
     lng := lng p1 + (lng p2 - lng p1) * fraction |}.

Definition calculateBearing (start end_ : LatLng) : R :=
  let dy := lat end_ - lat start in
  let dx := cos (PI / 180 * lat start) * (lng end_ - lng start) in
  let angle := atan2 dx dy * 180 / PI in
  jsmod (angle + 360) 360.

(** ** The position snapper *)

Record Snap := { point : LatLng; bearing : R; segmentIndex : nat }.

(** [dist < minDistance], where [None] is [Infinity]. *)
Definition ltMin (dist : R) (minDistance : option R) : bool :=
  match minDistance with
  | None => true
  | Some m => Rltb dist m
  end.

(** The projection of [p] on the segment from [start] to [end_]
    (the body of the loop before the comparison). *)
Definition projectOn (p start end_ : LatLng) : LatLng :=
  let dx := lng end_ - lng start in
  let dy := lat end_ - lat start in
  let t := ((lng p - lng start) * dx + (lat p - lat start) * dy)
           / (dx * dx + dy * dy) in
  let clampedT := Rmax 0 (Rmin 1 t) in
  {| lat := lat start + clampedT * dy; lng := lng start + clampedT * dx |}.

(** The [for] loop of [getNearestPointOnLine], entered at index [i] with
    [line[i..]] still to visit; the four loop variables are [minDistance] and
    the three fields of the [Snap]. *)
Fixpoint snapLoop (p : LatLng) (i : nat) (line : list LatLng)
    (minDistance : option R) (best : Snap) : Snap :=
  match line with
  | start :: ((end_ :: _) as rest) =>
      let dx := lng end_ - lng start in
      let dy := lat end_ - lat start in
      if Reqb dx 0 && Reqb dy 0 then snapLoop p (S i) rest minDistance best
      else
        let projP := projectOn p start end_ in
        let dist := getDistance p projP in
        if ltMin dist minDistance then
          snapLoop p (S i) rest (Some dist)
            {| point := projP;
               bearing := calculateBearing start end_;
               segmentIndex := i |}
        else snapLoop p (S i) rest minDistance best
  | _ => best
  end.

Definition getNearestPointOnLine (p : LatLng) (line : list LatLng) : Snap :=
  snapLoop p 0 line None {| point := p; bearing := 0; segmentIndex := 0 |}.

(** A segment the loop skips: [dx === 0 && dy === 0]. *)
Definition degenerate (a b : LatLng) : Prop :=
  lng b - lng a = 0 /\ lat b - lat a = 0.

(** [p] lies on the closed segment from [a] to [b]. *)
Definition OnSegment (p a b : LatLng) : Prop :=
  exists s, 0 <= s <= 1 /\
    lat p = lat a + s * (lat b - lat a) /\
    lng p = lng a + s * (lng b - lng a).

(** [line[k]] and [line[k+1]] are [a] and [b]. *)
Definition segmentAt (line : list LatLng) (k : nat) (a b : LatLng) : Prop :=
  nth_error line k = Some a /\ nth_error line (S k) = Some b.

(** ** Rider state and the fix handler

    [Rider] gathers what [updateRiderLocation] reads and writes: the three
    state cells the interface renders ([currentPos], [heading], [speed]) and
    the refs behind the throttle. *)

Record Rider := {
  currentPos : option LatLng;
  heading : R;
  speed : R;
  lastStateUpdateTimeRef : Z;
  pendingPosRef : option LatLng;
  pendingHeadingRef : option R;
  pendingSpeedRef : option R;
  lastPosRef : option LatLng
}.

(** The refs and cells as [useRef]/[useState] initialise them. *)
Definition initialRider : Rider :=
  {| currentPos := None; heading := 0; speed := 0;
     lastStateUpdateTimeRef := 0%Z;
     pendingPosRef := None; pendingHeadingRef := None;
     pendingSpeedRef := None; lastPosRef := None |}.

(** The difference the [setHeading] updater blends with: [finalH - prev]
    after its two wrap tests. *)
Definition wrappedDiff (finalH prev : R) : R :=
  let diff := finalH - prev in
  let diff := if Rgtb diff 180 then diff - 360 else diff in
  let diff := if Rltb diff (-180) then diff + 360 else diff in
  diff.

(** The updater passed to [setHeading]: [prev] is the committed heading,
    [finalH] the pending one. *)
Definition headingUpdater (finalH prev : R) : R :=
  let diff := wrappedDiff finalH prev in
  jsmod (prev + diff * (15 / 100) + 360) 360.

(** [x || 0] on a pending number. *)
Definition orZero (x : option R) : R :=
  match x with
  | Some v => if Reqb v 0 then 0 else v
  | None => 0
  end.

(** The first half of the handler: the position and heading it settles on,
    [(finalPos, finalHeading)]. *)
Definition resolveFix (status : AppStatus) (route : option RouteResponse.t)
    (newPos : LatLng) (rawHeading : option R) (r : Rider)
    : LatLng * option R :=
  match AppStatus_eqb status NAVIGATING, route with
  | true, Some rt =>
      let snap := getNearestPointOnLine newPos (RouteResponse.polyline rt) in
      (point snap, Some (bearing snap))
  | _, _ =>
      match rawHeading, lastPosRef r with
      | None, Some last =>
          let dist := getDistance last newPos in
          if Rgtb dist (1 / 1000000)
          then (newPos, Some (calculateBearing last newPos))
          else (newPos, None)
      | _, _ => (newPos, rawHeading)
      end
  end.

(** [now - lastStateUpdateTimeRef.current >= 100]. *)
Definition throttleOpen (now : Z) (r : Rider) : bool :=
  (100 <=? now - lastStateUpdateTimeRef r)%Z.

(** The body of the throttled branch: the three [set...] calls. *)
Definition commit (now : Z) (r : Rider) : Rider :=
  {| currentPos := pendingPosRef r;
     heading := match pendingHeadingRef r with
                | Some finalH => headingUpdater finalH (heading r)
                | None => heading r
                end;
     speed := orZero (pendingSpeedRef r);
     lastStateUpdateTimeRef := now;
     pendingPosRef := pendingPosRef r;
     pendingHeadingRef := pendingHeadingRef r;
     pendingSpeedRef := pendingSpeedRef r;
     lastPosRef := lastPosRef r |}.

(** [updateRiderLocation]; [now] is the value [Date.now()] returns inside. *)
Definition updateRiderLocation (status : AppStatus)
    (route : option RouteResponse.t) (now : Z)
    (newPos : LatLng) (rawHeading : option R) (newSpeed : R) (r : Rider)
    : Rider :=
  let '(finalPos, finalHeading) := resolveFix status route newPos rawHeading r in
  let r1 :=
    {| currentPos := currentPos r;
       heading := heading r;
       speed := speed r;
       lastStateUpdateTimeRef := lastStateUpdateTimeRef r;
       pendingPosRef := Some finalPos;
       pendingHeadingRef := match finalHeading with
                            | Some h => Some h
                            | None => pendingHeadingRef r
                            end;
       pendingSpeedRef := Some newSpeed;
       lastPosRef := Some finalPos |} in
  if throttleOpen now r1 then commit now r1 else r1.

(** One invocation of the handler, with the status and route it finds. *)
Record Fix := {
  fixStatus : AppStatus;
  fixRoute : option RouteResponse.t;
  fixNow : Z;
  fixPos : LatLng;
  fixHeading : option R;
  fixSpeed : R
}.

Definition handleFix (f : Fix) (r : Rider) : Rider :=
  updateRiderLocation (fixStatus f) (fixRoute f) (fixNow f)
    (fixPos f) (fixHeading f) (fixSpeed f) r.

Definition handleFixes (fs : list Fix) (r : Rider) : Rider :=
  fold_left (fun r f => handleFix f r) fs r.

(** The times at which a run of invocations enters the throttled branch,
    in order. *)
Fixpoint commitTimes (fs : list Fix) (r : Rider) : list Z :=
  match fs with
  | [] => []
  | f :: fs' =>
      if throttleOpen (fixNow f) r
      then fixNow f :: commitTimes fs' (handleFix f r)
      else commitTimes fs' (handleFix f r)
  end.

(** ** The simulator ([startSimulation], [animate], [stopSimulation]) *)

(** [Array.prototype.reduce] with the element index, entered at index [i]. *)
Fixpoint reduceFrom {A B : Type} (f : B -> A -> nat -> B) (i : nat)
    (l : list A) (acc : B) : B :=
  match l with
  | [] => acc
  | x :: tl => reduceFrom f (S i) tl (f acc x i)
  end.

Definition reduce {A B : Type} (f : B -> A -> nat -> B) (l : list A)
    (init : B) : B :=
  reduceFrom f 0 l init.

Definition origin : LatLng := {| lat := 0; lng := 0 |}.

(** The callback of the [reduce] that computes [totalDist]; [poly[i - 1]] is
    only read for [i >= 1], where it is in range. *)
Definition addSegment (poly : list LatLng) (acc : R) (p : LatLng) (i : nat)
    : R :=
  if (i =? 0)%nat then 0 else acc + getDistance (nth (i - 1) poly origin) p.

Definition totalDist (poly : list LatLng) : R :=
  reduce (addSegment poly) poly 0.

(** The accumulator of that [reduce] once the callback has run on index [k]:
    the cumulative distance along the polyline up to vertex [k]. *)
Definition cumulativeDistance (poly : list LatLng) (k : nat) : R :=
  reduce (addSegment poly) (firstn (S k) poly) 0.

Definition SPEED_FACTOR : R := 65 / 10000000.

(** The [forEach] that fills [maneuverDistances], entered with the running
    [cumulativeDist]. *)
Fixpoint maneuverDistancesFrom (cumulativeDist : R) (ms : list Maneuver.t)
    : list R :=
  match ms with
  | [] => []
  | m :: tl =>
      cumulativeDist
        :: maneuverDistancesFrom (cumulativeDist + Maneuver.distance m) tl
  end.

Definition maneuverDistances (ms : list Maneuver.t) : list R :=
  maneuverDistancesFrom 0 ms.

(** The loop that picks [newManeuverIndex], entered at index [i]. *)
Fixpoint maneuverLoop (traveledMeters : R) (i : nat) (rest : list R)
    (newManeuverIndex : nat) : nat :=
  match rest with
  | [] => newManeuverIndex
  | d :: tl =>
      if Rgeb traveledMeters d then maneuverLoop traveledMeters (S i) tl i
      else newManeuverIndex
  end.

Definition pickManeuverIndex (traveledMeters : R) (mds : list R) : nat :=
  maneuverLoop traveledMeters 0 mds 0.

(** The loop that locates the segment under the travelled distance; it
    returns [(accumulated, segIdx)]. *)
Fixpoint segmentLoop (dist : R) (i : nat) (poly : list LatLng)
    (accumulated : R) : R * nat :=
  match poly with
  | a :: ((b :: _) as rest) =>
      let d := getDistance a b in
      if Rgeb (accumulated + d) dist then (accumulated, i)
      else segmentLoop dist (S i) rest (accumulated + d)
  | _ => (accumulated, 0%nat)
  end.

(** What the [animate] closure holds: the [route] and [speed] captured when
    [startSimulation] ran, and its two counters. *)
Record Animate := {
  simRoute : RouteResponse.t;
  simSpeed : R;
  lastManeuverIndex : nat;
  frameCount : nat
}.

(** The session: the state cells and refs the simulator touches, the rider,
    and the frame callback waiting to run ([simIntervalRef] together with the
    browser's frame queue; [None] when nothing is scheduled). *)
Record App := {
  appStatus : AppStatus;
  route : option RouteResponse.t;
  isFollowing : bool;
  zoomLevel : R;
  isSimulating : bool;
  currentManeuverIndex : nat;
  distanceRef : R;
  simIntervalRef : option Animate;
  rider : Rider
}.

Definition stopSimulation (s : App) : App :=
  {| appStatus := appStatus s; route := route s;
     isFollowing := isFollowing s; zoomLevel := zoomLevel s;
     isSimulating := false;
     currentManeuverIndex := currentManeuverIndex s;
     distanceRef := distanceRef s;
     simIntervalRef := None;
     rider := rider s |}.

Definition setAppStatus (st : AppStatus) (s : App) : App :=
  {| appStatus := st; route := route s;
     isFollowing := isFollowing s; zoomLevel := zoomLevel s;
     isSimulating := isSimulating s;
     currentManeuverIndex := currentManeuverIndex s;
     distanceRef := distanceRef s;
     simIntervalRef := simIntervalRef s;
     rider := rider s |}.

Definition startSimulation (s : App) : App :=
  match route s with
  | None => s
  | Some rt =>
      if (List.length (RouteResponse.polyline rt) <? 2)%nat then s
      else
        {| appStatus := NAVIGATING; route := route s;
           isFollowing := true; zoomLevel := 175 / 10;
           isSimulating := true;
           currentManeuverIndex := 0;
           distanceRef := 0;
           simIntervalRef :=
             Some {| simRoute := rt; simSpeed := speed (rider s);
                     lastManeuverIndex := 0; frameCount := 0 |};
           rider := rider s |}
  end.

(** The fix an [animate] frame hands to [updateRiderLocation]:
    [(currentLoc, bearing)] at travelled distance [dist].  On a polyline of
    two points or more both reads of [poly] are in range
    ([segmentLoop_in_range]), so the default of [nth] is never returned. *)
Definition simulatedFix (poly : list LatLng) (dist : R) : LatLng * R :=
  let '(accumulated, segIdx) := segmentLoop dist 0 poly 0 in
  let a := nth segIdx poly origin in
  let b := nth (S segIdx) poly origin in
  let prog := (dist - accumulated) / getDistance a b in
  (interpolate a b prog, calculateBearing a b).

(** One run of the [animate] callback [c] at wall-clock time [now]. *)
Definition animate (now : Z) (c : Animate) (s : App) : App :=
  let frameCount' := S (frameCount c) in
  let rt := simRoute c in
  let poly := RouteResponse.polyline rt in
  if negb (frameCount' mod 2 =? 0)%nat then
    {| appStatus := appStatus s; route := route s;
       isFollowing := isFollowing s; zoomLevel := zoomLevel s;
       isSimulating := isSimulating s;
       currentManeuverIndex := currentManeuverIndex s;
       distanceRef := distanceRef s;
       simIntervalRef :=
         Some {| simRoute := rt; simSpeed := simSpeed c;
                 lastManeuverIndex := lastManeuverIndex c;
                 frameCount := frameCount' |};
       rider := rider s |}
  else
    let dist := distanceRef s + SPEED_FACTOR in
    if Rgeb dist (totalDist poly) then
      setAppStatus ARRIVED
        (stopSimulation
           {| appStatus := appStatus s; route := route s;
              isFollowing := isFollowing s; zoomLevel := zoomLevel s;
              isSimulating := isSimulating s;
              currentManeuverIndex := currentManeuverIndex s;
              distanceRef := dist;
              simIntervalRef := simIntervalRef s;
              rider := rider s |})
    else
      let traveledMeters :=
        dist / totalDist poly * RouteResponse.distance rt in
      let newManeuverIndex :=
        pickManeuverIndex traveledMeters
          (maneuverDistances (RouteResponse.maneuvers rt)) in
      let changed :=
        (frameCount' mod 10 =? 0)%nat
        && negb (newManeuverIndex =? lastManeuverIndex c)%nat in
      let '(currentLoc, bearing) := simulatedFix poly dist in
      let speedValue := if (frameCount' mod 20 =? 0)%nat then 85 else simSpeed c in
      {| appStatus := appStatus s; route := route s;
         isFollowing := isFollowing s; zoomLevel := zoomLevel s;
         isSimulating := isSimulating s;
         currentManeuverIndex :=
           if changed then newManeuverIndex else currentManeuverIndex s;
         distanceRef := dist;
         simIntervalRef :=
           Some {| simRoute := rt; simSpeed := simSpeed c;
                   lastManeuverIndex :=
                     if changed then newManeuverIndex else lastManeuverIndex c;
                   frameCount := frameCount' |};
         rider :=
           updateRiderLocation (appStatus s) (route s) now
             currentLoc (Some bearing) speedValue (rider s) |}.

(** The browser runs the scheduled frame callback, if there is one. *)
Definition frame (now : Z) (s : App) : App :=
  match simIntervalRef s with
  | Some c => animate now c s
  | None => s
  end.

(** Consecutive frames at the given times. *)
Definition frames (times : list Z) (s : App) : App :=
  fold_left (fun s now => frame now s) times s.

(** ** Predicates and sample data used by the statements below *)

(** Consecutive times of [ts] are at least 100 ms apart, the first one at
    least 100 ms after [last]. *)
Fixpoint spaced (last : Z) (ts : list Z) : Prop :=
  match ts with
  | [] => True
  | t :: ts' => (last + 100 <= t)%Z /\ spaced t ts'
  end.

Definition mkManeuver (text : string) (d : R) (ty : ManeuverType)
    : Maneuver.t :=
  {| Maneuver.instruction := text; Maneuver.distance := d;
     Maneuver.type := ty; Maneuver.location := None;
     Maneuver.roadName := None |}.

(** Two maneuvers 100 m apart: a 100 m step, then the arrival. *)
Definition twoManeuvers : list Maneuver.t :=
  [ mkManeuver "Head north" 100 straight;
    mkManeuver "Arrive at destination" 0 arrive ].

(** A route of one segment of planar length 1 (one degree of latitude),
    reported as 100 m long. *)
Definition sampleRoute : RouteResponse.t :=
  {| RouteResponse.polyline :=
       [ {| lat := 0; lng := 0 |}; {| lat := 1; lng := 0 |} ];
     RouteResponse.distance := 100;
     RouteResponse.duration := 18;
     RouteResponse.maneuvers := twoManeuvers |}.

(** A GPS fix received outside navigation. *)
Definition idleFix (now : Z) (h : option R) (v : R) : Fix :=
  {| fixStatus := IDLE; fixRoute := None; fixNow := now;
     fixPos := {| lat := 52; lng := 5 |}; fixHeading := h; fixSpeed := v |}.

(** Ten fixes within 45 ms. *)
Definition tenFixes : list Fix :=
  map (fun t => idleFix t (Some 90) 40)
    [1000; 1005; 1010; 1015; 1020; 1025; 1030; 1035; 1040; 1045]%Z.

(** The session once a route [rt] has been planned and awaits confirmation,
    with rider [r]. *)
Definition confirmState (rt : RouteResponse.t) (r : Rider) : App :=
  {| appStatus := CONFIRM; route := Some rt;
     isFollowing := false; zoomLevel := 13;
     isSimulating := false; currentManeuverIndex := 0;
     distanceRef := 0; simIntervalRef := None; rider := r |}.

(** [sampleRoute] without its maneuvers. *)
Definition noManeuverRoute : RouteResponse.t :=
  {| RouteResponse.polyline := RouteResponse.polyline sampleRoute;
     RouteResponse.distance := 100;
     RouteResponse.duration := 18;
     RouteResponse.maneuvers := [] |}.

(** A route whose polyline is a single vertex. *)
Definition onePointRoute : RouteResponse.t :=
  {| RouteResponse.polyline := [ {| lat := 52; lng := 5 |} ];
     RouteResponse.distance := 0;
     RouteResponse.duration := 0;
     RouteResponse.maneuvers := twoManeuvers |}.

(** A route of planar length 0.00001, reached by the second simulated step. *)
Definition shortRoute : RouteResponse.t :=
  {| RouteResponse.polyline :=
       [ {| lat := 0; lng := 0 |}; {| lat := 1 / 100000; lng := 0 |} ];
     RouteResponse.distance := 1;
     RouteResponse.duration := 1;
     RouteResponse.maneuvers := twoManeuvers |}.

(** A rider heading along [sampleRoute] at 20 km/h. *)
Definition riderNorth20 : Rider :=
  {| currentPos := Some {| lat := 94 / 100; lng := 0 |};
     heading := calculateBearing {| lat := 0; lng := 0 |} {| lat := 1; lng := 0 |};
     speed := 20;
     lastStateUpdateTimeRef := 0%Z;
     pendingPosRef := None; pendingHeadingRef := None;
     pendingSpeedRef := None; lastPosRef := None |}.

(** The simulation of [sampleRoute] one step before 95 m of its 100 m, about
    to run its tenth frame. *)
Definition closureAt95 : Animate :=
  {| simRoute := sampleRoute; simSpeed := 20;
     lastManeuverIndex := 0; frameCount := 9 |}.

Definition stateAt95 : App :=
  {| appStatus := NAVIGATING; route := Some sampleRoute;
     isFollowing := true; zoomLevel := 175 / 10;
     isSimulating := true; currentManeuverIndex := 0;
     distanceRef := 95 / 100 - SPEED_FACTOR;
     simIntervalRef := Some closureAt95; rider := riderNorth20 |}.

(** [N] is the number of the simulated step at which the travelled distance
    first reaches the total polyline distance of [rt]: each step adds
    [SPEED_FACTOR]. *)
Definition firstReach (rt : RouteResponse.t) (N : nat) : Prop :=
  (1 <= N)%nat /\
  totalDist (RouteResponse.polyline rt) <= INR N * SPEED_FACTOR /\
  forall m, (1 <= m < N)%nat ->
    INR m * SPEED_FACTOR < totalDist (RouteResponse.polyline rt).

(** The simulation of [rt] is under way and has run [n] frame callbacks. *)
Definition Running (rt : RouteResponse.t) (n : nat) (s : App) : Prop :=
  appStatus s = NAVIGATING /\
  isSimulating s = true /\
  distanceRef s = INR (n / 2) * SPEED_FACTOR /\
  exists c, simIntervalRef s = Some c /\ simRoute c = rt /\ frameCount c = n.

(** An L-shaped polyline and its corner, shared by segments 0 and 1. *)
Definition cornerLine : list LatLng :=
  [ {| lat := 0; lng := 0 |}; {| lat := 0; lng := 2 |};
    {| lat := 2; lng := 2 |} ].

Definition cornerPoint : LatLng := {| lat := 0; lng := 2 |}.

(** A polyline that repeats one vertex: every segment has zero length. *)
Definition stackedLine : list LatLng :=
  [ {| lat := 3; lng := 4 |}; {| lat := 3; lng := 4 |};
    {| lat := 3; lng := 4 |} ].

(** The simulation of [shortRoute] after three frames. *)
Definition shortRunBefore : App :=
  frames [0; 16; 33]%Z (startSimulation (confirmState shortRoute initialRider)).

(** The [smoothAngle(current, target, factor)] of the written design, to
    compare with [headingUpdater].  The source has no function with a
    [factor] parameter; this is the updater with its inlined 0.15 turned into
    an argument, to state what a blend at another factor would give. *)
Definition smoothAngle (current target factor : R) : R :=
  jsmod (current + wrappedDiff target current * factor + 360) 360.

(** ** Further predicates used by the statements below *)

(** The sum of the planar lengths of the segments of a polyline. *)
Fixpoint pathLength (poly : list LatLng) : R :=
  match poly with
  | a :: ((b :: _) as rest) => getDistance a b + pathLength rest
  | _ => 0
  end.

(** The committed heading and the pending heading, if any, are compass
    angles. *)
Definition headingsInRange (r : Rider) : Prop :=
  0 <= heading r < 360 /\
  forall h, pendingHeadingRef r = Some h -> 0 <= h < 360.

From Stdlib Require Import Permutation.

(** ** The stop list and ride planning ([addWaypoint], [removeWaypoint],
    [moveWaypoint], [onInputChange], [hasDestination], [handlePlanRide]) *)

Record StopInput := {
  address : string;
  coord : option LatLng;
  id : string
}.

(** Where [Array.prototype.splice] starts for a [start] argument on an array
    of [len] elements: a negative [start] counts from the end, and the result
    is clamped to the array. *)
Definition relativeStart (start : Z) (len : nat) : nat :=
  if (start <? 0)%Z then Z.to_nat (Z.max (Z.of_nat len + start) 0)
  else Nat.min (Z.to_nat start) len.

(** [l.splice(start, 0, x)]: the array after the insertion. *)
Definition spliceInsert {A : Type} (l : list A) (start : Z) (x : A) : list A :=
  let k := relativeStart start (List.length l) in
  firstn k l ++ x :: skipn k l.

(** [l.splice(start, 1)]: the element removed, if any, and the array left. *)
Definition spliceDelete1 {A : Type} (l : list A) (start : Z)
    : option A * list A :=
  let k := relativeStart start (List.length l) in
  (nth_error l k, firstn k l ++ skipn (S k) l).

(** [l.filter((_, i) => i !== index)], entered at position [i]. *)
Fixpoint dropIndexFrom {A : Type} (index : Z) (i : nat) (l : list A)
    : list A :=
  match l with
  | [] => []
  | x :: tl =>
      if (Z.of_nat i =? index)%Z then dropIndexFrom index (S i) tl
      else x :: dropIndexFrom index (S i) tl
  end.

(** [addWaypoint]; [newId] stands for the identifier built from the clock and
    a random number. *)
Definition addWaypoint (newId : string) (stops : list StopInput)
    : list StopInput :=
  spliceInsert stops (Z.of_nat (List.length stops) - 1)
    {| address := EmptyString; coord := None; id := newId |}.

(** The [removeWaypoint] of the stop panel. *)
Definition removeWaypoint (index : Z) (stops : list StopInput)
    : list StopInput :=
  if (index =? 0)%Z
     || (index =? Z.of_nat (List.length stops) - 1)%Z
     || (List.length stops <=? 2)%nat
  then stops
  else dropIndexFrom index 0 stops.

(** [moveWaypoint].  When [fromIndex] lies beyond the array, [splice] removes
    nothing and the code inserts [undefined]: the array stops being a list of
    stops, which is [None] here. *)
Definition moveWaypoint (fromIndex toIndex : Z) (stops : list StopInput)
    : option (list StopInput) :=
  let len := Z.of_nat (List.length stops) in
  if ((fromIndex =? 0) || (fromIndex =? len - 1))%Z then Some stops
  else if ((toIndex =? 0) || (toIndex =? len - 1))%Z then Some stops
  else if ((toIndex <? 0) || (len <=? toIndex))%Z then Some stops
  else
    match spliceDelete1 stops fromIndex with
    | (Some movedStop, newStops) =>
        Some (spliceInsert newStops toIndex movedStop)
    | (None, _) => None
    end.

(** The stop list [onInputChange] hands to [setStops]: the stop at [index]
    gets the typed text, and loses its coordinates only when the text is
    empty.  [None] when there is no stop at [index] (the assignment throws). *)
Definition onInputChange (index : nat) (val : string) (stops : list StopInput)
    : option (list StopInput) :=
  match nth_error stops index with
  | None => None
  | Some st =>
      let st' :=
        {| address := val;
           coord := if (String.length val =? 0)%nat then None else coord st;
           id := id st |} in
      Some (firstn index stops ++ st' :: skipn (S index) stops)
  end.

Definition hasCoord (s : StopInput) : bool :=
  match coord s with Some _ => true | None => false end.

(** [hasDestination]; [None] when there is no second stop (the read of
    [stops[1].coord] throws). *)
Definition hasDestination (stops : list StopInput) : option bool :=
  match nth_error stops 1 with
  | None => None
  | Some st => Some (hasCoord st || existsb hasCoord (skipn 2 stops))
  end.

(** The coordinates of the located stops, in order:
    [validStops.map(s => s.coord!)]. *)
Fixpoint validCoords (stops : list StopInput) : list LatLng :=
  match stops with
  | [] => []
  | s :: tl =>
      match coord s with
      | Some c => c :: validCoords tl
      | None => validCoords tl
      end
  end.

Definition defaultStart : LatLng := {| lat := 523676 / 10000; lng := 49041 / 10000 |}.

(** The points [handlePlanRide] sends to the router; [None] when no stop is
    located ("Please select a destination."). *)
Definition planRoutePoints (stops : list StopInput) (currentPos : option LatLng)
    : option (list LatLng) :=
  match validCoords stops with
  | [] => None
  | pts =>
      match stops with
      | s0 :: _ =>
          if hasCoord s0 then Some pts
          else
            let start := match currentPos with
                         | Some c => c
                         | None => defaultStart
                         end in
            Some (start :: pts)
      | [] => Some pts
      end
  end.


(** What awaiting [calculateRoute] yields: a route, or a thrown error with
    its message. *)
Inductive RouteResult :=
  | RouteOk (res : RouteResponse.t)
  | RouteError (message : string).

(** [calculateRoute] as [handlePlanRide] sees it: its own guard on the number
    of points, then everything behind it (requests to the routing service and
    the processing of the answer), which is the parameter [router]. *)
Definition calculateRoute (router : list LatLng -> RouteResult)
    (stops : list LatLng) : RouteResult :=
  if (List.length stops <? 2)%nat
  then RouteError "At least 2 points are required for routing."
  else router stops.

(** The planning state: the stop list, the error banner and the session. *)
Record Planner := {
  stops : list StopInput;
  errorMessage : option string;
  session : App
}.

(** [e.message || "Route calculation failed."]. *)
Definition orDefaultMessage (message : string) : string :=
  if (String.length message =? 0)%nat then "Route calculation failed."%string
  else message.

(** [handlePlanRide], from the click to the settled promise; the session
    shows [PREVIEW] in between.  [mapReady] tells whether [mapRef.current] is
    set. *)
Definition handlePlanRide (router : list LatLng -> RouteResult)
    (mapReady : bool) (p : Planner) : Planner :=
  let s := session p in
  match planRoutePoints (stops p) (currentPos (rider s)) with
  | None =>
      {| stops := stops p;
         errorMessage := Some "Please select a destination."%string;
         session := s |}
  | Some routePoints =>
      match calculateRoute router routePoints with
      | RouteOk res =>
          {| stops := stops p;
             errorMessage := None;
             session :=
               {| appStatus := CONFIRM; route := Some res;
                  isFollowing := if mapReady then false else isFollowing s;
                  zoomLevel := zoomLevel s;
                  isSimulating := isSimulating s;
                  currentManeuverIndex := currentManeuverIndex s;
                  distanceRef := distanceRef s;
                  simIntervalRef := simIntervalRef s;
                  rider := rider s |} |}
      | RouteError message =>
          {| stops := stops p;
             errorMessage := Some (orDefaultMessage message);
             session := setAppStatus IDLE s |}
      end
  end.

(** Edits of the stop list through the panel's buttons. *)
Inductive StopEdit :=
  | EditAdd (newId : string)
  | EditRemove (index : Z)
  | EditMove (fromIndex toIndex : Z).

Definition applyEdit (e : StopEdit) (l : list StopInput)
    : option (list StopInput) :=
  match e with
  | EditAdd newId => Some (addWaypoint newId l)
  | EditRemove index => Some (removeWaypoint index l)
  | EditMove fromIndex toIndex => moveWaypoint fromIndex toIndex l
  end.

Fixpoint applyEdits (es : list StopEdit) (l : list StopInput)
    : option (list StopInput) :=
  match es with
  | [] => Some l
  | e :: es' =>
      match applyEdit e l with
      | Some l' => applyEdits es' l'
      | None => None
      end
  end.

(** The index arguments of an edit are not negative, as when they come from
    the rendered list. *)
Definition editFromPanel (e : StopEdit) : Prop :=
  match e with
  | EditAdd _ => True
  | EditRemove index => (0 <= index)%Z
  | EditMove fromIndex _ => (0 <= fromIndex)%Z
  end.

(** The two stops as the application starts with them. *)
Definition initialStops : list StopInput :=
  [ {| address := "My Location"; coord := None; id := "start" |};
    {| address := EmptyString; coord := None; id := "end" |} ].


(** Four stops: a start without coordinates, two located waypoints and a
    located destination. *)
Definition sampleStops : list StopInput :=
  [ {| address := "My Location"; coord := None; id := "start" |};
    {| address := "Utrecht"; coord := Some {| lat := 52; lng := 5 |};
       id := "w1" |};
    {| address := "Arnhem"; coord := Some {| lat := 52; lng := 6 |};
       id := "w2" |};
    {| address := "Zwolle"; coord := Some {| lat := 53; lng := 6 |};
       id := "end" |} ].

(** A routing service that always answers with [sampleRoute]. *)
Definition sampleRouter (pts : list LatLng) : RouteResult :=
  RouteOk sampleRoute.

Definition samplePlanner : Planner :=
  {| stops := sampleStops; errorMessage := None;
     session := confirmState sampleRoute initialRider |}.


(** ** The routing service client ([routingEngine]): request building *)

Inductive RoutingMode := FAST | BALANCED | CURVY.

Definition RoutingMode_eqb (a b : RoutingMode) : bool :=
  match a, b with
  | FAST, FAST | BALANCED, BALANCED | CURVY, CURVY => true
  | _, _ => false
  end.

(** [generateCurvyTarget]: [None] is [null]. *)
Definition generateCurvyTarget (start end_ : LatLng) (mode : RoutingMode)
    : option LatLng :=
  if negb (RoutingMode_eqb mode CURVY) then None
  else
    let midLat := (lat start + lat end_) / 2 in
    let midLng := (lng start + lng end_) / 2 in
    let dLat := lat end_ - lat start in
    let dLng := lng end_ - lng start in
    let pLat := - dLng in
    let pLng := dLat in
    let factor := 15 / 100 in
    Some {| lat := midLat + pLat * factor; lng := midLng + pLng * factor |}.

(** The [for] loop of [fetchRoute]: the two arrays [sequence] and
    [radiusValues] grow side by side. *)
Fixpoint sequenceLoop (mode : RoutingMode) (stops : list LatLng)
    (sequence : list LatLng) (radiusValues : list R)
    : list LatLng * list R :=
  match stops with
  | a :: ((b :: _) as rest) =>
      let sequence := sequence ++ [a] in
      let radiusValues := radiusValues ++ [100] in
      match generateCurvyTarget a b mode with
      | Some target =>
          sequenceLoop mode rest (sequence ++ [target]) (radiusValues ++ [2000])
      | None => sequenceLoop mode rest sequence radiusValues
      end
  | _ => (sequence, radiusValues)
  end.

(** The coordinates and radiuses [fetchRoute] puts in its request; [None]
    when [stops] is empty (the last stop is [undefined] and formatting it
    throws). *)
Definition fetchRouteRequest (stops : list LatLng) (mode : RoutingMode)
    : option (list LatLng * list R) :=
  match stops with
  | [] => None
  | s0 :: _ =>
      let '(sequence, radiusValues) := sequenceLoop mode stops [] [] in
      Some (sequence ++ [last stops s0], radiusValues ++ [100])
  end.

(** ** The routing client: answers of the routing service *)

From Stdlib Require Import Ascii DecimalString.

(** What the client reads of one step of an answer.  A field the answer may
    omit is an [option]; [location] is the pair [[lng, lat]] when it is an
    array.  [maneuverType] is [step.maneuver.type], which the loop of
    [calculateRoute] reads without a guard. *)
Module Step.
Record t := {
  name : option string;
  ref : option string;
  distance : R;
  maneuverType : string;
  modifier : option string;
  instruction : option string;
  exit : option nat;
  location : option (R * R)
}.
End Step.

(** A string used as a condition, and [s.length > 0]. *)
Definition nonEmpty (s : string) : bool := negb (String.eqb s EmptyString).

(** An optional string used as a condition. *)
Definition truthy (o : option string) : bool :=
  match o with
  | Some s => nonEmpty s
  | None => false
  end.

(** [o || ''] and the text of [o] in a template once it is known to be
    truthy. *)
Definition orEmpty (o : option string) : string :=
  match o with
  | Some s => s
  | None => EmptyString
  end.

(** [o === s]. *)
Definition isStr (o : option string) (s : string) : bool :=
  match o with
  | Some m => String.eqb m s
  | None => false
  end.

(** [hay.includes(needle)]. *)
Fixpoint includes (hay needle : string) : bool :=
  String.prefix needle hay ||
  match hay with
  | EmptyString => false
  | String _ rest => includes rest needle
  end.

(** A non-negative integer as a template prints it. *)
Definition printNumber (n : nat) : string :=
  NilZero.string_of_uint (Nat.to_uint n).

Definition buildRoadName (step : Step.t) : string :=
  let name :=
    match Step.name step with
    | Some n =>
        if nonEmpty n && negb (String.eqb n "unnamed road") then n
        else EmptyString
    | None => EmptyString
    end in
  let ref := orEmpty (Step.ref step) in
  if nonEmpty name && nonEmpty ref && negb (includes name ref)
  then (name ++ " (" ++ ref ++ ")")%string
  else if nonEmpty name then name else ref.

Definition buildInstruction (step : Step.t) : string :=
  if truthy (Step.instruction step) then orEmpty (Step.instruction step)
  else
    let roadName := buildRoadName step in
    let hasRoad := nonEmpty roadName in
    let onRoad := if hasRoad then (" on " ++ roadName)%string else EmptyString in
    let ontoRoad :=
      if hasRoad then (" onto " ++ roadName)%string else EmptyString in
    let modifier := Step.modifier step in
    let ty := Step.maneuverType step in
    if String.eqb ty "depart" then
      if truthy modifier then ("Head " ++ orEmpty modifier ++ onRoad)%string
      else if hasRoad then ("Head on " ++ roadName)%string
      else "Head out"%string
    else if String.eqb ty "turn" then
      if isStr modifier "straight" then ("Continue straight" ++ onRoad)%string
      else if truthy modifier
      then ("Turn " ++ orEmpty modifier ++ ontoRoad)%string
      else if hasRoad then ("Turn" ++ ontoRoad)%string
      else "Turn"%string
    else if String.eqb ty "continue" || String.eqb ty "new name" then
      if hasRoad then ("Continue on " ++ roadName)%string
      else "Continue"%string
    else if String.eqb ty "merge" then
      if truthy modifier
      then ("Merge " ++ orEmpty modifier ++ ontoRoad)%string
      else if hasRoad then ("Merge onto " ++ roadName)%string
      else "Merge"%string
    else if String.eqb ty "on ramp" then
      if hasRoad then ("Take the ramp to " ++ roadName)%string
      else "Take the ramp"%string
    else if String.eqb ty "off ramp" then
      if hasRoad then ("Take the exit toward " ++ roadName)%string
      else "Take the exit"%string
    else if String.eqb ty "fork" then
      if truthy modifier then ("Keep " ++ orEmpty modifier ++ onRoad)%string
      else if hasRoad then ("Keep toward " ++ roadName)%string
      else "Keep right"%string
    else if String.eqb ty "roundabout" || String.eqb ty "rotary" then
      match Step.exit step with
      | Some (S n) =>
          ("At the roundabout, take exit " ++ printNumber (S n)
             ++ ontoRoad)%string
      | _ =>
          if hasRoad then ("Enter the roundabout toward " ++ roadName)%string
          else "Enter the roundabout"%string
      end
    else if String.eqb ty "arrive" then "Arrive at destination"%string
    else if nonEmpty ty && includes ty "uturn" then
      if isStr modifier "left" then "Make a U-turn left"%string
      else "Make a U-turn right"%string
    else if hasRoad then ("Continue on " ++ roadName)%string
    else "Continue"%string.

(** The icon chosen for a step in the loop of [calculateRoute]. *)
Definition iconType (step : Step.t) : ManeuverType :=
  let maneuverType := Step.maneuverType step in
  let modifier := Step.modifier step in
  if String.eqb maneuverType "turn" then
    if isStr modifier "sharp left" then sharp_left
    else if isStr modifier "sharp right" then sharp_right
    else if isStr modifier "left" then turn_left
    else if isStr modifier "right" then turn_right
    else if isStr modifier "slight left" then slight_left
    else if isStr modifier "slight right" then slight_right
    else straight
  else if String.eqb maneuverType "new name" then straight
  else if String.eqb maneuverType "depart" then straight
  else if String.eqb maneuverType "arrive" then arrive
  else if String.eqb maneuverType "merge" then
    if isStr modifier "left" then merge_left else merge_right
  else if String.eqb maneuverType "on ramp"
          || String.eqb maneuverType "off ramp" then
    if isStr modifier "left" then exit_left else exit_right
  else if String.eqb maneuverType "fork" then
    if isStr modifier "left" then fork_left else fork_right
  else if String.eqb maneuverType "roundabout"
          || String.eqb maneuverType "rotary" then
    if match modifier with
       | Some m => includes m "left"
       | None => false
       end
    then roundabout_left else roundabout_right
  else if String.eqb maneuverType "continue" then straight
  else if includes maneuverType "uturn" then
    if isStr modifier "left" then u_turn_left else u_turn_right
  else straight.

(** The maneuver pushed for one step. *)
Definition stepManeuver (step : Step.t) : Maneuver.t :=
  {| Maneuver.instruction := buildInstruction step;
     Maneuver.distance := Step.distance step;
     Maneuver.type := iconType step;
     Maneuver.location :=
       match Step.location step with
       | Some (lng0, lat0) => Some {| lat := lat0; lng := lng0 |}
       | None => None
       end;
     Maneuver.roadName := Some (buildRoadName step) |}.

Definition isArrive (t : ManeuverType) : bool :=
  match t with
  | arrive => true
  | _ => false
  end.

Definition destinationReached : Maneuver.t :=
  {| Maneuver.instruction := "Destination reached";
     Maneuver.distance := 0;
     Maneuver.type := arrive;
     Maneuver.location := None;
     Maneuver.roadName := None |}.

(** The two nested [forEach] loops over legs and steps, then the closing
    maneuver. *)
Definition pushSteps (legs : list (list Step.t)) : list Maneuver.t :=
  fold_left
    (fun maneuvers leg =>
       fold_left (fun maneuvers step => maneuvers ++ [stepManeuver step])
         leg maneuvers)
    legs [].

Definition buildManeuvers (legs : list (list Step.t)) : list Maneuver.t :=
  let maneuvers := pushSteps legs in
  if (0 <? List.length maneuvers)%nat
     && negb (match nth_error maneuvers (List.length maneuvers - 1) with
              | Some m => isArrive (Maneuver.type m)
              | None => false
              end)
  then maneuvers ++ [destinationReached]
  else maneuvers.

(** ** The polyline decoder *)

(** 32-bit integers of the bit operators: wrap-around, and a left shift
    whose count is taken modulo 32. *)
Definition toInt32 (z : Z) : Z := ((z + 2 ^ 31) mod 2 ^ 32 - 2 ^ 31)%Z.

Definition shl32 (x shift : Z) : Z := toInt32 (Z.shiftl x (shift mod 32)).

Definition charCode (c : ascii) : Z := Z.of_N (N_of_ascii c).

(** One [do ... while (b >= 0x20)] loop.  Past the end of the string
    [charCodeAt] is NaN: nothing is added to [result] and the loop ends. *)
Fixpoint chunkLoop (encoded : string) (shift result : Z) : Z * string :=
  match encoded with
  | EmptyString => (result, EmptyString)
  | String c rest =>
      let b := (charCode c - 63)%Z in
      let result := Z.lor result (shl32 (Z.land b 31) shift) in
      if (32 <=? b)%Z then chunkLoop rest (shift + 5)%Z result
      else (result, rest)
  end.

(** [(result & 1) ? ~(result >> 1) : (result >> 1)]. *)
Definition delta (result : Z) : Z :=
  if (Z.land result 1 =? 0)%Z then Z.shiftr result 1
  else Z.lnot (Z.shiftr result 1).

(** The [while (index < len)] loop; [encoded] is what is left to read.  The
    recursion is on [fuel], and [None] is running out of it. *)
Fixpoint decodeLoop (fuel : nat) (encoded : string) (lat0 lng0 : Z)
    (coordinates : list LatLng) : option (list LatLng) :=
  match encoded with
  | EmptyString => Some coordinates
  | String _ _ =>
      match fuel with
      | O => None
      | S fuel =>
          let '(result, rest) := chunkLoop encoded 0 0 in
          let lat1 := (lat0 + delta result)%Z in
          let '(result, rest) := chunkLoop rest 0 0 in
          let lng1 := (lng0 + delta result)%Z in
          decodeLoop fuel rest lat1 lng1
            (coordinates
               ++ [{| lat := IZR lat1 / 100000; lng := IZR lng1 / 100000 |}])
      end
  end.

Definition decodePolyline (encoded : string) : list LatLng :=
  match decodeLoop (String.length encoded) encoded 0 0 [] with
  | Some coordinates => coordinates
  | None => []
  end.

(** ** [calculateRoute] behind its guard *)

(** The answers of the two services, as far as the client reads them.  An
    answer is taken to have the shape of the service's interface; a failed
    request or an unreadable body is [Threw]. *)
Module Osrm.
Record Route := {
  geometry : string;
  distance : R;
  duration : R;
  legs : list (list Step.t)
}.
Record Data := {
  code : string;
  message : option string;
  routes : list Route
}.
End Osrm.

Inductive Fetched :=
  | Threw (message : string)
  | Json (data : Osrm.Data).

Record TripWaypoint := { waypoint_index : nat; trips_index : nat }.

Inductive TripFetched :=
  | TripThrew
  | TripJson (code : string) (waypoints : option (list TripWaypoint)).

(** The text of an error the language itself raises when a field of
    [undefined] is read; its wording is the engine's. *)
Definition typeErrorMessage : string := "TypeError".

(** [waypoints.sort((a, b) => a.waypoint_index - b.waypoint_index)]: a stable
    sort. *)
Fixpoint insertWaypoint (w : TripWaypoint) (l : list TripWaypoint)
    : list TripWaypoint :=
  match l with
  | [] => [w]
  | x :: rest =>
      if (waypoint_index w <? waypoint_index x)%nat then w :: l
      else x :: insertWaypoint w rest
  end.

Definition sortWaypoints (l : list TripWaypoint) : list TripWaypoint :=
  fold_left (fun sorted w => insertWaypoint w sorted) l [].

(** [a[i] = v] on an array with holes: writing past the end extends it. *)
Fixpoint arraySet (a : list (option LatLng)) (i : nat) (v : option LatLng)
    : list (option LatLng) :=
  match i, a with
  | O, [] => [v]
  | O, _ :: rest => v :: rest
  | S k, [] => None :: arraySet [] k v
  | S k, x :: rest => x :: arraySet rest k v
  end.

Definition reorder (stops : list LatLng) (waypoints : list TripWaypoint)
    : list (option LatLng) :=
  fold_left
    (fun reordered w =>
       arraySet reordered (waypoint_index w)
         (nth_error stops (trips_index w)))
    (sortWaypoints waypoints)
    (repeat None (List.length stops)).

(** Step 1 of [calculateRoute]: the stops in the order they are routed. *)
Definition finalStops (trip : list LatLng -> TripFetched)
    (optimizeOrder : bool) (mode : RoutingMode) (stops : list LatLng)
    : list (option LatLng) :=
  if optimizeOrder && (2 <? List.length stops)%nat
     && negb (RoutingMode_eqb mode CURVY)
  then
    match trip stops with
    | TripJson code (Some waypoints) =>
        if String.eqb code "Ok" then reorder stops waypoints
        else map Some stops
    | _ => map Some stops
    end
  else map Some stops.

Fixpoint allDefined (l : list (option LatLng)) : option (list LatLng) :=
  match l with
  | [] => Some []
  | Some p :: rest =>
      match allDefined rest with
      | Some ps => Some (p :: ps)
      | None => None
      end
  | None :: _ => None
  end.

(** [fetchRoute]: reading a coordinate of an undefined stop throws, and so
    does the request itself when the service cannot be reached. *)
Definition fetchRoute (service : list LatLng * list R -> Fetched)
    (stops : list (option LatLng)) (mode : RoutingMode) : Fetched :=
  match allDefined stops with
  | None => Threw typeErrorMessage
  | Some points =>
      match fetchRouteRequest points mode with
      | None => Threw typeErrorMessage
      | Some request => service request
      end
  end.

(** Step 2: the request, retried without detour hints when CURVY fails.  The
    second component is [usedMode]. *)
Definition fetchWithRetry (service : list LatLng * list R -> Fetched)
    (stops : list (option LatLng)) (mode : RoutingMode)
    : Fetched * RoutingMode :=
  let first :=
    match fetchRoute service stops mode with
    | Json osrmData =>
        if negb (String.eqb (Osrm.code osrmData) "Ok")
        then Threw (Osrm.code osrmData)
        else Json osrmData
    | Threw error => Threw error
    end in
  match first with
  | Json osrmData => (Json osrmData, mode)
  | Threw error =>
      if RoutingMode_eqb mode CURVY
      then (fetchRoute service stops BALANCED, BALANCED)
      else (Threw error, mode)
  end.

(** [osrmData?.message || osrmData?.code || 'Unknown Error']. *)
Definition failureText (osrmData : Osrm.Data) : string :=
  if truthy (Osrm.message osrmData) then orEmpty (Osrm.message osrmData)
  else if nonEmpty (Osrm.code osrmData) then Osrm.code osrmData
  else "Unknown Error"%string.

(** The body of [calculateRoute] after its guard, which is the [router] of
    [calculateRoute] above.  The scoring step only fills [stats] and
    [warnings]; it is [fallbackStats] below. *)
Definition routeBody (trip : list LatLng -> TripFetched)
    (service : list LatLng * list R -> Fetched)
    (mode : RoutingMode) (optimizeOrder : bool) (stops : list LatLng)
    : RouteResult :=
  let final := finalStops trip optimizeOrder mode stops in
  match fst (fetchWithRetry service final mode) with
  | Threw error => RouteError error
  | Json osrmData =>
      if negb (String.eqb (Osrm.code osrmData) "Ok")
      then RouteError
             ("Route calculation failed: " ++ failureText osrmData)%string
      else
        match Osrm.routes osrmData with
        | [] => RouteError typeErrorMessage
        | bestRoute :: _ =>
            let fullPath := decodePolyline (Osrm.geometry bestRoute) in
            if (List.length fullPath =? 0)%nat
            then RouteError "Route calculation returned empty path."
            else RouteOk
                   {| RouteResponse.polyline := fullPath;
                      RouteResponse.distance := Osrm.distance bestRoute;
                      RouteResponse.duration := Osrm.duration bestRoute;
                      RouteResponse.maneuvers :=
                        buildManeuvers (Osrm.legs bestRoute) |}
        end
  end.

(** The scores [calculateRoute] returns when no key of the analysis service
    is configured: [seed = Math.floor(distance)], then [x || 5]. *)
Definition orFive (x : Z) : Z := if (x =? 0)%Z then 5%Z else x.

Definition fallbackStats (usedMode : RoutingMode) (distance : R) : Z * Z :=
  let seed := Int_part distance in
  let curvatureIndex :=
    if RoutingMode_eqb usedMode CURVY then (7 + Z.rem seed 3)%Z
    else (3 + Z.rem seed 3)%Z in
  let scenicIndex := (5 + Z.rem seed 5)%Z in
  (orFive curvatureIndex, orFive scenicIndex).

(** Sample steps: a departure and a left turn in one leg, a roundabout in a
    second one; the answer does not close with an arrival step. *)
Definition departStep : Step.t :=
  {| Step.name := Some "Main Street"%string;
     Step.ref := Some "N7"%string;
     Step.distance := 120;
     Step.maneuverType := "depart";
     Step.modifier := Some "north"%string;
     Step.instruction := None;
     Step.exit := None;
     Step.location := Some (4, 52) |}.

Definition turnStep : Step.t :=
  {| Step.name := None;
     Step.ref := None;
     Step.distance := 80;
     Step.maneuverType := "turn";
     Step.modifier := Some "left"%string;
     Step.instruction := None;
     Step.exit := None;
     Step.location := None |}.

Definition roundaboutStep : Step.t :=
  {| Step.name := Some "unnamed road"%string;
     Step.ref := None;
     Step.distance := 0;
     Step.maneuverType := "roundabout";
     Step.modifier := Some "slight left"%string;
     Step.instruction := None;
     Step.exit := Some 2%nat;
     Step.location := None |}.

Definition sampleLegs : list (list Step.t) :=
  [[departStep; turnStep]; [roundaboutStep]].

(** ** The polyline format *)

(** The encoding the decoder is written for, as the format is published: a
    signed value is shifted left by one bit and inverted when negative, then
    cut into groups of five bits, lowest first; every group but the last has
    bit 0x20 set, and 63 is added to give a character.  A point is encoded
    as its difference to the previous one, in units of 1e-5 degree.  These
    definitions are not part of the client; the decoder is checked against
    them. *)
Definition zigzag (v : Z) : Z :=
  if (v <? 0)%Z then Z.lnot (Z.shiftl v 1) else Z.shiftl v 1.

Fixpoint encodeChunks (fuel : nat) (u : Z) : string :=
  match fuel with
  | O => EmptyString
  | S fuel =>
      if (u <? 32)%Z
      then String (ascii_of_N (Z.to_N (u + 63))) EmptyString
      else String (ascii_of_N (Z.to_N (Z.lor (Z.land u 31) 32 + 63)))
             (encodeChunks fuel (Z.shiftr u 5))
  end.

Definition encodeValue (v : Z) : string := encodeChunks 7 (zigzag v).

Fixpoint encodeFrom (points : list (Z * Z)) (lat0 lng0 : Z) : string :=
  match points with
  | [] => EmptyString
  | (lat1, lng1) :: rest =>
      (encodeValue (lat1 - lat0) ++ encodeValue (lng1 - lng0)
         ++ encodeFrom rest lat1 lng1)%string
  end.

Definition encodePolyline (points : list (Z * Z)) : string :=
  encodeFrom points 0 0.

(** Every step from one point to the next fits the 31 bits the format
    leaves for a value. *)
Fixpoint stepsFit (points : list (Z * Z)) (lat0 lng0 : Z) : Prop :=
  match points with
  | [] => True
  | (lat1, lng1) :: rest =>
      (- 2 ^ 30 <= lat1 - lat0 < 2 ^ 30)%Z /\
      (- 2 ^ 30 <= lng1 - lng0 < 2 ^ 30)%Z /\
      stepsFit rest lat1 lng1
  end.

Definition degrees (point : Z * Z) : LatLng :=
  {| lat := IZR (fst point) / 100000; lng := IZR (snd point) / 100000 |}.

(** The example of the format's description: (38.5, -120.2),
    (40.7, -120.95), (43.252, -126.453). *)
Definition examplePoints : list (Z * Z) :=
  [(3850000, -12020000); (4070000, -12095000); (4325200, -12645300)]%Z.

Definition exampleEncoded : string := "_p~iF~ps|U_ulLnnqC_mqNvxq`@".

(** A service that answers plain requests with the example geometry and the
    sample steps, and cannot be reached for a request with detour hints; a
    trip service that cannot be reached. *)
Definition exampleData : Osrm.Data :=
  {| Osrm.code := "Ok";
     Osrm.message := None;
     Osrm.routes :=
       [ {| Osrm.geometry := exampleEncoded;
            Osrm.distance := 200;
            Osrm.duration := 60;
            Osrm.legs := sampleLegs |} ] |}.

Definition plainOnlyService (request : list LatLng * list R) : Fetched :=
  if (List.length (fst request) =? 2)%nat then Json exampleData
  else Threw "Failed to fetch".

Definition noTrip (sts : list LatLng) : TripFetched := TripThrew.

Definition twoStops : list LatLng :=
  [ {| lat := 0; lng := 0 |}; {| lat := 3; lng := 4 |} ].

(** ** The GPX import ([gpxParser]) *)

(** [points[i]] for an integer index: undefined outside the array. *)
Definition pointAt (points : list LatLng) (i : Z) : option LatLng :=
  if (i <? 0)%Z then None else nth_error points (Z.to_nat i).

(** The [for] loop of [simplifyTrack]: [i] runs from [step] in steps of
    [step] while [i < points.length - 1].  The recursion is on [fuel], and
    [None] is running out of it. *)
Fixpoint trackLoop (fuel : nat) (points : list LatLng) (i step : Z)
    (simplified : list (option LatLng)) {struct fuel}
    : option (list (option LatLng)) :=
  if (i <? Z.of_nat (List.length points) - 1)%Z then
    match fuel with
    | O => None
    | S fuel =>
        trackLoop fuel points (i + step)%Z step
          (simplified ++ [pointAt points i])
    end
  else Some simplified.

(** [simplifyTrack] for an integer [targetCount].  With [targetCount = 1]
    the step is [floor(n / 0)], which is infinite, and the loop test fails at
    once. *)
Definition simplifyTrackWith (fuel : nat) (points : list LatLng)
    (targetCount : Z) : option (list (option LatLng)) :=
  let n := Z.of_nat (List.length points) in
  if (n <=? targetCount)%Z then Some (map Some points)
  else
    let simplified := [pointAt points 0] in
    let step := (n / (targetCount - 1))%Z in
    let looped :=
      if (targetCount - 1 =? 0)%Z then Some simplified
      else trackLoop fuel points step step simplified in
    match looped with
    | Some simplified => Some (simplified ++ [pointAt points (n - 1)])
    | None => None
    end.

Definition simplifyTrack (points : list LatLng) (targetCount : Z)
    : option (list (option LatLng)) :=
  simplifyTrackWith (List.length points) points targetCount.

(** The indices [i], [i + step], ... ([count] of them). *)
Fixpoint indicesFrom (count : nat) (i step : Z) : list Z :=
  match count with
  | O => []
  | S count => i :: indicesFrom count (i + step)%Z step
  end.

(** A track of 60 points on the equator, one per degree. *)
Definition sampleTrack : list LatLng :=
  map (fun k => {| lat := 0; lng := INR k |}) (seq 0 60).

(** What the parser reads of a point element ([rtept], [wpt], [trkpt]): the
    numbers [parseFloat] gives for its [lat] and [lon] attributes, and the
    text of its [name] and [desc] children.  A number is [None] when it is
    NaN; an infinite value fails the range test of [isValidCoord] like NaN
    fails its first test, and is not told apart. *)
Record GpxPoint := {
  latAttr : option R;
  lonAttr : option R;
  nameText : option string;
  descText : option string
}.

(** What the parser reads of the parsed document: whether it holds a
    [parsererror] and a [gpx] element, and its [rte], [wpt] and [trk]
    elements, a route and a track with their points. *)
Record GpxDocument := {
  parsererror : bool;
  gpxRoot : bool;
  rte : list (list GpxPoint);
  wpt : list GpxPoint;
  trk : list (list GpxPoint)
}.

Record ValidationResult := { valid : bool; error : option string }.

Definition validateGPX (doc : GpxDocument) : ValidationResult :=
  if parsererror doc then
    {| valid := false;
       error := Some "Invalid XML format. Please upload a valid .gpx file"%string |}
  else if negb (gpxRoot doc) then
    {| valid := false;
       error := Some "Invalid file format. Root element must be <gpx>"%string |}
  else
    let hasRoutes := (0 <? List.length (rte doc))%nat in
    let hasWaypoints := (0 <? List.length (wpt doc))%nat in
    let hasTracks := (0 <? List.length (trk doc))%nat in
    if negb hasRoutes && negb hasWaypoints && negb hasTracks then
      {| valid := false;
         error := Some "GPX file contains no waypoints, routes, or tracks"%string |}
    else {| valid := true; error := None |}.

Definition isValidCoord (lat0 lng0 : option R) : bool :=
  match lat0, lng0 with
  | Some la, Some ln =>
      Rgeb la (-90) && Rleb la 90 && Rgeb ln (-180) && Rleb ln 180
  | _, _ => false
  end.

(** The object [{ lat, lng: lon }] of a point that passes [isValidCoord]. *)
Definition coordOf (pt : GpxPoint) : option LatLng :=
  if isValidCoord (latAttr pt) (lonAttr pt) then
    match latAttr pt, lonAttr pt with
    | Some la, Some ln => Some {| lat := la; lng := ln |}
    | _, _ => None
    end
  else None.

(** [nameEl?.textContent || descEl?.textContent || label + (index + 1)]. *)
Definition pointName (pt : GpxPoint) (label : string) (index : nat) : string :=
  if truthy (nameText pt) then orEmpty (nameText pt)
  else if truthy (descText pt) then orEmpty (descText pt)
  else (label ++ printNumber (index + 1))%string.

Inductive GpxResult :=
  | GpxStops (stops : list StopInput)
  | GpxError (message : string)
  | GpxHang.

(** [e.message || 'Failed to parse GPX file']. *)
Definition orParseFailure (message : string) : string :=
  if (String.length message =? 0)%nat then "Failed to parse GPX file"%string
  else message.

Definition MAX_FILE_SIZE : nat := 5 * 1024 * 1024.

Section GpxParser.

(** [String.prototype.trim], and the reading of the clock when the stop
    with a given index is made. *)
Variable trim : string -> string.
Variable now : nat -> nat.

Definition parseRoutes (rtepts : list GpxPoint) : list StopInput :=
  fold_left
    (fun stops '(rtept, index) =>
       match coordOf rtept with
       | None => stops
       | Some c =>
           stops
           ++ [{| address := trim (pointName rtept "Waypoint " index);
                  coord := Some c;
                  id := ("gpx-route-" ++ printNumber (now index) ++ "-"
                         ++ printNumber index)%string |}]
       end)
    (combine rtepts (seq 0 (List.length rtepts))) [].

Definition parseWaypoints (waypoints : list GpxPoint) : list StopInput :=
  fold_left
    (fun stops '(wpt0, index) =>
       match coordOf wpt0 with
       | None => stops
       | Some c =>
           stops
           ++ [{| address := trim (pointName wpt0 "Point " index);
                  coord := Some c;
                  id := ("gpx-waypoint-" ++ printNumber (now index) ++ "-"
                         ++ printNumber index)%string |}]
       end)
    (combine waypoints (seq 0 (List.length waypoints))) [].

(** [None] when [simplifyTrack] does not return. *)
Definition parseAndSimplifyTrack (trkpts : list GpxPoint)
    : option (list StopInput) :=
  let points :=
    fold_left
      (fun points trkpt =>
         match coordOf trkpt with
         | Some c => points ++ [c]
         | None => points
         end)
      trkpts [] in
  match simplifyTrack points 50 with
  | None => None
  | Some simplified =>
      Some
        (map
           (fun '(point, index) =>
              {| address :=
                   if (index =? 0)%nat then "Track Start"%string
                   else if (index =? List.length simplified - 1)%nat
                        then "Track End"%string
                        else ("Track Point " ++ printNumber index)%string;
                 coord := point;
                 id := ("gpx-track-" ++ printNumber (now index) ++ "-"
                        ++ printNumber index)%string |})
           (combine simplified (seq 0 (List.length simplified))))
  end.

(** [parseGPX] on the parsed document.  [GpxHang] is a call that does not
    return. *)
Definition parseGPX (doc : GpxDocument) : GpxResult :=
  let validation := validateGPX doc in
  if negb (valid validation) then GpxError (orEmpty (error validation))
  else
    let fromRoutes :=
      match rte doc with
      | route0 :: _ =>
          let stops := parseRoutes route0 in
          if (2 <=? List.length stops)%nat then Some stops else None
      | [] => None
      end in
    match fromRoutes with
    | Some stops => GpxStops stops
    | None =>
        let fromWaypoints :=
          if (0 <? List.length (wpt doc))%nat then
            let stops := parseWaypoints (wpt doc) in
            if (2 <=? List.length stops)%nat then Some stops else None
          else None in
        match fromWaypoints with
        | Some stops => GpxStops stops
        | None =>
            match trk doc with
            | track0 :: _ =>
                match parseAndSimplifyTrack track0 with
                | None => GpxHang
                | Some stops =>
                    if (2 <=? List.length stops)%nat then GpxStops stops
                    else GpxError
                           "GPX file must contain at least 2 valid waypoints"
                end
            | [] =>
                GpxError "GPX file must contain at least 2 valid waypoints"
            end
        end
    end.

(** The [onchange] handler of [handleGPXUpload], from the chosen file to the
    end of the handler.  [file] is the size of the chosen file with its
    parsed text, [None] when no file was chosen; the result is [None] when
    the handler does not return.  The loading flag is not modelled. *)
Definition handleGPXUpload (file : option (nat * GpxDocument))
    (mapReady : bool) (p : Planner) : option Planner :=
  match file with
  | None => Some p
  | Some (size, doc) =>
      if (MAX_FILE_SIZE <? size)%nat then
        Some {| stops := stops p;
                errorMessage := Some "GPX file too large (max 5MB)"%string;
                session := session p |}
      else
        let failed message :=
          Some {| stops := stops p;
                  errorMessage := Some (orParseFailure message);
                  session := session p |} in
        match parseGPX doc with
        | GpxHang => None
        | GpxError message => failed message
        | GpxStops newStops =>
            if (List.length newStops <? 2)%nat
            then failed "GPX file must contain at least 2 waypoints"%string
            else
              let s := session p in
              let fitted :=
                mapReady && (0 <? List.length newStops)%nat
                && (0 <? List.length (validCoords newStops))%nat in
              Some {| stops := newStops;
                      errorMessage := None;
                      session :=
                        {| appStatus := IDLE; route := None;
                           isFollowing :=
                             if fitted then false else isFollowing s;
                           zoomLevel := zoomLevel s;
                           isSimulating := isSimulating s;
                           currentManeuverIndex := currentManeuverIndex s;
                           distanceRef := distanceRef s;
                           simIntervalRef := simIntervalRef s;
                           rider := rider s |} |}
        end
  end.

End GpxParser.

(** The coordinates of the points of an element that pass [isValidCoord],
    in document order. *)
Fixpoint validPoints (pts : list GpxPoint) : list LatLng :=
  match pts with
  | [] => []
  | pt :: rest =>
      match coordOf pt with
      | Some c => c :: validPoints rest
      | None => validPoints rest
      end
  end.

Definition inRange (c : LatLng) : Prop :=
  -90 <= lat c <= 90 /\ -180 <= lng c <= 180.

(** A document with a route of one valid point and an unreadable one, two
    waypoints, and no track. *)
Definition gpxPointAt (la ln : R) : GpxPoint :=
  {| latAttr := Some la; lonAttr := Some ln;
     nameText := None; descText := Some "Fuel stop"%string |}.

Definition sampleDocument : GpxDocument :=
  {| parsererror := false;
     gpxRoot := true;
     rte := [[gpxPointAt 52 5;
              {| latAttr := None; lonAttr := Some 5;
                 nameText := None; descText := None |}]];
     wpt := [gpxPointAt 52 5; gpxPointAt 91 5; gpxPointAt 53 6];
     trk := [] |}.

Definition noTrim (s : string) : string := s.

Definition clockZero (index : nat) : nat := O.

(** ** The geocoding client ([geocoding]) *)

Record NominatimResult := {
  display_name : string;
  resultLat : string;
  resultLon : string
}.

(** The parameters [searchNominatim] puts in the address of its request:
    the query, the limit, the view box (left, top, right, bottom), the
    [bounded] flag and the country code when one is given. *)
Module Search.
Record Request := {
  q : string;
  limit : R;
  viewbox : R * R * R * R;
  bounded : bool;
  countrycodes : option string
}.
End Search.

(** The body of an answer as the client looks at it: a falsy value, an
    array, or another value, for which [data.length === 0] may hold. *)
Inductive SearchBody :=
  | BodyFalsy
  | BodyArray (results : list NominatimResult)
  | BodyOther (lengthIsZero : bool).

(** [fetch] or [json] throws, the status is not ok, or a body is read. *)
Inductive SearchResponse :=
  | SearchThrew
  | SearchNotOk
  | SearchOk (data : SearchBody).

(** [!data || data.length === 0]. *)
Definition noResults (data : SearchBody) : bool :=
  match data with
  | BodyFalsy => true
  | BodyArray results => (List.length results =? 0)%nat
  | BodyOther lengthIsZero => lengthIsZero
  end.

(** [Array.isArray(data) ? data : []]. *)
Definition arrayOrEmpty (data : SearchBody) : list NominatimResult :=
  match data with
  | BodyArray results => results
  | _ => []
  end.

(** [searchNominatim]: the results, and the requests sent, in order.  The
    recursion of the retry is on [fuel]; [None] is running out of it. *)
Fixpoint searchWith (fuel : nat)
    (service : Search.Request -> SearchResponse)
    (query : string) (center : LatLng) (countryCode : option string)
    (bounded : bool) (delta limit : R)
    : option (list NominatimResult * list Search.Request) :=
  if (String.length query <? 2)%nat then Some ([], [])
  else
    let request :=
      {| Search.q := query;
         Search.limit := limit;
         Search.viewbox :=
           (lng center - delta, lat center + delta,
            lng center + delta, lat center - delta);
         Search.bounded := bounded;
         Search.countrycodes :=
           if truthy countryCode then countryCode else None |} in
    match service request with
    | SearchThrew => Some ([], [request])
    | SearchNotOk => Some ([], [request])
    | SearchOk data =>
        if bounded && noResults data then
          match fuel with
          | O => None
          | S fuel =>
              match searchWith fuel service query center countryCode false
                      delta limit with
              | Some (results, sent) => Some (results, request :: sent)
              | None => None
              end
          end
        else Some (arrayOrEmpty data, [request])
    end.

Definition searchNominatim (service : Search.Request -> SearchResponse)
    (query : string) (center : LatLng) (countryCode : option string)
    (bounded : bool) (delta limit : R)
    : option (list NominatimResult * list Search.Request) :=
  searchWith 1 service query center countryCode bounded delta limit.

(** A service with no result inside the view box and one outside it. *)
Definition sampleResult : NominatimResult :=
  {| display_name := "Zwolle, Overijssel"; resultLat := "52.5";
     resultLon := "6.1" |}.

Definition farService (request : Search.Request) : SearchResponse :=
  if Search.bounded request then SearchOk (BodyArray [])
  else SearchOk (BodyArray [sampleResult]).

(** ** The geometry on doubles

    The same geometry helpers on IEEE 754 binary64 numbers, the numbers the
    code runs on: every [+], [-], [*] and [/] rounds to nearest.
    [Math.pow(x, 2)] and [Math.sqrt] are taken as the correctly rounded
    [x * x] and square root.  The bearing is computed with [Math.cos] and
    [Math.atan2], whose rounding the language leaves to the engine; it does
    not enter the choice of the point or of the segment and is left out of
    [Snap] here. *)

From Stdlib Require Floats.

Module Dbl.
Import Floats.
#[local] Set Warnings "-inexact-float".
#[local] Open Scope float_scope.

Record LatLng := { lat : float; lng : float }.

Record Snap := { point : LatLng; segmentIndex : nat }.

Definition getDistance (p1 p2 : LatLng) : float :=
  sqrt ((lat p2 - lat p1) * (lat p2 - lat p1)
        + (lng p2 - lng p1) * (lng p2 - lng p1)).

Definition interpolate (p1 p2 : LatLng) (fraction : float) : LatLng :=
  {| lat := lat p1 + (lat p2 - lat p1) * fraction;
     lng := lng p1 + (lng p2 - lng p1) * fraction |}.

(** [Math.min] and [Math.max]: NaN when an argument is NaN, and of two zeros
    the negative one is the smaller. *)
Definition min (a b : float) : float :=
  if is_nan a || is_nan b then nan
  else if a <? b then a
  else if b <? a then b
  else if get_sign a then a else b.

Definition max (a b : float) : float :=
  if is_nan a || is_nan b then nan
  else if a <? b then b
  else if b <? a then a
  else if get_sign a then b else a.

Definition projectOn (p start end_ : LatLng) : LatLng :=
  let dx := lng end_ - lng start in
  let dy := lat end_ - lat start in
  let t := ((lng p - lng start) * dx + (lat p - lat start) * dy)
           / (dx * dx + dy * dy) in
  let clampedT := max 0 (min 1 t) in
  {| lat := lat start + clampedT * dy; lng := lng start + clampedT * dx |}.

(** The [for] loop of [getNearestPointOnLine]; [minDistance] starts at
    [Infinity]. *)
Fixpoint snapLoop (p : LatLng) (i : nat) (line : list LatLng)
    (minDistance : float) (best : Snap) : Snap :=
  match line with
  | start :: ((end_ :: _) as rest) =>
      let dx := lng end_ - lng start in
      let dy := lat end_ - lat start in
      if (dx =? 0) && (dy =? 0) then snapLoop p (S i) rest minDistance best
      else
        let projP := projectOn p start end_ in
        let dist := getDistance p projP in
        if dist <? minDistance then
          snapLoop p (S i) rest dist {| point := projP; segmentIndex := i |}
        else snapLoop p (S i) rest minDistance best
  | _ => best
  end.

Definition getNearestPointOnLine (p : LatLng) (line : list LatLng) : Snap :=
  snapLoop p 0 line infinity {| point := p; segmentIndex := 0 |}.

(** Three vertices of a route, and the longitude the projection of
    [vertexB] on the segment from [vertexA] comes out with. *)
Definition vertexA : LatLng := {| lat := 51.5; lng := -0.3 |}.

Definition vertexB : LatLng := {| lat := 51.54843; lng := -0.09679 |}.

Definition vertexC : LatLng := {| lat := 51.56; lng := -0.05 |}.

Definition movedLng : float := -0.09678999999999999.

End Dbl.

(** ** The second half of the handler: marker and map view

    [updateRiderLocation] ends by drawing.  When the map is there it creates
    the rider's marker at the position it settled on, or moves the marker
    there and turns its arrow; and when the map follows the rider it sets
    the view.  These lines come after the throttled branch and run on every
    call. *)

(** What is drawn: where the marker is ([None] while there is none), the
    rotation last given to its arrow, and the centre and zoom of the last
    [setView]. *)
Record MapView := {
  markerRef : option LatLng;
  arrowRotation : option R;
  viewCenter : option LatLng;
  viewZoom : option R
}.

(** What the drawing lines read besides the fix: whether
    [mapRef.current && mapLoaded] holds, the [heading] of the render that
    made the callback, [isFollowingRef], [zoomLevelRef] and the size of the
    window. *)
Record Screen := {
  mapShown : bool;
  closureHeading : R;
  followingRef : bool;
  zoomRef : R;
  innerHeight : R;
  innerWidth : R
}.

(** The centre handed to [setView].  While navigating it is moved ahead of
    the rider; [dLng] divides by the cosine of the latitude, and where that
    is 0 both its numerator and its denominator are 0: the quotient is NaN
    and the centre stays on the rider. *)
Definition viewCenterOf (sc : Screen) (status : AppStatus)
    (finalPos : LatLng) (finalHeading : option R) : LatLng :=
  if AppStatus_eqb status NAVIGATING then
    let currentHeading :=
      match finalHeading with
      | Some h => h
      | None => closureHeading sc
      end in
    let metersPerPixel :=
      (15654303392 / 100000 * cos (lat finalPos * PI / 180))
      / Rpower 2 (zoomRef sc) in
    let pixelOffset :=
      if Rgtb (innerHeight sc) (innerWidth sc)
      then (innerHeight sc * (25 / 100)) / (17 / 10)
      else 0 in
    let distanceMeters := pixelOffset * metersPerPixel in
    let earthRadius := 6378137 in
    let dLat :=
      (distanceMeters * cos (currentHeading * PI / 180)) / earthRadius in
    let dLng :=
      (distanceMeters * sin (currentHeading * PI / 180))
      / (earthRadius * cos (lat finalPos * PI / 180)) in
    if Reqb (cos (lat finalPos * PI / 180)) 0 then finalPos
    else {| lat := lat finalPos + dLat * (180 / PI);
            lng := lng finalPos + dLng * (180 / PI) |}
  else finalPos.

(** The drawing lines.  [pendingHeading] is [pendingHeadingRef.current] as
    the first half left it.  The arrow element is taken to be in the document
    once the marker is on the map. *)
Definition drawRider (sc : Screen) (status : AppStatus) (finalPos : LatLng)
    (finalHeading pendingHeading : option R) (v : MapView) : MapView :=
  if negb (mapShown sc) then v
  else
    let marked :=
      match markerRef v with
      | None =>
          {| markerRef := Some finalPos;
             arrowRotation := arrowRotation v;
             viewCenter := viewCenter v;
             viewZoom := viewZoom v |}
      | Some _ =>
          let displayHeading :=
            match finalHeading with
            | Some h => h
            | None =>
                match pendingHeading with
                | Some h => h
                | None => closureHeading sc
                end
            end in
          {| markerRef := Some finalPos;
             arrowRotation := Some displayHeading;
             viewCenter := viewCenter v;
             viewZoom := viewZoom v |}
      end in
    if followingRef sc then
      {| markerRef := markerRef marked;
         arrowRotation := arrowRotation marked;
         viewCenter := Some (viewCenterOf sc status finalPos finalHeading);
         viewZoom := Some (zoomRef sc) |}
    else marked.

(** What one invocation draws, and the whole invocation on the rider and
    the map together. *)
Definition drawFix (sc : Screen) (f : Fix) (r : Rider) (v : MapView)
    : MapView :=
  let '(finalPos, finalHeading) :=
    resolveFix (fixStatus f) (fixRoute f) (fixPos f) (fixHeading f) r in
  drawRider sc (fixStatus f) finalPos finalHeading
    (pendingHeadingRef (handleFix f r)) v.

Definition handleFixDrawn (sc : Screen) (f : Fix) (rv : Rider * MapView)
    : Rider * MapView :=
  (handleFix f (fst rv), drawFix sc f (fst rv) (snd rv)).

Definition handleFixesDrawn (sc : Screen) (fs : list Fix)
    (rv : Rider * MapView) : Rider * MapView :=
  fold_left (fun rv f => handleFixDrawn sc f rv) fs rv.

(** Ten fixes within 45 ms, each at a place of its own, a screen that shows
    the map, and the rider and the map after the ten fixes. *)
Definition burstPos (k : nat) : LatLng :=
  {| lat := 52 + INR k / 1000; lng := 5 |}.

Definition burstFix (k : nat) : Fix :=
  {| fixStatus := IDLE; fixRoute := None;
     fixNow := (1000 + 5 * Z.of_nat k)%Z;
     fixPos := burstPos k; fixHeading := Some 90; fixSpeed := 40 |}.

Definition burstFixes : list Fix := map burstFix (seq 0 10).

Definition sampleScreen : Screen :=
  {| mapShown := true; closureHeading := 0; followingRef := false;
     zoomRef := 13; innerHeight := 800; innerWidth := 400 |}.

Definition noMarker : MapView :=
  {| markerRef := None; arrowRotation := None; viewCenter := None;
     viewZoom := None |}.

Definition burstEnd : Rider * MapView :=
  handleFixesDrawn sampleScreen burstFixes (initialRider, noMarker).

(** ** The stop list as an array

    The array behind the stop list can come to hold [undefined]:
    [moveWaypoint] inserts it when [fromIndex] lies beyond the array.  Here
    an entry is a stop or [None], and the three edits are total. *)
Module Slots.

Definition addWaypoint (newId : string) (stops : list (option StopInput))
    : list (option StopInput) :=
  spliceInsert stops (Z.of_nat (List.length stops) - 1)
    (Some {| address := EmptyString; coord := None; id := newId |}).

Definition removeWaypoint (index : Z) (stops : list (option StopInput))
    : list (option StopInput) :=
  if (index =? 0)%Z
     || (index =? Z.of_nat (List.length stops) - 1)%Z
     || (List.length stops <=? 2)%nat
  then stops
  else dropIndexFrom index 0 stops.

(** [movedStop] is the entry [splice] removed, or [undefined] when it
    removed none. *)
Definition moveWaypoint (fromIndex toIndex : Z)
    (stops : list (option StopInput)) : list (option StopInput) :=
  let len := Z.of_nat (List.length stops) in
  if ((fromIndex =? 0) || (fromIndex =? len - 1))%Z then stops
  else if ((toIndex =? 0) || (toIndex =? len - 1))%Z then stops
  else if ((toIndex <? 0) || (len <=? toIndex))%Z then stops
  else
    let '(removed, newStops) := spliceDelete1 stops fromIndex in
    let movedStop :=
      match removed with
      | Some entry => entry
      | None => None
      end in
    spliceInsert newStops toIndex movedStop.

Definition applyEdit (e : StopEdit) (l : list (option StopInput))
    : list (option StopInput) :=
  match e with
  | EditAdd newId => addWaypoint newId l
  | EditRemove index => removeWaypoint index l
  | EditMove fromIndex toIndex => moveWaypoint fromIndex toIndex l
  end.

Definition applyEdits (es : list StopEdit) (l : list (option StopInput))
    : list (option StopInput) :=
  fold_left (fun l e => applyEdit e l) es l.

End Slots.

(** * Properties *)

(** ** Comparisons *)

Lemma Rltb_true x y : Rltb x y = true <-> x < y.
Proof. unfold Rltb; destruct (Rlt_dec x y); split; intros; auto; discriminate. Qed.

Lemma Rltb_false x y : Rltb x y = false <-> y <= x.
Proof.
  unfold Rltb; destruct (Rlt_dec x y); split; intros; auto; try discriminate; lra.
Qed.

Lemma Rleb_true x y : Rleb x y = true <-> x <= y.
Proof. unfold Rleb; destruct (Rle_dec x y); split; intros; auto; discriminate. Qed.

Lemma Rleb_false x y : Rleb x y = false <-> y < x.
Proof.
  unfold Rleb; destruct (Rle_dec x y); split; intros; auto; try discriminate; lra.
Qed.

Lemma Reqb_true x y : Reqb x y = true <-> x = y.
Proof. unfold Reqb; destruct (Req_dec_T x y); split; intros; auto; discriminate. Qed.

Lemma Reqb_false x y : Reqb x y = false <-> x <> y.
Proof.
  unfold Reqb; destruct (Req_dec_T x y); split; intros; auto; try discriminate.
  contradiction.
Qed.

Lemma Rgeb_true x y : Rgeb x y = true <-> y <= x.
Proof. unfold Rgeb; apply Rleb_true. Qed.

Lemma Rgeb_false x y : Rgeb x y = false <-> x < y.
Proof. unfold Rgeb; apply Rleb_false. Qed.

Lemma Rgtb_true x y : Rgtb x y = true <-> y < x.
Proof. unfold Rgtb; apply Rltb_true. Qed.

Lemma Rgtb_false x y : Rgtb x y = false <-> x <= y.
Proof. unfold Rgtb; apply Rltb_false. Qed.

(** ** The snapper *)

Lemma getDistance_nonneg p q : 0 <= getDistance p q.
Proof. unfold getDistance; apply sqrt_pos. Qed.

Lemma getDistance_zero p q : getDistance p q = 0 -> p = q.
Proof.
  unfold getDistance; intros H.
  destruct p as [a b], q as [c d]; simpl in *.
  pose proof (pow2_ge_0 (c - a)) as Ha.
  pose proof (pow2_ge_0 (d - b)) as Hb.
  apply sqrt_eq_0 in H; [| lra].
  assert (Ea : (c - a) ^ 2 = 0) by lra.
  assert (Eb : (d - b) ^ 2 = 0) by lra.
  rewrite <- Rsqr_pow2 in Ea, Eb.
  apply Rsqr_eq_0 in Ea. apply Rsqr_eq_0 in Eb.
  f_equal; lra.
Qed.

Lemma getDistance_refl p : getDistance p p = 0.
Proof.
  unfold getDistance.
  replace ((lat p - lat p) ^ 2 + (lng p - lng p) ^ 2) with 0 by ring.
  apply sqrt_0.
Qed.

Lemma skip_test a b :
  Reqb (lng b - lng a) 0 && Reqb (lat b - lat a) 0 = true <-> degenerate a b.
Proof.
  unfold degenerate; rewrite andb_true_iff, !Reqb_true; tauto.
Qed.

Lemma skip_test_false a b :
  Reqb (lng b - lng a) 0 && Reqb (lat b - lat a) 0 = false <-> ~ degenerate a b.
Proof.
  rewrite <- skip_test.
  destruct (Reqb (lng b - lng a) 0 && Reqb (lat b - lat a) 0); split;
    intros; congruence.
Qed.

Lemma clamp_id s : 0 <= s <= 1 -> Rmax 0 (Rmin 1 s) = s.
Proof.
  intros [H0 H1]. rewrite Rmin_right by assumption. now rewrite Rmax_right.
Qed.

Lemma clamp_range t : 0 <= Rmax 0 (Rmin 1 t) <= 1.
Proof.
  split; [apply Rmax_l |].
  apply Rmax_lub; [lra | apply Rmin_l].
Qed.

(** A point of a proper segment is its own projection. *)
Lemma projectOn_fixed p a b :
  ~ degenerate a b -> OnSegment p a b -> projectOn p a b = p.
Proof.
  intros Hnd (s & Hs & Hlat & Hlng).
  unfold projectOn.
  set (dx := lng b - lng a) in *. set (dy := lat b - lat a) in *.
  assert (Hden : dx * dx + dy * dy <> 0).
  { intros E. apply Hnd. unfold degenerate. fold dx dy. nra. }
  assert (Ht : ((lng p - lng a) * dx + (lat p - lat a) * dy)
               / (dx * dx + dy * dy) = s).
  { rewrite Hlat, Hlng. field. exact Hden. }
  rewrite Ht, clamp_id by assumption.
  destruct p as [pl pg]; simpl in *. f_equal; lra.
Qed.

(** The projection always lies on the segment. *)
Lemma projectOn_on p a b : OnSegment (projectOn p a b) a b.
Proof.
  unfold projectOn, OnSegment.
  eexists. split; [apply clamp_range |]. simpl. split; reflexivity.
Qed.

(** The loop unfolded by one iteration. *)
Lemma snapLoop_step p i a b rest md best :
  snapLoop p i (a :: b :: rest) md best
  = if Reqb (lng b - lng a) 0 && Reqb (lat b - lat a) 0
    then snapLoop p (S i) (b :: rest) md best
    else if ltMin (getDistance p (projectOn p a b)) md
         then snapLoop p (S i) (b :: rest)
                (Some (getDistance p (projectOn p a b)))
                {| point := projectOn p a b;
                   bearing := calculateBearing a b;
                   segmentIndex := i |}
         else snapLoop p (S i) (b :: rest) md best.
Proof. reflexivity. Qed.

(** Once the best distance is 0 no later segment replaces the candidate. *)
Lemma snapLoop_zero p line : forall i best,
  snapLoop p i line (Some 0) best = best.
Proof.
  induction line as [| a line IH]; intros i best; [reflexivity |].
  destruct line as [| b rest]; [reflexivity |].
  rewrite snapLoop_step.
  destruct (Reqb (lng b - lng a) 0 && Reqb (lat b - lat a) 0); [apply IH |].
  cbn [ltMin].
  destruct (Rltb (getDistance p (projectOn p a b)) 0) eqn:E; [| apply IH].
  apply Rltb_true in E. pose proof (getDistance_nonneg p (projectOn p a b)). lra.
Qed.

(** When every segment is skipped the loop returns what it was given. *)
Lemma snapLoop_all_degenerate p line : forall i md best,
  (forall k a b, segmentAt line k a b -> degenerate a b) ->
  snapLoop p i line md best = best.
Proof.
  induction line as [| a line IH]; intros i md best Hall; [reflexivity |].
  destruct line as [| b rest]; [reflexivity |].
  rewrite snapLoop_step.
  assert (Hab : degenerate a b) by (apply (Hall 0%nat); split; reflexivity).
  apply skip_test in Hab. rewrite Hab.
  apply IH. intros k x y [H1 H2]. apply (Hall (S k)). split; assumption.
Qed.

Lemma short_line_no_segment (line : list LatLng) k a b :
  (List.length line < 2)%nat -> ~ segmentAt line k a b.
Proof.
  intros Hlen [_ H2].
  assert (S k < List.length line)%nat by (apply nth_error_Some; congruence).
  lia.
Qed.

(** C10: when the polyline has fewer than two vertices, or every pair of
    consecutive vertices is a zero-length segment, [getNearestPointOnLine]
    returns the input point itself, bearing 0 and segment index 0.  The
    function is a structural recursion, so it returns on every polyline. *)
Theorem snap_degenerate_returns_input (p : LatLng) (line : list LatLng) :
  (List.length line < 2)%nat \/
  (forall k a b, segmentAt line k a b -> degenerate a b) ->
  getNearestPointOnLine p line
  = {| point := p; bearing := 0; segmentIndex := 0 |}.
Proof.
  intros H. unfold getNearestPointOnLine.
  apply snapLoop_all_degenerate.
  destruct H as [Hlen | Hall]; [| exact Hall].
  intros k a b Hseg. exfalso. eapply short_line_no_segment; eauto.
Qed.

Lemma snap_degenerate_returns_input_witness :
  getNearestPointOnLine {| lat := 1; lng := 2 |} stackedLine
  = {| point := {| lat := 1; lng := 2 |}; bearing := 0; segmentIndex := 0 |}.
Proof.
  apply (snap_degenerate_returns_input {| lat := 1; lng := 2 |} stackedLine).
  right. intros k x y [H1 H2]. unfold stackedLine in H1, H2.
  assert (Hx : x = {| lat := 3; lng := 4 |}).
  { destruct k as [| [| [| k]]]; simpl in H1; try congruence.
    destruct k; discriminate. }
  assert (Hy : y = {| lat := 3; lng := 4 |}).
  { destruct k as [| [| k]]; simpl in H2; try congruence.
    destruct k; discriminate. }
  subst x y. unfold degenerate. simpl. split; ring.
Defined.

Lemma segmentAt_head a b rest x y :
  segmentAt (a :: b :: rest) 0 x y -> x = a /\ y = b.
Proof. intros [H1 H2]; simpl in *; split; congruence. Qed.

Lemma segmentAt_tail a line k x y :
  segmentAt (a :: line) (S k) x y <-> segmentAt line k x y.
Proof. unfold segmentAt; simpl; tauto. Qed.

(** The loop invariant behind snap idempotence: as long as no candidate at
    distance 0 has been recorded, a loop whose remaining polyline has a proper
    segment through [p] ends on the first such segment, with [p] itself. *)
Lemma snapLoop_on p : forall line i md best k a b,
  (md = None \/ exists d, md = Some d /\ 0 < d) ->
  segmentAt line k a b -> ~ degenerate a b -> OnSegment p a b ->
  exists j a' b',
    (j <= k)%nat /\ segmentAt line j a' b' /\
    ~ degenerate a' b' /\ OnSegment p a' b' /\
    snapLoop p i line md best
    = {| point := p; bearing := calculateBearing a' b';
         segmentIndex := i + j |} /\
    (forall j' x y, (j' < j)%nat -> segmentAt line j' x y ->
                    ~ degenerate x y -> ~ OnSegment p x y).
Proof.
  induction line as [| a0 line IH]; intros i md best k a b Hmd Hseg Hnd Hon.
  { destruct Hseg as [H _]. destruct k; discriminate. }
  destruct line as [| b0 rest].
  { destruct Hseg as [_ H]. destruct k; discriminate. }
  rewrite snapLoop_step.
  (* what the recursive call yields once segment 0 is known not to hold p *)
  assert (Hnext : forall md' best',
    (md' = None \/ exists d, md' = Some d /\ 0 < d) ->
    (degenerate a0 b0 \/ ~ OnSegment p a0 b0) ->
    exists j a' b',
      (j <= k)%nat /\ segmentAt (a0 :: b0 :: rest) j a' b' /\
      ~ degenerate a' b' /\ OnSegment p a' b' /\
      snapLoop p (S i) (b0 :: rest) md' best'
      = {| point := p; bearing := calculateBearing a' b';
           segmentIndex := i + j |} /\
      (forall j' x y, (j' < j)%nat -> segmentAt (a0 :: b0 :: rest) j' x y ->
                      ~ degenerate x y -> ~ OnSegment p x y)).
  { intros md' best' Hmd' Hnot.
    destruct k as [| k'].
    { apply segmentAt_head in Hseg. destruct Hseg; subst a b. tauto. }
    apply segmentAt_tail in Hseg.
    destruct (IH (S i) md' best' k' a b Hmd' Hseg Hnd Hon)
      as (j & a' & b' & Hle & Hs & Hn & Ho & Heq & Hfirst).
    exists (S j), a', b'.
    split; [lia |].
    split; [apply segmentAt_tail; exact Hs |].
    split; [exact Hn |].
    split; [exact Ho |].
    split; [rewrite Heq; f_equal; lia |].
    intros j' x y Hlt Hsx Hndx.
    destruct j' as [| j''].
    - apply segmentAt_head in Hsx. destruct Hsx; subst x y. tauto.
    - apply segmentAt_tail in Hsx. apply (Hfirst j'' x y); [lia | assumption..]. }
  destruct (Reqb (lng b0 - lng a0) 0 && Reqb (lat b0 - lat a0) 0) eqn:Eskip.
  { apply skip_test in Eskip. apply Hnext; auto. }
  apply skip_test_false in Eskip.
  pose proof (getDistance_nonneg p (projectOn p a0 b0)) as Hge.
  destruct (Req_dec (getDistance p (projectOn p a0 b0)) 0) as [Ez | Enz].
  - (* segment 0 holds p: it becomes the candidate at distance 0 *)
    assert (Hproj : projectOn p a0 b0 = p)
      by (symmetry; apply getDistance_zero; exact Ez).
    assert (Hlt : ltMin (getDistance p (projectOn p a0 b0)) md = true).
    { rewrite Ez. destruct Hmd as [-> | (d & -> & Hd)]; [reflexivity |].
      apply Rltb_true; exact Hd. }
    rewrite Hlt, Ez, snapLoop_zero, Hproj.
    exists 0%nat, a0, b0.
    split; [lia |].
    split; [split; reflexivity |].
    split; [exact Eskip |].
    split; [rewrite <- Hproj; apply projectOn_on |].
    split; [f_equal; lia |].
    intros j' x y Hj. lia.
  - (* segment 0 does not hold p: whatever the candidate, its distance is > 0 *)
    assert (Hoff : ~ OnSegment p a0 b0).
    { intros Ho. apply Enz. rewrite projectOn_fixed by assumption.
      apply getDistance_refl. }
    destruct (ltMin (getDistance p (projectOn p a0 b0)) md).
    + apply Hnext; [| now right].
      right. eexists. split; [reflexivity | lra].
    + apply Hnext; auto.
Qed.

(** C5, on doubles: the end vertex of a segment is a point of the route, yet
    its projection [start + 1 * (end - start)] comes out one unit in the last
    place away from it, so the snapper does not return it unchanged; and when
    the vertex is shared with a next segment, whose projection at [t = 0] is
    exact, that later segment is the one reported, not the first. *)
Lemma snap_moves_vertex_on_doubles :
  Dbl.getNearestPointOnLine Dbl.vertexB [Dbl.vertexA; Dbl.vertexB]
  = {| Dbl.point :=
         {| Dbl.lat := Dbl.lat Dbl.vertexB; Dbl.lng := Dbl.movedLng |};
       Dbl.segmentIndex := 0 |} /\
  Dbl.movedLng <> Dbl.lng Dbl.vertexB /\
  Dbl.getNearestPointOnLine Dbl.vertexB
    [Dbl.vertexA; Dbl.vertexB; Dbl.vertexC]
  = {| Dbl.point := Dbl.vertexB; Dbl.segmentIndex := 1 |}.
Proof.
  split; [vm_compute; reflexivity |].
  split; [| vm_compute; reflexivity].
  intros H.
  assert (E : PrimFloat.ltb (Dbl.lng Dbl.vertexB) Dbl.movedLng = true)
    by (vm_compute; reflexivity).
  rewrite H in E. vm_compute in E. discriminate.
Qed.

(** C5 (amended): in exact arithmetic snapping is idempotent on the route.
    If [p] lies on the proper (non-zero-length) segment [k] of the polyline,
    [getNearestPointOnLine] returns [p] unchanged, and the segment index it
    returns is that of the first proper segment through [p]: it is at most
    [k], the segment there is proper and holds [p], its bearing is the one
    returned, and no earlier proper segment holds [p].  On doubles the
    projection rounds and both parts can fail, as the lemma above shows. *)
Theorem snap_idempotent (p : LatLng) (line : list LatLng) (k : nat)
    (a b : LatLng) :
  segmentAt line k a b -> ~ degenerate a b -> OnSegment p a b ->
  let r := getNearestPointOnLine p line in
  point r = p /\
  (segmentIndex r <= k)%nat /\
  (exists a' b', segmentAt line (segmentIndex r) a' b' /\
                 ~ degenerate a' b' /\ OnSegment p a' b' /\
                 bearing r = calculateBearing a' b') /\
  (forall j x y, (j < segmentIndex r)%nat -> segmentAt line j x y ->
                 ~ degenerate x y -> ~ OnSegment p x y).
Proof.
  intros Hseg Hnd Hon r. subst r. unfold getNearestPointOnLine.
  destruct (snapLoop_on p line 0 None
              {| point := p; bearing := 0; segmentIndex := 0 |} k a b)
    as (j & a' & b' & Hle & Hs & Hn & Ho & Heq & Hfirst); auto.
  rewrite Heq. cbn [point segmentIndex bearing Nat.add].
  split; [reflexivity |].
  split; [exact Hle |].
  split; [| exact Hfirst].
  exists a', b'. auto.
Qed.

Lemma snap_idempotent_witness :
  point (getNearestPointOnLine cornerPoint cornerLine) = cornerPoint /\
  segmentIndex (getNearestPointOnLine cornerPoint cornerLine) = 0%nat.
Proof.
  (* the corner lies on segments 0 and 1; apply the theorem at segment 1 *)
  destruct (snap_idempotent cornerPoint cornerLine 1
              {| lat := 0; lng := 2 |} {| lat := 2; lng := 2 |})
    as (Hp & Hle & _ & Hfirst).
  - split; reflexivity.
  - unfold degenerate; simpl; lra.
  - exists 0; simpl; lra.
  - split; [exact Hp |].
    destruct (segmentIndex (getNearestPointOnLine cornerPoint cornerLine))
      as [| n]; [reflexivity |].
    exfalso.
    apply (Hfirst 0%nat {| lat := 0; lng := 0 |} {| lat := 0; lng := 2 |}).
    + lia.
    + split; reflexivity.
    + unfold degenerate; simpl; lra.
    + exists 1; simpl; lra.
Defined.

(** ** Cumulative distances *)

Lemma reduceFrom_snoc {A B : Type} (f : B -> A -> nat -> B) l x :
  forall i acc,
  reduceFrom f i (l ++ [x]) acc
  = f (reduceFrom f i l acc) x (i + List.length l)%nat.
Proof.
  induction l as [| y l IH]; intros i acc; simpl.
  - now rewrite Nat.add_0_r.
  - rewrite IH. f_equal. lia.
Qed.

Lemma reduceFrom_app {A B : Type} (f : B -> A -> nat -> B) l1 l2 :
  forall i acc,
  reduceFrom f i (l1 ++ l2) acc
  = reduceFrom f (i + List.length l1) l2 (reduceFrom f i l1 acc).
Proof.
  induction l1 as [| y l1 IH]; intros i acc; simpl.
  - now rewrite Nat.add_0_r.
  - rewrite IH. f_equal. lia.
Qed.

(** [cumulativeDistance poly k] is the value the accumulator of the full
    [reduce] holds when it moves on from index [k]. *)
Lemma totalDist_resumes poly k :
  totalDist poly
  = reduceFrom (addSegment poly) (List.length (firstn (S k) poly))
      (skipn (S k) poly) (cumulativeDistance poly k).
Proof.
  unfold totalDist, cumulativeDistance, reduce.
  rewrite <- (firstn_skipn (S k) poly) at 2.
  now rewrite reduceFrom_app.
Qed.

Lemma firstn_succ_snoc (poly : list LatLng) k :
  (k < List.length poly)%nat ->
  firstn (S k) poly = firstn k poly ++ [nth k poly origin].
Proof.
  revert k. induction poly as [| a poly IH]; intros k Hk; simpl in Hk; [lia |].
  destruct k as [| k]; [reflexivity |].
  cbn [firstn nth app]. f_equal.
  apply IH. lia.
Qed.

Lemma cumulativeDistance_0 poly : cumulativeDistance poly 0 = 0.
Proof.
  unfold cumulativeDistance, reduce. destruct poly as [| a poly]; reflexivity.
Qed.

Lemma cumulativeDistance_succ poly k :
  (S k < List.length poly)%nat ->
  cumulativeDistance poly (S k)
  = cumulativeDistance poly k
    + getDistance (nth k poly origin) (nth (S k) poly origin).
Proof.
  intros Hk. unfold cumulativeDistance, reduce.
  rewrite (firstn_succ_snoc poly (S k)) by exact Hk.
  rewrite reduceFrom_snoc.
  rewrite length_firstn, Nat.min_l by lia.
  unfold addSegment at 1. cbn [Nat.add Nat.eqb].
  replace (S k - 1)%nat with k by lia. reflexivity.
Qed.

Lemma cumulativeDistance_stable poly k :
  (List.length poly <= S k)%nat ->
  cumulativeDistance poly (S k) = cumulativeDistance poly k.
Proof.
  intros Hk. unfold cumulativeDistance.
  now rewrite !firstn_all2 by lia.
Qed.

Lemma cumulativeDistance_step_le poly k :
  cumulativeDistance poly k <= cumulativeDistance poly (S k).
Proof.
  destruct (Nat.lt_ge_cases (S k) (List.length poly)) as [Hlt | Hge].
  - rewrite cumulativeDistance_succ by exact Hlt.
    pose proof (getDistance_nonneg (nth k poly origin) (nth (S k) poly origin)).
    lra.
  - rewrite cumulativeDistance_stable by exact Hge. lra.
Qed.

Lemma cumulativeDistance_mono poly i j :
  (i <= j)%nat -> cumulativeDistance poly i <= cumulativeDistance poly j.
Proof.
  induction 1 as [| j Hij IH]; [lra |].
  pose proof (cumulativeDistance_step_le poly j). lra.
Qed.

Lemma totalDist_cumulative poly :
  totalDist poly = cumulativeDistance poly (List.length poly - 1).
Proof.
  unfold totalDist, cumulativeDistance.
  now rewrite firstn_all2 by lia.
Qed.

Lemma totalDist_nonneg poly : 0 <= totalDist poly.
Proof.
  rewrite totalDist_cumulative, <- (cumulativeDistance_0 poly).
  apply cumulativeDistance_mono. lia.
Qed.

(** Entries of [maneuverDistances] never fall below the running total they
    were started with, and they come in non-decreasing order. *)
Lemma maneuverDistancesFrom_sorted ms : forall c,
  (forall m, In m ms -> 0 <= Maneuver.distance m) ->
  (forall i d, nth_error (maneuverDistancesFrom c ms) i = Some d -> c <= d) /\
  (forall i j di dj, (i <= j)%nat ->
     nth_error (maneuverDistancesFrom c ms) i = Some di ->
     nth_error (maneuverDistancesFrom c ms) j = Some dj -> di <= dj).
Proof.
  induction ms as [| m ms IH]; intros c Hpos.
  - split; intros; destruct i; discriminate.
  - assert (Hm : 0 <= Maneuver.distance m) by (apply Hpos; now left).
    destruct (IH (c + Maneuver.distance m)) as [Hlow Hsorted].
    { intros m' Hin. apply Hpos. now right. }
    split.
    + intros [| i] d Hd; simpl in Hd.
      * injection Hd as <-. lra.
      * apply Hlow in Hd. lra.
    + intros i j di dj Hij Hi Hj.
      destruct i as [| i], j as [| j]; simpl in Hi, Hj.
      * injection Hi as <-. injection Hj as <-. lra.
      * injection Hi as <-. apply Hlow in Hj. lra.
      * lia.
      * apply (Hsorted i j); [lia | assumption..].
Qed.

(** C7: distance monotonicity.  The accumulator of the [reduce] behind
    [totalDist] starts at 0, grows by one segment length per vertex, is
    non-decreasing in the vertex index and ends as [totalDist]; and when no
    maneuver has a negative step distance, [maneuverDistances] is
    non-decreasing in the maneuver index. *)
Theorem distance_monotone (poly : list LatLng) (ms : list Maneuver.t) :
  (forall m, In m ms -> 0 <= Maneuver.distance m) ->
  cumulativeDistance poly 0 = 0 /\
  (forall k, (S k < List.length poly)%nat ->
     cumulativeDistance poly (S k)
     = cumulativeDistance poly k
       + getDistance (nth k poly origin) (nth (S k) poly origin)) /\
  (forall i j, (i <= j)%nat ->
     cumulativeDistance poly i <= cumulativeDistance poly j) /\
  totalDist poly = cumulativeDistance poly (List.length poly - 1) /\
  (forall i j di dj, (i <= j)%nat ->
     nth_error (maneuverDistances ms) i = Some di ->
     nth_error (maneuverDistances ms) j = Some dj -> di <= dj).
Proof.
  intros Hpos.
  split; [apply cumulativeDistance_0 |].
  split; [apply cumulativeDistance_succ |].
  split; [apply cumulativeDistance_mono |].
  split; [apply totalDist_cumulative |].
  apply (maneuverDistancesFrom_sorted ms 0 Hpos).
Qed.

Lemma distance_monotone_witness :
  cumulativeDistance (RouteResponse.polyline sampleRoute) 0
  <= cumulativeDistance (RouteResponse.polyline sampleRoute) 1 /\
  exists di dj,
    nth_error (maneuverDistances twoManeuvers) 0 = Some di /\
    nth_error (maneuverDistances twoManeuvers) 1 = Some dj /\ di <= dj.
Proof.
  destruct (distance_monotone (RouteResponse.polyline sampleRoute)
              twoManeuvers) as (_ & _ & Hcum & _ & Hman).
  - intros m [<- | [<- | []]]; simpl; lra.
  - split; [apply Hcum; lia |].
    exists 0, (0 + 100). split; [reflexivity |]. split; [reflexivity |].
    apply (Hman 0%nat 1%nat); [lia | reflexivity | reflexivity].
Defined.

(** ** The throttle *)

Lemma handleFix_time f r :
  lastStateUpdateTimeRef (handleFix f r)
  = if throttleOpen (fixNow f) r then fixNow f else lastStateUpdateTimeRef r.
Proof.
  unfold handleFix, updateRiderLocation, throttleOpen.
  destruct (resolveFix _ _ _ _ _) as [finalPos finalHeading]. cbn [lastStateUpdateTimeRef].
  destruct (100 <=? fixNow f - lastStateUpdateTimeRef r)%Z; reflexivity.
Qed.

(** An invocation that finds the gate closed leaves the three rendered cells
    alone. *)
Lemma handleFix_closed f r :
  throttleOpen (fixNow f) r = false ->
  currentPos (handleFix f r) = currentPos r /\
  heading (handleFix f r) = heading r /\
  speed (handleFix f r) = speed r.
Proof.
  unfold handleFix, updateRiderLocation, throttleOpen.
  destruct (resolveFix _ _ _ _ _) as [finalPos finalHeading]. cbn [lastStateUpdateTimeRef].
  intros ->. auto.
Qed.

(** An invocation that finds the gate open commits what it has just written
    to the pending refs. *)
Lemma handleFix_open f r :
  throttleOpen (fixNow f) r = true ->
  currentPos (handleFix f r) = pendingPosRef (handleFix f r) /\
  pendingPosRef (handleFix f r)
  = Some (fst (resolveFix (fixStatus f) (fixRoute f) (fixPos f)
                 (fixHeading f) r)) /\
  speed (handleFix f r) = orZero (pendingSpeedRef (handleFix f r)) /\
  pendingSpeedRef (handleFix f r) = Some (fixSpeed f).
Proof.
  unfold handleFix, updateRiderLocation, throttleOpen.
  destruct (resolveFix _ _ _ _ _) as [finalPos finalHeading]. cbn [lastStateUpdateTimeRef].
  intros ->. cbn. auto.
Qed.

(** The time stamp a run leaves behind is that of its last commit. *)
Lemma handleFixes_stamp fs : forall r,
  lastStateUpdateTimeRef (handleFixes fs r)
  = last (commitTimes fs r) (lastStateUpdateTimeRef r).
Proof.
  induction fs as [| f fs IH]; intros r; [reflexivity |].
  unfold handleFixes in *. cbn [fold_left commitTimes].
  rewrite IH, handleFix_time.
  destruct (throttleOpen (fixNow f) r); [| reflexivity].
  destruct (commitTimes fs (handleFix f r)) as [| t ts]; [reflexivity |].
  change (last (fixNow f :: t :: ts) (lastStateUpdateTimeRef r))
    with (last (t :: ts) (lastStateUpdateTimeRef r)).
  clear. revert t. induction ts as [| u ts IHts]; intros t; [reflexivity |].
  change (last (t :: u :: ts) (fixNow f)) with (last (u :: ts) (fixNow f)).
  change (last (t :: u :: ts) (lastStateUpdateTimeRef r))
    with (last (u :: ts) (lastStateUpdateTimeRef r)).
  apply IHts.
Qed.

Lemma commitTimes_spaced fs : forall r,
  spaced (lastStateUpdateTimeRef r) (commitTimes fs r).
Proof.
  induction fs as [| f fs IH]; intros r; cbn [commitTimes]; [exact I |].
  specialize (IH (handleFix f r)). rewrite handleFix_time in IH.
  destruct (throttleOpen (fixNow f) r) eqn:E; [| exact IH].
  split; [| exact IH].
  unfold throttleOpen in E. apply Z.leb_le in E. lia.
Qed.

Lemma spaced_In last ts t : spaced last ts -> In t ts -> (last + 100 <= t)%Z.
Proof.
  revert last. induction ts as [| u ts IH]; intros last Hs Hin; [easy |].
  destruct Hs as [Hu Hs]. destruct Hin as [-> | Hin]; [exact Hu |].
  specialize (IH u Hs Hin). lia.
Qed.

Lemma spaced_nth last ts : spaced last ts ->
  forall i j ti tj, (i < j)%nat ->
    nth_error ts i = Some ti -> nth_error ts j = Some tj ->
    (ti + 100 <= tj)%Z.
Proof.
  revert last. induction ts as [| u ts IH]; intros last Hs i j ti tj Hij Hi Hj.
  { destruct i; discriminate. }
  destruct Hs as [Hu Hs].
  destruct j as [| j]; [lia |]. cbn in Hj.
  destruct i as [| i]; cbn in Hi.
  - injection Hi as <-. apply (spaced_In u ts); [exact Hs |].
    eapply nth_error_In; eauto.
  - apply (IH u Hs i j); [lia | assumption..].
Qed.

Lemma commitTimes_In fs : forall r t,
  In t (commitTimes fs r) -> exists f, In f fs /\ fixNow f = t.
Proof.
  induction fs as [| f fs IH]; intros r t Hin; cbn [commitTimes] in Hin; [easy |].
  destruct (throttleOpen (fixNow f) r).
  - destruct Hin as [<- | Hin].
    + exists f. split; [now left | reflexivity].
    + destruct (IH _ _ Hin) as (g & Hg & Et). exists g. split; [now right | exact Et].
  - destruct (IH _ _ Hin) as (g & Hg & Et). exists g. split; [now right | exact Et].
Qed.

(** Every invocation leaves its own fix in the pending refs. *)
Lemma handleFix_pending f r :
  pendingPosRef (handleFix f r)
  = Some (fst (resolveFix (fixStatus f) (fixRoute f) (fixPos f)
                 (fixHeading f) r)) /\
  pendingSpeedRef (handleFix f r) = Some (fixSpeed f).
Proof.
  unfold handleFix, updateRiderLocation.
  destruct (resolveFix _ _ _ _ _) as [finalPos finalHeading].
  destruct (throttleOpen _ _); cbn; auto.
Qed.

(** Invocations that come less than 100 ms after the last commit leave the
    rendered cells and the time stamp alone. *)
Lemma handleFixes_closed_run fs : forall r,
  (forall g, In g fs -> (fixNow g - lastStateUpdateTimeRef r < 100)%Z) ->
  currentPos (handleFixes fs r) = currentPos r /\
  heading (handleFixes fs r) = heading r /\
  speed (handleFixes fs r) = speed r /\
  lastStateUpdateTimeRef (handleFixes fs r) = lastStateUpdateTimeRef r.
Proof.
  induction fs as [| g fs IH]; intros r Hwin; [cbn; auto |].
  assert (Hc : throttleOpen (fixNow g) r = false).
  { unfold throttleOpen. apply Z.leb_gt. apply Hwin. now left. }
  destruct (handleFix_closed g r Hc) as (H1 & H2 & H3).
  pose proof (handleFix_time g r) as Ht. rewrite Hc in Ht.
  unfold handleFixes in *. cbn [fold_left].
  destruct (IH (handleFix g r)) as (I1 & I2 & I3 & I4).
  { intros g' Hg'. rewrite Ht. apply Hwin. now right. }
  rewrite I1, I2, I3, I4. auto.
Qed.

(** The marker is where the invocation settled, gate or no gate. *)
Lemma drawFix_marker sc f r v :
  mapShown sc = true ->
  markerRef (drawFix sc f r v)
  = Some (fst (resolveFix (fixStatus f) (fixRoute f) (fixPos f)
                 (fixHeading f) r)).
Proof.
  intros Hmap. unfold drawFix.
  destruct (resolveFix _ _ _ _ _) as [finalPos finalHeading].
  unfold drawRider. rewrite Hmap. cbn [negb fst].
  destruct (markerRef v); destruct (followingRef sc); reflexivity.
Qed.

Lemma handleFixesDrawn_snoc sc fs g rv :
  handleFixesDrawn sc (fs ++ [g]) rv
  = handleFixDrawn sc g (handleFixesDrawn sc fs rv).
Proof. unfold handleFixesDrawn. now rewrite fold_left_app. Qed.

Lemma handleFixesDrawn_rider sc fs : forall rv,
  fst (handleFixesDrawn sc fs rv) = handleFixes fs (fst rv).
Proof.
  induction fs as [| f fs IH]; intros rv; [reflexivity |].
  unfold handleFixesDrawn, handleFixes in *. cbn [fold_left].
  now rewrite IH.
Qed.

Lemma burstPos_distinct : burstPos 9 <> burstPos 0.
Proof.
  unfold burstPos. intros H. injection H as H. simpl in H. lra.
Qed.

(** C3, as the code has it: of ten fixes within 45 ms, each at a place of
    its own, the one that is committed is the first; the tenth is left in
    the pending refs and is not published; and the marker on the map has
    followed every fix and stands at the tenth. *)
Lemma burst_publishes_first_fix :
  commitTimes burstFixes initialRider = [1000%Z] /\
  currentPos (fst burstEnd) = Some (burstPos 0) /\
  pendingPosRef (fst burstEnd) = Some (burstPos 9) /\
  markerRef (snd burstEnd) = Some (burstPos 9) /\
  burstPos 9 <> burstPos 0.
Proof.
  split; [reflexivity |].
  split; [reflexivity |].
  split; [reflexivity |].
  split; [reflexivity | exact burstPos_distinct].
Qed.

(** C3 (amended): the throttle.  In every run of fix-handling invocations,
    two invocations that commit (enter the branch calling [setCurrentPos],
    [setSpeed] and [setHeading]) are at least 100 ms apart, and a run whose
    fixes all fall within 50 ms commits at most once.  An invocation that
    does not commit leaves position, heading and speed as they were.  One
    that commits publishes the position and speed of its own fix.  So of a
    burst the first fix wins: when an invocation commits and others follow
    within less than 100 ms, the committed position and speed stay those of
    the first one, while the pending refs hold the last fix, which nothing
    publishes.  The marker on the map is not behind the gate: when the map
    is shown, every invocation puts it where it settled. *)
Theorem throttle_gate (fs : list Fix) (r : Rider) :
  (forall i j ti tj, (i < j)%nat ->
     nth_error (commitTimes fs r) i = Some ti ->
     nth_error (commitTimes fs r) j = Some tj ->
     (100 <= tj - ti)%Z) /\
  ((forall f g, In f fs -> In g fs -> (fixNow g - fixNow f <= 50)%Z) ->
   (List.length (commitTimes fs r) <= 1)%nat) /\
  (forall f r0, throttleOpen (fixNow f) r0 = false ->
     currentPos (handleFix f r0) = currentPos r0 /\
     heading (handleFix f r0) = heading r0 /\
     speed (handleFix f r0) = speed r0) /\
  (forall f r0, throttleOpen (fixNow f) r0 = true ->
     currentPos (handleFix f r0)
     = Some (fst (resolveFix (fixStatus f) (fixRoute f) (fixPos f)
                    (fixHeading f) r0)) /\
     speed (handleFix f r0) = orZero (Some (fixSpeed f)) /\
     lastStateUpdateTimeRef (handleFix f r0) = fixNow f) /\
  (forall f rest r0, throttleOpen (fixNow f) r0 = true ->
     (forall g, In g rest -> (fixNow g - fixNow f < 100)%Z) ->
     currentPos (handleFixes (f :: rest) r0)
     = Some (fst (resolveFix (fixStatus f) (fixRoute f) (fixPos f)
                    (fixHeading f) r0)) /\
     speed (handleFixes (f :: rest) r0) = orZero (Some (fixSpeed f))) /\
  (forall before g r0,
     pendingPosRef (handleFixes (before ++ [g]) r0)
     = Some (fst (resolveFix (fixStatus g) (fixRoute g) (fixPos g)
                    (fixHeading g) (handleFixes before r0))) /\
     pendingSpeedRef (handleFixes (before ++ [g]) r0) = Some (fixSpeed g)) /\
  (forall sc before g r0 v, mapShown sc = true ->
     markerRef (snd (handleFixesDrawn sc (before ++ [g]) (r0, v)))
     = Some (fst (resolveFix (fixStatus g) (fixRoute g) (fixPos g)
                    (fixHeading g) (handleFixes before r0)))).
Proof.
  pose proof (commitTimes_spaced fs r) as Hsp.
  assert (Hgap : forall i j ti tj, (i < j)%nat ->
     nth_error (commitTimes fs r) i = Some ti ->
     nth_error (commitTimes fs r) j = Some tj -> (100 <= tj - ti)%Z).
  { intros i j ti tj Hij Hi Hj.
    pose proof (spaced_nth _ _ Hsp i j ti tj Hij Hi Hj). lia. }
  assert (Hopen : forall f r0, throttleOpen (fixNow f) r0 = true ->
     currentPos (handleFix f r0)
     = Some (fst (resolveFix (fixStatus f) (fixRoute f) (fixPos f)
                    (fixHeading f) r0)) /\
     speed (handleFix f r0) = orZero (Some (fixSpeed f)) /\
     lastStateUpdateTimeRef (handleFix f r0) = fixNow f).
  { intros f r0 Ho.
    destruct (handleFix_open f r0 Ho) as (H1 & H2 & H3 & H4).
    split; [now rewrite H1, H2 |]. split; [now rewrite H3, H4 |].
    rewrite handleFix_time, Ho. reflexivity. }
  split; [exact Hgap |].
  split.
  { intros Hwin.
    destruct (commitTimes fs r) as [| t0 [| t1 ts]] eqn:E; cbn; try lia.
    exfalso.
    specialize (Hgap 0%nat 1%nat t0 t1 (Nat.lt_0_1) eq_refl eq_refl).
    destruct (commitTimes_In fs r t0) as (f & Hf & Ef); [rewrite E; now left |].
    destruct (commitTimes_In fs r t1) as (g & Hg & Eg);
      [rewrite E; right; now left |].
    specialize (Hwin f g Hf Hg). lia. }
  split; [intros f r0; apply handleFix_closed |].
  split; [exact Hopen |].
  split.
  { intros f rest r0 Ho Hwin.
    destruct (Hopen f r0 Ho) as (H1 & H2 & H3).
    change (handleFixes (f :: rest) r0)
      with (handleFixes rest (handleFix f r0)).
    destruct (handleFixes_closed_run rest (handleFix f r0))
      as (I1 & _ & I3 & _).
    - intros g Hg. rewrite H3. now apply Hwin.
    - rewrite I1, I3. auto. }
  split.
  { intros before g r0. unfold handleFixes. rewrite fold_left_app.
    cbn [fold_left]. apply handleFix_pending. }
  intros sc before g r0 v Hmap.
  rewrite handleFixesDrawn_snoc. unfold handleFixDrawn. cbn [snd].
  rewrite handleFixesDrawn_rider. cbn [fst].
  now apply drawFix_marker.
Qed.

Lemma throttle_gate_witness :
  commitTimes tenFixes initialRider = [1000%Z] /\
  (List.length (commitTimes tenFixes initialRider) <= 1)%nat.
Proof.
  split; [reflexivity |].
  apply (proj1 (proj2 (throttle_gate tenFixes initialRider))).
  intros f g Hf Hg. unfold tenFixes in Hf, Hg. cbn [map In] in Hf, Hg.
  repeat (destruct Hf as [<- | Hf]); try contradiction;
    repeat (destruct Hg as [<- | Hg]); try contradiction; cbn; lia.
Defined.

(** ** Heading smoothing *)

(** [x % y] for a non-negative [x] lying in the [k]-th multiple of [y]. *)
Lemma jsmod_between x y (k : Z) :
  0 < y -> 0 <= x -> IZR k * y <= x < (IZR k + 1) * y ->
  jsmod x y = x - y * IZR k.
Proof.
  intros Hy Hx [Hlo Hhi].
  assert (Hq : x = x / y * y) by (field; lra).
  assert (Hq0 : 0 <= x / y).
  { apply Rmult_le_reg_r with y; [exact Hy |]. lra. }
  unfold jsmod, Rtrunc.
  destruct (Rle_dec 0 (x / y)) as [_ | Hneg]; [| contradiction].
  replace (Int_part (x / y)) with k; [reflexivity |].
  apply Int_part_spec. split.
  - apply Rmult_lt_reg_r with y; [exact Hy |]. nra.
  - apply Rmult_le_reg_r with y; [exact Hy |]. nra.
Qed.

Lemma jsmod_360_0 x : 0 <= x < 360 -> jsmod x 360 = x.
Proof. intros H. rewrite (jsmod_between x 360 0); lra. Qed.

Lemma jsmod_360_1 x : 360 <= x < 720 -> jsmod x 360 = x - 360.
Proof. intros H. rewrite (jsmod_between x 360 1); lra. Qed.

Lemma jsmod_360_2 x : 720 <= x < 1080 -> jsmod x 360 = x - 720.
Proof. intros H. rewrite (jsmod_between x 360 2); lra. Qed.

(** The three outcomes of the two wrap tests. *)
Lemma wrappedDiff_cases finalH prev :
  (180 < finalH - prev /\ wrappedDiff finalH prev = finalH - prev - 360) \/
  (finalH - prev < -180 /\ wrappedDiff finalH prev = finalH - prev + 360) \/
  (-180 <= finalH - prev <= 180 /\ wrappedDiff finalH prev = finalH - prev).
Proof.
  unfold wrappedDiff.
  destruct (Rgtb (finalH - prev) 180) eqn:E1.
  - apply Rgtb_true in E1.
    destruct (Rltb (finalH - prev - 360) (-180)) eqn:E2.
    + apply Rltb_true in E2. lra.
    + left. split; [lra | reflexivity].
  - apply Rgtb_false in E1.
    destruct (Rltb (finalH - prev) (-180)) eqn:E2.
    + apply Rltb_true in E2. right; left. split; [lra | reflexivity].
    + apply Rltb_false in E2. right; right. split; [lra | reflexivity].
Qed.

Lemma wrappedDiff_range finalH prev :
  0 <= prev < 360 -> 0 <= finalH < 360 ->
  -180 <= wrappedDiff finalH prev <= 180 /\
  exists k : Z, wrappedDiff finalH prev = finalH - prev + 360 * IZR k.
Proof.
  intros Hp Hf.
  destruct (wrappedDiff_cases finalH prev)
    as [[H ->] | [[H ->] | [H ->]]].
  - split; [lra |]. exists (-1)%Z. lra.
  - split; [lra |]. exists 1%Z. lra.
  - split; [lra |]. exists 0%Z. lra.
Qed.

Lemma headingUpdater_range finalH prev :
  0 <= prev < 360 -> 0 <= finalH < 360 ->
  0 <= headingUpdater finalH prev < 360 /\
  exists k : Z,
    headingUpdater finalH prev
    = prev + wrappedDiff finalH prev * (15 / 100) + 360 * IZR k.
Proof.
  intros Hp Hf.
  destruct (wrappedDiff_range finalH prev Hp Hf) as [Hd _].
  unfold headingUpdater.
  set (x := prev + wrappedDiff finalH prev * (15 / 100) + 360).
  assert (Hx : 333 <= x < 747) by (unfold x; lra).
  destruct (Rlt_le_dec x 360) as [H1 | H1].
  - rewrite jsmod_360_0 by lra. split; [lra |]. exists 1%Z. unfold x. lra.
  - destruct (Rlt_le_dec x 720) as [H2 | H2].
    + rewrite jsmod_360_1 by lra. split; [lra |]. exists 0%Z. unfold x. lra.
    + rewrite jsmod_360_2 by lra. split; [lra |]. exists (-1)%Z. unfold x. lra.
Qed.

Lemma wrappedDiff_10_350 : wrappedDiff 10 350 = 20.
Proof.
  destruct (wrappedDiff_cases 10 350)
    as [[H _] | [[H ->] | [H _]]]; lra.
Qed.

Lemma wrappedDiff_0_180 : wrappedDiff 0 180 = -180.
Proof.
  destruct (wrappedDiff_cases 0 180)
    as [[H _] | [[H _] | [H ->]]]; lra.
Qed.


Lemma headingUpdater_10_350 : headingUpdater 10 350 = 353.
Proof.
  unfold headingUpdater. rewrite wrappedDiff_10_350.
  rewrite jsmod_360_1; lra.
Qed.


(** C6, as the code has it: a difference of exactly -180 is kept, so the
    wrapped difference ranges over the closed interval from -180 to 180. *)
Lemma wrap_keeps_minus_180 : ~ (-180 < wrappedDiff 0 180 <= 180).
Proof. rewrite wrappedDiff_0_180. lra. Qed.

(** C6 (amended): for headings in [0,360) the difference is wrapped into
    [-180,180], congruent to the raw difference modulo 360 (the shorter arc),
    and the blended heading is reduced into [0,360) and congruent to
    [prev + 0.15 * diff].  The committed blend is [smoothAngle] at the fixed
    factor 0.15: from 350 toward 10 it gives 353; at factor 1 the same formula
    gives 10; the wrapped difference between 350 and 10 has absolute value
    20. *)
Theorem heading_blend_short_arc (prev finalH : R) :
  0 <= prev < 360 -> 0 <= finalH < 360 ->
  -180 <= wrappedDiff finalH prev <= 180 /\
  (exists k : Z, wrappedDiff finalH prev = finalH - prev + 360 * IZR k) /\
  0 <= headingUpdater finalH prev < 360 /\
  (exists k : Z,
     headingUpdater finalH prev
     = prev + wrappedDiff finalH prev * (15 / 100) + 360 * IZR k) /\
  headingUpdater finalH prev = smoothAngle prev finalH (15 / 100) /\
  headingUpdater 10 350 = 353 /\
  smoothAngle 350 10 1 = 10 /\
  Rabs (wrappedDiff 10 350) = 20.
Proof.
  intros Hp Hf.
  destruct (wrappedDiff_range finalH prev Hp Hf) as [Hd Hk].
  destruct (headingUpdater_range finalH prev Hp Hf) as [Hr Hc].
  repeat (split; [assumption |]).
  split; [reflexivity |].
  split; [apply headingUpdater_10_350 |].
  split.
  - unfold smoothAngle. rewrite wrappedDiff_10_350.
    rewrite jsmod_360_2; lra.
  - rewrite wrappedDiff_10_350. apply Rabs_pos_eq. lra.
Qed.

Lemma heading_blend_short_arc_witness :
  -180 <= wrappedDiff 0 180 <= 180 /\ 0 <= headingUpdater 0 180 < 360.
Proof.
  destruct (heading_blend_short_arc 180 0) as (Hd & _ & Hr & _); [lra | lra |].
  split; assumption.
Defined.






(** ** Starting the simulation *)

(** On a polyline without a proper segment the handler settles on the raw
    position, navigating or not. *)
Lemma resolveFix_short status rt newPos rawHeading r :
  (List.length (RouteResponse.polyline rt) < 2)%nat ->
  fst (resolveFix status (Some rt) newPos rawHeading r) = newPos.
Proof.
  intros Hlen. unfold resolveFix.
  destruct (AppStatus_eqb status NAVIGATING).
  - cbn [fst]. unfold getNearestPointOnLine.
    rewrite snapLoop_all_degenerate; [reflexivity |].
    intros k a b Hseg. exfalso. eapply short_line_no_segment; eauto.
  - destruct rawHeading as [h |]; [reflexivity |].
    destruct (lastPosRef r) as [last |]; [| reflexivity].
    destruct (Rgtb _ _); reflexivity.
Qed.

Lemma resolveFix_no_route status newPos rawHeading r :
  fst (resolveFix status None newPos rawHeading r) = newPos.
Proof.
  unfold resolveFix.
  assert (H : fst match rawHeading, lastPosRef r with
                  | None, Some last =>
                      if Rgtb (getDistance last newPos) (1 / 1000000)
                      then (newPos, Some (calculateBearing last newPos))
                      else (newPos, None)
                  | _, _ => (newPos, rawHeading)
                  end = newPos).
  { destruct rawHeading as [h |]; [reflexivity |].
    destruct (lastPosRef r) as [last |]; [| reflexivity].
    destruct (Rgtb _ _); reflexivity. }
  destruct (AppStatus_eqb status NAVIGATING); exact H.
Qed.

Lemma updateRiderLocation_open_pos status rt now newPos rawHeading newSpeed r :
  throttleOpen now r = true ->
  currentPos (updateRiderLocation status rt now newPos rawHeading newSpeed r)
  = Some (fst (resolveFix status rt newPos rawHeading r)).
Proof.
  unfold updateRiderLocation, throttleOpen.
  destruct (resolveFix _ _ _ _ _) as [finalPos finalHeading].
  cbn [lastStateUpdateTimeRef]. intros ->. reflexivity.
Qed.

(** C8, as the code has it: a route with a two-point polyline and no
    maneuvers does start the simulation. *)
Lemma no_maneuvers_still_starts :
  RouteResponse.maneuvers noManeuverRoute = [] /\
  appStatus (startSimulation (confirmState noManeuverRoute initialRider))
  = NAVIGATING /\
  isSimulating (startSimulation (confirmState noManeuverRoute initialRider))
  = true /\
  startSimulation (confirmState noManeuverRoute initialRider)
  <> confirmState noManeuverRoute initialRider.
Proof.
  split; [reflexivity |]. split; [reflexivity |]. split; [reflexivity |].
  intros E. apply (f_equal appStatus) in E. cbn in E. discriminate.
Qed.

(** C8 (amended): when there is no route, or its polyline has fewer than two
    points, [startSimulation] returns the session as it was; and every fix
    that passes the throttle still publishes the raw position, whatever the
    status.  All functions involved are total: nothing is thrown. *)
Theorem degenerate_route_no_simulation (s : App) :
  (route s = None \/
   exists rt, route s = Some rt /\
              (List.length (RouteResponse.polyline rt) < 2)%nat) ->
  startSimulation s = s /\
  (forall status now newPos rawHeading newSpeed,
     throttleOpen now (rider s) = true ->
     currentPos (updateRiderLocation status (route s) now newPos rawHeading
                   newSpeed (rider s))
     = Some newPos).
Proof.
  intros H. split.
  - unfold startSimulation.
    destruct H as [-> | (rt & -> & Hlen)]; [reflexivity |].
    apply Nat.ltb_lt in Hlen. now rewrite Hlen.
  - intros status now newPos rawHeading newSpeed Hopen.
    rewrite updateRiderLocation_open_pos by exact Hopen. f_equal.
    destruct H as [-> | (rt & -> & Hlen)].
    + apply resolveFix_no_route.
    + apply resolveFix_short. exact Hlen.
Qed.

Lemma degenerate_route_no_simulation_witness :
  startSimulation (confirmState onePointRoute initialRider)
  = confirmState onePointRoute initialRider /\
  currentPos (updateRiderLocation NAVIGATING (Some onePointRoute) 1000
                {| lat := 52; lng := 5 |} None 0 initialRider)
  = Some {| lat := 52; lng := 5 |}.
Proof.
  destruct (degenerate_route_no_simulation
              (confirmState onePointRoute initialRider)) as [H1 H2].
  - right. exists onePointRoute. split; [reflexivity | cbn; lia].
  - split; [exact H1 |].
    apply (H2 NAVIGATING 1000%Z {| lat := 52; lng := 5 |} None 0).
    reflexivity.
Defined.

(** ** The animation loop *)

Lemma segmentLoop_step d i a b rest acc :
  segmentLoop d i (a :: b :: rest) acc
  = if Rgeb (acc + getDistance a b) d then (acc, i)
    else segmentLoop d (S i) (b :: rest) (acc + getDistance a b).
Proof. reflexivity. Qed.

Lemma segmentLoop_index d : forall poly i acc,
  snd (segmentLoop d i poly acc) = 0%nat \/
  (i <= snd (segmentLoop d i poly acc))%nat /\
  (S (snd (segmentLoop d i poly acc)) < i + List.length poly)%nat.
Proof.
  induction poly as [| a poly IH]; intros i acc; [now left |].
  destruct poly as [| b rest]; [now left |].
  rewrite segmentLoop_step.
  destruct (Rgeb (acc + getDistance a b) d).
  - right. cbn [snd List.length]. lia.
  - destruct (IH (S i) (acc + getDistance a b)) as [E | [Hlo Hhi]].
    + now left.
    + right. cbn [List.length] in Hhi |- *. lia.
Qed.

(** The segment the simulator interpolates on exists. *)
Lemma segmentLoop_in_range d poly :
  (2 <= List.length poly)%nat ->
  (S (snd (segmentLoop d 0 poly 0)) < List.length poly)%nat.
Proof.
  intros Hlen. destruct (segmentLoop_index d poly 0 0) as [E | [_ H]].
  - rewrite E. lia.
  - exact H.
Qed.

(** A skipped (odd) frame only counts itself and reschedules. *)
Lemma animate_skip now c s :
  (S (frameCount c) mod 2 =? 0)%nat = false ->
  animate now c s
  = {| appStatus := appStatus s; route := route s;
       isFollowing := isFollowing s; zoomLevel := zoomLevel s;
       isSimulating := isSimulating s;
       currentManeuverIndex := currentManeuverIndex s;
       distanceRef := distanceRef s;
       simIntervalRef :=
         Some {| simRoute := simRoute c; simSpeed := simSpeed c;
                 lastManeuverIndex := lastManeuverIndex c;
                 frameCount := S (frameCount c) |};
       rider := rider s |}.
Proof. intros E. unfold animate. rewrite E. reflexivity. Qed.

(** The frame on which the travelled distance reaches the total. *)
Lemma animate_arrive now c s :
  (S (frameCount c) mod 2 =? 0)%nat = true ->
  totalDist (RouteResponse.polyline (simRoute c))
  <= distanceRef s + SPEED_FACTOR ->
  animate now c s
  = {| appStatus := ARRIVED; route := route s;
       isFollowing := isFollowing s; zoomLevel := zoomLevel s;
       isSimulating := false;
       currentManeuverIndex := currentManeuverIndex s;
       distanceRef := distanceRef s + SPEED_FACTOR;
       simIntervalRef := None;
       rider := rider s |}.
Proof.
  intros E Hreach. unfold animate. rewrite E. cbn [negb].
  apply Rgeb_true in Hreach. rewrite Hreach. reflexivity.
Qed.

(** A frame that moves the rider on. *)
Lemma animate_advance now c s :
  (S (frameCount c) mod 2 =? 0)%nat = true ->
  distanceRef s + SPEED_FACTOR
  < totalDist (RouteResponse.polyline (simRoute c)) ->
  let traveledMeters :=
    (distanceRef s + SPEED_FACTOR)
    / totalDist (RouteResponse.polyline (simRoute c))
    * RouteResponse.distance (simRoute c) in
  let newManeuverIndex :=
    pickManeuverIndex traveledMeters
      (maneuverDistances (RouteResponse.maneuvers (simRoute c))) in
  let changed :=
    (S (frameCount c) mod 10 =? 0)%nat
    && negb (newManeuverIndex =? lastManeuverIndex c)%nat in
  appStatus (animate now c s) = appStatus s /\
  isSimulating (animate now c s) = isSimulating s /\
  distanceRef (animate now c s) = distanceRef s + SPEED_FACTOR /\
  currentManeuverIndex (animate now c s)
  = (if changed then newManeuverIndex else currentManeuverIndex s) /\
  simIntervalRef (animate now c s)
  = Some {| simRoute := simRoute c; simSpeed := simSpeed c;
            lastManeuverIndex :=
              if changed then newManeuverIndex else lastManeuverIndex c;
            frameCount := S (frameCount c) |}.
Proof.
  intros E Hgo. unfold animate. rewrite E. cbn [negb].
  apply Rgeb_false in Hgo. rewrite Hgo.
  destruct (simulatedFix _ _) as [currentLoc bearing0].
  cbn. auto.
Qed.

Lemma frames_stopped times : forall s,
  simIntervalRef s = None -> frames times s = s.
Proof.
  induction times as [| now times IH]; intros s Hs; [reflexivity |].
  unfold frames in *. cbn [fold_left].
  unfold frame at 2. rewrite Hs. apply IH. exact Hs.
Qed.

Lemma frames_app t1 t2 s : frames (t1 ++ t2) s = frames t2 (frames t1 s).
Proof. unfold frames. apply fold_left_app. Qed.

Lemma start_running s rt :
  route s = Some rt ->
  (2 <= List.length (RouteResponse.polyline rt))%nat ->
  Running rt 0 (startSimulation s).
Proof.
  intros Hr Hlen. unfold startSimulation. rewrite Hr.
  destruct (List.length (RouteResponse.polyline rt) <? 2)%nat eqn:E.
  { apply Nat.ltb_lt in E. lia. }
  unfold Running. cbn.
  split; [reflexivity |]. split; [reflexivity |]. split; [ring |].
  eexists. split; [reflexivity |]. split; reflexivity.
Qed.

Lemma half_succ_even n : (S n mod 2 =? 0)%nat = true -> (S n / 2 = S (n / 2))%nat.
Proof.
  intros E. apply Nat.eqb_eq in E.
  pose proof (Nat.div_mod_eq (S n) 2). pose proof (Nat.div_mod_eq n 2).
  pose proof (Nat.mod_upper_bound n 2). lia.
Qed.

Lemma half_succ_odd n : (S n mod 2 =? 0)%nat = false -> (S n / 2 = n / 2)%nat.
Proof.
  intros E. apply Nat.eqb_neq in E.
  pose proof (Nat.div_mod_eq (S n) 2). pose proof (Nat.div_mod_eq n 2).
  pose proof (Nat.mod_upper_bound n 2). pose proof (Nat.mod_upper_bound (S n) 2).
  lia.
Qed.

(** Before the reaching step every frame keeps the simulation running. *)
Lemma step_running rt N n now s :
  firstReach rt N -> Running rt n s -> (S n < 2 * N)%nat ->
  Running rt (S n) (frame now s).
Proof.
  intros (HN & Hreach & Hbelow) (Hst & Hsim & Hd & c & Hc & Hrt & Hfc) Hn.
  unfold frame. rewrite Hc.
  destruct (S (frameCount c) mod 2 =? 0)%nat eqn:E.
  - rewrite Hfc in E. pose proof (half_succ_even n E) as Hhalf.
    assert (Hgo : distanceRef s + SPEED_FACTOR
                  < totalDist (RouteResponse.polyline (simRoute c))).
    { rewrite Hrt, Hd.
      replace (INR (n / 2) * SPEED_FACTOR + SPEED_FACTOR)
        with (INR (S (n / 2)) * SPEED_FACTOR) by (rewrite S_INR; ring).
      apply Hbelow.
      pose proof (Nat.div_mod_eq (S n) 2). apply Nat.eqb_eq in E. lia. }
    rewrite <- Hfc in E.
    destruct (animate_advance now c s E Hgo) as (H1 & H2 & H3 & _ & H5).
    unfold Running. rewrite H1, H2, H3, H5, Hhalf, Hd, S_INR.
    split; [exact Hst |]. split; [exact Hsim |]. split; [ring |].
    eexists. split; [reflexivity |]. cbn. split; [exact Hrt | now rewrite Hfc].
  - rewrite animate_skip by exact E. unfold Running.
    cbn [appStatus isSimulating distanceRef simIntervalRef].
    rewrite Hfc in E. rewrite (half_succ_odd n E).
    split; [exact Hst |]. split; [exact Hsim |]. split; [exact Hd |].
    eexists. split; [reflexivity |]. cbn. split; [exact Hrt | now rewrite Hfc].
Qed.

Lemma frames_running rt N : firstReach rt N ->
  forall times n s, Running rt n s ->
    (n + List.length times < 2 * N)%nat ->
    Running rt (n + List.length times) (frames times s).
Proof.
  intros HN. induction times as [| now times IH]; intros n s Hrun Hlen.
  - cbn. now rewrite Nat.add_0_r.
  - cbn [List.length] in *. unfold frames in *. cbn [fold_left].
    replace (n + S (List.length times))%nat
      with (S n + List.length times)%nat by lia.
    apply IH; [| lia].
    apply step_running with N; [exact HN | exact Hrun | lia].
Qed.

(** The reaching step itself. *)
Lemma step_arrive rt N now s :
  firstReach rt N -> Running rt (2 * N - 1) s ->
  frame now s
  = {| appStatus := ARRIVED; route := route s;
       isFollowing := isFollowing s; zoomLevel := zoomLevel s;
       isSimulating := false;
       currentManeuverIndex := currentManeuverIndex s;
       distanceRef := INR N * SPEED_FACTOR;
       simIntervalRef := None;
       rider := rider s |}.
Proof.
  intros (HN & Hreach & Hbelow) (Hst & Hsim & Hd & c & Hc & Hrt & Hfc).
  unfold frame. rewrite Hc.
  assert (Hhalf : ((2 * N - 1) / 2 = N - 1)%nat).
  { pose proof (Nat.div_mod_eq (2 * N - 1) 2).
    pose proof (Nat.mod_upper_bound (2 * N - 1) 2). lia. }
  assert (Hdist : distanceRef s + SPEED_FACTOR = INR N * SPEED_FACTOR).
  { rewrite Hd, Hhalf. replace N with (S (N - 1)) at 2 by lia.
    rewrite S_INR. ring. }
  assert (E : (S (frameCount c) mod 2 =? 0)%nat = true).
  { rewrite Hfc. replace (S (2 * N - 1)) with (N * 2)%nat by lia.
    now rewrite Nat.Div0.mod_mul. }
  rewrite animate_arrive; [now rewrite Hdist | exact E |].
  rewrite Hrt, Hdist. exact Hreach.
Qed.

(** Some step reaches the total distance, and there is a first one. *)
Lemma firstReach_below rt n :
  (1 <= n)%nat ->
  totalDist (RouteResponse.polyline rt) <= INR n * SPEED_FACTOR ->
  exists N, firstReach rt N.
Proof.
  induction n as [| n IH]; intros Hn Hreach; [lia |].
  destruct n as [| n'].
  { exists 1%nat. split; [lia |]. split; [exact Hreach |]. intros m Hm. lia. }
  destruct (Rle_dec (totalDist (RouteResponse.polyline rt))
              (INR (S n') * SPEED_FACTOR)) as [Hle | Hgt].
  { apply IH; [lia | exact Hle]. }
  exists (S (S n')). split; [lia |]. split; [exact Hreach |].
  intros m Hm.
  assert (INR m <= INR (S n')) by (apply le_INR; lia).
  assert (0 < SPEED_FACTOR) by (unfold SPEED_FACTOR; lra).
  apply Rnot_le_lt in Hgt. nra.
Qed.

Lemma firstReach_exists rt : exists N, firstReach rt N.
Proof.
  pose proof (totalDist_nonneg (RouteResponse.polyline rt)) as Hpos.
  assert (Hsf : 0 < SPEED_FACTOR) by (unfold SPEED_FACTOR; lra).
  destruct (Req_dec (totalDist (RouteResponse.polyline rt)) 0) as [Hz | Hnz].
  { apply (firstReach_below rt 1); [lia |]. rewrite Hz. simpl. lra. }
  set (T := totalDist (RouteResponse.polyline rt)) in *.
  assert (HT : 0 < T) by lra.
  destruct (archimed_cor1 (SPEED_FACTOR / T)) as (n & Hinv & Hn).
  { apply Rdiv_lt_0_compat; assumption. }
  apply (firstReach_below rt n); [lia |]. fold T.
  assert (Hn' : 0 < INR n) by (apply lt_0_INR; exact Hn).
  assert (Hmul : / INR n * (INR n * T) < SPEED_FACTOR / T * (INR n * T)).
  { apply Rmult_lt_compat_r; [nra | exact Hinv]. }
  replace (/ INR n * (INR n * T)) with T in Hmul by (field; lra).
  replace (SPEED_FACTOR / T * (INR n * T)) with (INR n * SPEED_FACTOR) in Hmul
    by (field; lra).
  lra.
Qed.

(** C9: simulator arrival.  Let step [N] be the first simulated step at which
    the travelled distance reaches the total polyline distance (it is run by
    frame callback [2 * N]).  Up to the frame before, the session is
    navigating with a frame scheduled.  On that frame the simulation stops
    ([isSimulating] false, nothing scheduled), the status becomes [ARRIVED],
    the rider is left as it was (no fix is handed to the handler), and
    whatever frames follow change nothing. *)
Theorem simulator_arrival (s : App) (rt : RouteResponse.t) (N : nat)
    (before : list Z) (now : Z) (after : list Z) :
  route s = Some rt ->
  (2 <= List.length (RouteResponse.polyline rt))%nat ->
  firstReach rt N ->
  List.length before = (2 * N - 1)%nat ->
  let s1 := frames before (startSimulation s) in
  let s2 := frame now s1 in
  (forall times, (List.length times < 2 * N)%nat ->
     appStatus (frames times (startSimulation s)) = NAVIGATING /\
     simIntervalRef (frames times (startSimulation s)) <> None) /\
  appStatus s2 = ARRIVED /\
  isSimulating s2 = false /\
  simIntervalRef s2 = None /\
  distanceRef s2 = INR N * SPEED_FACTOR /\
  rider s2 = rider s1 /\
  frames after s2 = s2.
Proof.
  intros Hr Hlen HN Hbefore s1 s2.
  pose proof (start_running s rt Hr Hlen) as H0.
  assert (HN1 : (1 <= N)%nat) by apply HN.
  split.
  { intros times Ht.
    destruct (frames_running rt N HN times 0 _ H0) as (Hst & _ & _ & c & Hc & _);
      [cbn; lia |].
    split; [exact Hst | congruence]. }
  assert (H1 : Running rt (2 * N - 1) s1).
  { replace (2 * N - 1)%nat with (0 + List.length before)%nat by lia.
    apply (frames_running rt N HN); [exact H0 | lia]. }
  subst s2. rewrite (step_arrive rt N now s1 HN H1). cbn.
  repeat (split; [reflexivity |]).
  apply frames_stopped. reflexivity.
Qed.

Lemma totalDist_two a b : totalDist [a; b] = getDistance a b.
Proof.
  unfold totalDist, reduce. cbn [reduceFrom]. unfold addSegment.
  cbn [Nat.eqb Nat.sub nth]. ring.
Qed.

Lemma getDistance_northward a b :
  lng a = lng b -> lat a <= lat b -> getDistance a b = lat b - lat a.
Proof.
  intros Hlng Hlat. unfold getDistance. rewrite Hlng.
  replace ((lat b - lat a) ^ 2 + (lng b - lng b) ^ 2)
    with ((lat b - lat a) ^ 2) by ring.
  apply sqrt_pow2. lra.
Qed.

Lemma totalDist_shortRoute :
  totalDist (RouteResponse.polyline shortRoute) = 1 / 100000.
Proof.
  cbn [shortRoute RouteResponse.polyline].
  rewrite totalDist_two, getDistance_northward; cbn [lat lng]; lra.
Qed.

Lemma totalDist_sampleRoute :
  totalDist (RouteResponse.polyline sampleRoute) = 1.
Proof.
  cbn [sampleRoute RouteResponse.polyline].
  rewrite totalDist_two, getDistance_northward; cbn [lat lng]; lra.
Qed.

Lemma firstReach_shortRoute : firstReach shortRoute 2.
Proof.
  unfold firstReach. rewrite totalDist_shortRoute. unfold SPEED_FACTOR.
  split; [lia |]. split.
  - replace (INR 2) with 2 by (simpl; lra). lra.
  - intros m Hm. replace m with 1%nat by lia. simpl. lra.
Qed.

Lemma simulator_arrival_witness :
  appStatus (frame 50 shortRunBefore) = ARRIVED /\
  simIntervalRef (frame 50 shortRunBefore) = None /\
  rider (frame 50 shortRunBefore) = rider shortRunBefore /\
  frames [66; 83]%Z (frame 50 shortRunBefore) = frame 50 shortRunBefore.
Proof.
  unfold shortRunBefore.
  destruct (simulator_arrival (confirmState shortRoute initialRider)
              shortRoute 2 [0; 16; 33]%Z 50%Z [66; 83]%Z)
    as (_ & Ha & _ & Hn & _ & Hr & Hf).
  - reflexivity.
  - cbn. lia.
  - exact firstReach_shortRoute.
  - reflexivity.
  - repeat split; assumption.
Defined.

(** Enough frames always bring the simulation to [ARRIVED]. *)
Lemma simulation_arrives s rt :
  route s = Some rt ->
  (2 <= List.length (RouteResponse.polyline rt))%nat ->
  exists n, forall times, (n <= List.length times)%nat ->
    appStatus (frames times (startSimulation s)) = ARRIVED.
Proof.
  intros Hr Hlen.
  destruct (firstReach_exists rt) as [N HN].
  assert (HN1 : (1 <= N)%nat) by apply HN.
  exists (2 * N)%nat. intros times Ht.
  rewrite <- (firstn_skipn (2 * N - 1) times), frames_app.
  set (before := firstn (2 * N - 1) times).
  assert (Hb : List.length before = (2 * N - 1)%nat).
  { unfold before. rewrite length_firstn. lia. }
  destruct (skipn (2 * N - 1) times) as [| now rest] eqn:Es.
  { pose proof (length_skipn (2 * N - 1) times) as Hs. rewrite Es in Hs.
    cbn in Hs. lia. }
  assert (H1 : Running rt (2 * N - 1)
                 (frames before (startSimulation s))).
  { replace (2 * N - 1)%nat with (0 + List.length before)%nat by lia.
    apply (frames_running rt N HN); [apply start_running; assumption | lia]. }
  change (now :: rest) with ([now] ++ rest). rewrite frames_app.
  change (frames [now] (frames before (startSimulation s)))
    with (frame now (frames before (startSimulation s))).
  rewrite (step_arrive rt N now _ HN H1).
  rewrite frames_stopped; reflexivity.
Qed.

(** ** The active maneuver index *)

Lemma maneuverLoop_lt t d tl i idx :
  t < d -> maneuverLoop t i (d :: tl) idx = idx.
Proof. intros H. cbn [maneuverLoop]. apply Rgeb_false in H. now rewrite H. Qed.

Lemma maneuverLoop_ge t d tl i idx :
  d <= t -> maneuverLoop t i (d :: tl) idx = maneuverLoop t (S i) tl i.
Proof. intros H. cbn [maneuverLoop]. apply Rgeb_true in H. now rewrite H. Qed.

(** On a non-decreasing list the loop either finds every entry above [t] and
    keeps its initial answer, or stops on the last entry not above [t]. *)
Lemma maneuverLoop_spec t : forall rest i idx,
  (forall a b x y, (a <= b)%nat ->
     nth_error rest a = Some x -> nth_error rest b = Some y -> x <= y) ->
  (maneuverLoop t i rest idx = idx /\
   forall j d, nth_error rest j = Some d -> t < d) \/
  (exists j d,
     maneuverLoop t i rest idx = (i + j)%nat /\
     nth_error rest j = Some d /\ d <= t /\
     forall j' d', (j < j')%nat -> nth_error rest j' = Some d' -> t < d').
Proof.
  induction rest as [| d tl IH]; intros i idx Hsorted.
  { left. split; [reflexivity |]. intros [| j] d' H; discriminate. }
  destruct (Rlt_le_dec t d) as [Hlt | Hle].
  - left. split; [apply maneuverLoop_lt; exact Hlt |].
    intros j d' Hj.
    assert (d <= d') by (apply (Hsorted 0%nat j); [lia | reflexivity | exact Hj]).
    lra.
  - right. rewrite maneuverLoop_ge by exact Hle.
    destruct (IH (S i) i) as [[Heq Hall] | (j & d' & Heq & Hj & Hd & Hlater)].
    { intros a b x y Hab Ha Hb. apply (Hsorted (S a) (S b)); [lia | assumption..]. }
    + exists 0%nat, d. split; [rewrite Heq; lia |].
      split; [reflexivity |]. split; [exact Hle |].
      intros [| j'] d' Hj' E; [lia |]. apply (Hall j'). exact E.
    + exists (S j), d'. split; [rewrite Heq; lia |].
      split; [exact Hj |]. split; [exact Hd |].
      intros [| j'] d'' Hj' E; [lia |]. apply (Hlater j'); [lia | exact E].
Qed.






Lemma advancing_at_95 :
  distanceRef stateAt95 + SPEED_FACTOR
  < totalDist (RouteResponse.polyline (simRoute closureAt95)).
Proof.
  cbn [closureAt95 simRoute stateAt95 distanceRef].
  rewrite totalDist_sampleRoute. lra.
Qed.




(** * Further properties of the code *)

(** ** Planar distance and interpolation *)

Lemma getDistance_sqr p q :
  getDistance p q * getDistance p q
  = (lat q - lat p) ^ 2 + (lng q - lng p) ^ 2.
Proof.
  unfold getDistance. apply sqrt_sqrt.
  pose proof (pow2_ge_0 (lat q - lat p)). pose proof (pow2_ge_0 (lng q - lng p)).
  lra.
Qed.

(** Comparing two distances through their squares. *)
Lemma getDistance_le_sqr p q r s :
  (lat q - lat p) ^ 2 + (lng q - lng p) ^ 2
  <= (lat s - lat r) ^ 2 + (lng s - lng r) ^ 2 ->
  getDistance p q <= getDistance r s.
Proof. intros H. unfold getDistance. apply sqrt_le_1_alt. exact H. Qed.

Lemma getDistance_sym p q : getDistance p q = getDistance q p.
Proof. unfold getDistance. f_equal. ring. Qed.

Lemma getDistance_triangle p q r :
  getDistance p r <= getDistance p q + getDistance q r.
Proof.
  pose proof (getDistance_nonneg p q) as Hpq.
  pose proof (getDistance_nonneg q r) as Hqr.
  pose proof (getDistance_nonneg p r) as Hpr.
  pose proof (getDistance_sqr p q) as Spq.
  pose proof (getDistance_sqr q r) as Sqr.
  pose proof (getDistance_sqr p r) as Spr.
  set (a1 := lat q - lat p) in *. set (a2 := lng q - lng p) in *.
  set (b1 := lat r - lat q) in *. set (b2 := lng r - lng q) in *.
  replace (lat r - lat p) with (a1 + b1) in Spr by (unfold a1, b1; ring).
  replace (lng r - lng p) with (a2 + b2) in Spr by (unfold a2, b2; ring).
  set (A := getDistance p q) in *. set (B := getDistance q r) in *.
  set (C := getDistance p r) in *.
  (* Cauchy-Schwarz: the dot product is at most the product of the norms *)
  assert (Hcs : a1 * b1 + a2 * b2 <= A * B).
  { destruct (Rle_lt_dec (a1 * b1 + a2 * b2) 0) as [Hneg | Hposd]; [nra |].
    apply Rsqr_incr_0_var; [| nra].
    unfold Rsqr.
    replace (A * B * (A * B)) with ((A * A) * (B * B)) by ring.
    rewrite Spq, Sqr.
    assert (0 <= (a1 * b2 - a2 * b1) ^ 2) by apply pow2_ge_0.
    nra. }
  apply Rsqr_incr_0_var; [| lra].
  unfold Rsqr. nra.
Qed.

(** X1: the planar distance is a metric: it is symmetric, it is 0 exactly
    between equal points, and it satisfies the triangle inequality. *)
Theorem getDistance_metric (p q r : LatLng) :
  0 <= getDistance p q /\
  getDistance p q = getDistance q p /\
  (getDistance p q = 0 <-> p = q) /\
  getDistance p r <= getDistance p q + getDistance q r.
Proof.
  split; [apply getDistance_nonneg |].
  split; [apply getDistance_sym |].
  split; [| apply getDistance_triangle].
  split; [apply getDistance_zero |].
  intros ->. apply getDistance_refl.
Qed.

Lemma getDistance_interpolate p q f :
  0 <= f -> getDistance p (interpolate p q f) = f * getDistance p q.
Proof.
  intros Hf. unfold getDistance, interpolate. cbn [lat lng].
  replace ((lat p + (lat q - lat p) * f - lat p) ^ 2
           + (lng p + (lng q - lng p) * f - lng p) ^ 2)
    with (f ^ 2 * ((lat q - lat p) ^ 2 + (lng q - lng p) ^ 2)) by ring.
  rewrite sqrt_mult_alt by apply pow2_ge_0.
  now rewrite sqrt_pow2 by exact Hf.
Qed.

(** On doubles [p1 + (p2 - p1) * 1] is not always [p2]. *)
Lemma interpolate_end_rounds :
  Dbl.interpolate Dbl.vertexA Dbl.vertexB PrimFloat.one <> Dbl.vertexB.
Proof.
  intros H. apply (f_equal Dbl.lng) in H.
  assert (E : PrimFloat.eqb
                (Dbl.lng (Dbl.interpolate Dbl.vertexA Dbl.vertexB
                            PrimFloat.one))
                (Dbl.lng Dbl.vertexB) = false)
    by (vm_compute; reflexivity).
  rewrite H in E. vm_compute in E. discriminate.
Qed.

(** X2: [interpolate] returns its start point at fraction 0; for a fraction
    in [0,1] the point lies on the segment, at that fraction of the planar
    distance from the start and the remaining fraction from the end.  The end
    point is another matter: at fraction 1 the code evaluates
    [p1 + (p2 - p1) * 1], and on doubles there are end points for which this
    is not [p2]. *)
Theorem interpolate_on_segment (p q : LatLng) (f : R) :
  0 <= f <= 1 ->
  interpolate p q 0 = p /\
  OnSegment (interpolate p q f) p q /\
  getDistance p (interpolate p q f) = f * getDistance p q /\
  getDistance (interpolate p q f) q = (1 - f) * getDistance p q /\
  exists a b, Dbl.interpolate a b PrimFloat.one <> b.
Proof.
  intros Hf.
  split; [destruct p; unfold interpolate; cbn; f_equal; ring |].
  split.
  { exists f. split; [exact Hf |]. unfold interpolate. cbn. split; ring. }
  split; [apply getDistance_interpolate; lra |].
  split; [| exists Dbl.vertexA, Dbl.vertexB; exact interpolate_end_rounds].
  unfold getDistance, interpolate. cbn [lat lng].
  replace ((lat q - (lat p + (lat q - lat p) * f)) ^ 2
           + (lng q - (lng p + (lng q - lng p) * f)) ^ 2)
    with ((1 - f) ^ 2 * ((lat q - lat p) ^ 2 + (lng q - lng p) ^ 2)) by ring.
  rewrite sqrt_mult_alt by apply pow2_ge_0.
  rewrite sqrt_pow2 by lra. reflexivity.
Qed.

Lemma interpolate_on_segment_witness :
  getDistance {| lat := 0; lng := 0 |}
    (interpolate {| lat := 0; lng := 0 |} {| lat := 4; lng := 0 |} (1 / 4))
  = 1 / 4 * getDistance {| lat := 0; lng := 0 |} {| lat := 4; lng := 0 |}.
Proof.
  apply (interpolate_on_segment {| lat := 0; lng := 0 |}
           {| lat := 4; lng := 0 |} (1 / 4)).
  lra.
Defined.

(** ** Bearings *)

Lemma atan2_range y x : - PI < atan2 y x <= PI.
Proof.
  pose proof PI_RGT_0 as Hpi.
  pose proof (atan_bound (y / x)) as Hb.
  unfold atan2.
  destruct (Rlt_dec 0 x) as [Hx | Hx]; [lra |].
  destruct (Rlt_dec x 0) as [Hx' | Hx'].
  - assert (Hinv : / x < 0) by (apply Rinv_lt_0_compat; exact Hx').
    destruct (Rle_dec 0 y) as [Hy | Hy].
    + assert (Hq : y / x <= 0) by (unfold Rdiv; nra).
      assert (atan (y / x) <= 0).
      { destruct Hq as [Hq | Hq].
        - pose proof (atan_increasing _ _ Hq) as H. rewrite atan_0 in H. lra.
        - rewrite Hq, atan_0. lra. }
      lra.
    + assert (Hq : 0 < y / x) by (unfold Rdiv; nra).
      pose proof (atan_increasing _ _ Hq) as H. rewrite atan_0 in H. lra.
  - destruct (Rlt_dec 0 y); [lra |]. destruct (Rlt_dec y 0); lra.
Qed.

Lemma degrees_range t : - PI < t <= PI -> -180 < t * 180 / PI <= 180.
Proof.
  intros [Hlo Hhi]. pose proof PI_RGT_0 as Hpi.
  assert (E : t * 180 / PI * PI = t * 180) by (field; lra).
  split.
  - apply Rmult_lt_reg_r with PI; [exact Hpi |]. rewrite E. lra.
  - apply Rmult_le_reg_r with PI; [exact Hpi |]. rewrite E. lra.
Qed.

Lemma normalise_360 a : -180 < a <= 180 ->
  0 <= jsmod (a + 360) 360 < 360 /\
  (0 <= a -> jsmod (a + 360) 360 = a) /\
  (a < 0 -> jsmod (a + 360) 360 = a + 360).
Proof.
  intros Ha. destruct (Rlt_le_dec a 0) as [Hneg | Hpos].
  - rewrite jsmod_360_0 by lra. repeat split; try lra.
  - rewrite jsmod_360_1 by lra. repeat split; try lra.
Qed.

Lemma calculateBearing_range a b : 0 <= calculateBearing a b < 360.
Proof.
  unfold calculateBearing.
  apply normalise_360, degrees_range, atan2_range.
Qed.

Lemma atan2_north dy : 0 < dy -> atan2 0 dy = 0.
Proof.
  intros H. unfold atan2. destruct (Rlt_dec 0 dy); [| contradiction].
  unfold Rdiv. now rewrite Rmult_0_l, atan_0.
Qed.

Lemma atan2_south dy : dy < 0 -> atan2 0 dy = PI.
Proof.
  intros H. unfold atan2.
  destruct (Rlt_dec 0 dy); [lra |]. destruct (Rlt_dec dy 0); [| contradiction].
  destruct (Rle_dec 0 0); [| lra].
  unfold Rdiv. rewrite Rmult_0_l, atan_0. ring.
Qed.

Lemma atan2_east dx : 0 < dx -> atan2 dx 0 = PI / 2.
Proof.
  intros H. unfold atan2.
  destruct (Rlt_dec 0 0); [lra |]. destruct (Rlt_dec 0 0); [lra |].
  destruct (Rlt_dec 0 dx); [reflexivity | contradiction].
Qed.

Lemma atan2_west dx : dx < 0 -> atan2 dx 0 = - (PI / 2).
Proof.
  intros H. unfold atan2.
  destruct (Rlt_dec 0 0); [lra |]. destruct (Rlt_dec 0 0); [lra |].
  destruct (Rlt_dec 0 dx); [lra |].
  destruct (Rlt_dec dx 0); [reflexivity | contradiction].
Qed.

(** X3: [calculateBearing] always returns an angle in [0,360); it is 0 due
    north and 180 due south along a meridian, and 90 due east and 270 due
    west along a parallel away from the poles (where the cosine of the
    latitude is positive). *)
Theorem calculateBearing_compass (a b : LatLng) :
  0 <= calculateBearing a b < 360 /\
  (lng b = lng a -> lat a < lat b -> calculateBearing a b = 0) /\
  (lng b = lng a -> lat b < lat a -> calculateBearing a b = 180) /\
  (lat b = lat a -> 0 < cos (PI / 180 * lat a) -> lng a < lng b ->
     calculateBearing a b = 90) /\
  (lat b = lat a -> 0 < cos (PI / 180 * lat a) -> lng b < lng a ->
     calculateBearing a b = 270).
Proof.
  pose proof PI_RGT_0 as Hpi.
  split; [apply calculateBearing_range |].
  unfold calculateBearing.
  split; [| split; [| split]].
  - intros E H. rewrite E, Rminus_diag, Rmult_0_r, atan2_north by lra.
    replace (0 * 180 / PI + 360) with 360 by (field; lra).
    rewrite jsmod_360_1; lra.
  - intros E H. rewrite E, Rminus_diag, Rmult_0_r, atan2_south by lra.
    replace (PI * 180 / PI + 360) with 540 by (field; lra).
    rewrite jsmod_360_1; lra.
  - intros E Hc H. rewrite E, Rminus_diag, atan2_east by nra.
    replace (PI / 2 * 180 / PI + 360) with 450 by (field; lra).
    rewrite jsmod_360_1; lra.
  - intros E Hc H. rewrite E, Rminus_diag, atan2_west by nra.
    replace (- (PI / 2) * 180 / PI + 360) with 270 by (field; lra).
    rewrite jsmod_360_0; lra.
Qed.

Lemma calculateBearing_compass_witness :
  calculateBearing {| lat := 0; lng := 0 |} {| lat := 1; lng := 0 |} = 0.
Proof.
  apply (calculateBearing_compass {| lat := 0; lng := 0 |}
           {| lat := 1; lng := 0 |}); cbn; lra.
Defined.

(** ** The snapper returns the nearest point of the polyline *)

(** The clamped projection is the point of a proper segment nearest to [p]. *)
Lemma projectOn_nearest p a b q :
  ~ degenerate a b -> OnSegment q a b ->
  getDistance p (projectOn p a b) <= getDistance p q.
Proof.
  intros Hnd (s & Hs & Hlat & Hlng).
  apply getDistance_le_sqr. rewrite Hlat, Hlng.
  unfold projectOn. cbn [lat lng].
  set (dx := lng b - lng a) in *. set (dy := lat b - lat a) in *.
  set (u := lat p - lat a). set (v := lng p - lng a).
  assert (HD : 0 < dx * dx + dy * dy).
  { unfold degenerate in Hnd. fold dx dy in Hnd.
    destruct (Req_dec dx 0) as [Ex | Ex]; destruct (Req_dec dy 0) as [Ey | Ey];
      try tauto; nra. }
  set (t := (v * dx + u * dy) / (dx * dx + dy * dy)).
  assert (Ht : t * (dx * dx + dy * dy) = v * dx + u * dy)
    by (unfold t; field; lra).
  set (c := Rmax 0 (Rmin 1 t)).
  (* the difference of the squared distances factors *)
  assert (Hfac :
    (lat a + s * dy - lat p) ^ 2 + (lng a + s * dx - lng p) ^ 2
    - ((lat a + c * dy - lat p) ^ 2 + (lng a + c * dx - lng p) ^ 2)
    = (dx * dx + dy * dy) * ((s - c) * (s + c - 2 * t))).
  { replace (lat a + s * dy - lat p) with (s * dy - u) by (unfold u; ring).
    replace (lng a + s * dx - lng p) with (s * dx - v) by (unfold v; ring).
    replace (lat a + c * dy - lat p) with (c * dy - u) by (unfold u; ring).
    replace (lng a + c * dx - lng p) with (c * dx - v) by (unfold v; ring).
    replace ((dx * dx + dy * dy) * ((s - c) * (s + c - 2 * t)))
      with ((dx * dx + dy * dy) * (s * s - c * c)
            - 2 * (s - c) * (t * (dx * dx + dy * dy))) by ring.
    rewrite Ht. ring. }
  assert (Hsign : 0 <= (s - c) * (s + c - 2 * t)).
  { destruct (Rle_lt_dec 1 t) as [H1 | H1].
    - (* clamped to the end of the segment *)
      assert (Ec : c = 1).
      { unfold c. rewrite Rmin_left by exact H1. apply Rmax_right. lra. }
      rewrite Ec.
      replace ((s - 1) * (s + 1 - 2 * t)) with ((1 - s) * (2 * t - 1 - s)) by ring.
      apply Rmult_le_pos; lra.
    - destruct (Rle_lt_dec 0 t) as [H0 | H0].
      + assert (Ec : c = t).
        { unfold c. rewrite Rmin_right by lra. apply Rmax_right. exact H0. }
        rewrite Ec. replace ((s - t) * (s + t - 2 * t)) with ((s - t) ^ 2) by ring.
        apply pow2_ge_0.
      + (* clamped to the start of the segment *)
        assert (Ec : c = 0).
        { unfold c. rewrite Rmin_right by lra. apply Rmax_left. lra. }
        rewrite Ec. replace ((s - 0) * (s + 0 - 2 * t)) with (s * (s - 2 * t)) by ring.
        apply Rmult_le_pos; lra. }
  assert (0 <= (dx * dx + dy * dy) * ((s - c) * (s + c - 2 * t))) by nra.
  lra.
Qed.

(** What the loop returns, by cases: either no proper segment beat the
    running minimum and the candidate is the one it was given, or the
    candidate is the projection on a proper segment that beat it, nearest
    among all projections and first among the nearest. *)
Lemma snapLoop_min p : forall line i md best,
  (snapLoop p i line md best = best /\
   forall k a b, segmentAt line k a b -> ~ degenerate a b ->
     ltMin (getDistance p (projectOn p a b)) md = false) \/
  (exists j a b,
     segmentAt line j a b /\ ~ degenerate a b /\
     snapLoop p i line md best
     = {| point := projectOn p a b; bearing := calculateBearing a b;
          segmentIndex := i + j |} /\
     ltMin (getDistance p (projectOn p a b)) md = true /\
     (forall k a' b', segmentAt line k a' b' -> ~ degenerate a' b' ->
        getDistance p (projectOn p a b)
        <= getDistance p (projectOn p a' b')) /\
     (forall k a' b', (k < j)%nat -> segmentAt line k a' b' ->
        ~ degenerate a' b' ->
        getDistance p (projectOn p a b)
        < getDistance p (projectOn p a' b'))).
Proof.
  induction line as [| a0 line IH]; intros i md best.
  { left. split; [reflexivity |]. intros k a b [H _]. destruct k; discriminate. }
  destruct line as [| b0 rest].
  { left. split; [reflexivity |]. intros k a b [_ H]. destruct k; discriminate. }
  rewrite snapLoop_step.
  destruct (Reqb (lng b0 - lng a0) 0 && Reqb (lat b0 - lat a0) 0) eqn:Eskip.
  - (* segment 0 is skipped *)
    apply skip_test in Eskip.
    destruct (IH (S i) md best)
      as [[Heq Hall] | (j & a & b & Hs & Hn & Heq & Hlt & Hmin & Hfirst)].
    + left. split; [exact Heq |].
      intros [| k] a b Hseg Hnd.
      * apply segmentAt_head in Hseg. destruct Hseg; subst. contradiction.
      * apply segmentAt_tail in Hseg. eauto.
    + right. exists (S j), a, b.
      split; [apply segmentAt_tail; exact Hs |]. split; [exact Hn |].
      split; [rewrite Heq; f_equal; lia |]. split; [exact Hlt |].
      split.
      * intros [| k] a' b' Hseg Hnd.
        -- apply segmentAt_head in Hseg. destruct Hseg; subst. contradiction.
        -- apply segmentAt_tail in Hseg. eauto.
      * intros [| k] a' b' Hk Hseg Hnd.
        -- apply segmentAt_head in Hseg. destruct Hseg; subst. contradiction.
        -- apply segmentAt_tail in Hseg. apply (Hfirst k); [lia | assumption..].
  - apply skip_test_false in Eskip.
    set (d0 := getDistance p (projectOn p a0 b0)) in *.
    destruct (ltMin d0 md) eqn:E0.
    + (* segment 0 becomes the candidate *)
      destruct (IH (S i) (Some d0)
                  {| point := projectOn p a0 b0;
                     bearing := calculateBearing a0 b0; segmentIndex := i |})
        as [[Heq Hall] | (j & a & b & Hs & Hn & Heq & Hlt & Hmin & Hfirst)].
      * right. exists 0%nat, a0, b0.
        split; [split; reflexivity |]. split; [exact Eskip |].
        split; [rewrite Heq; f_equal; lia |]. split; [exact E0 |].
        split.
        -- intros [| k] a' b' Hseg Hnd.
           ++ apply segmentAt_head in Hseg. destruct Hseg; subst. fold d0. lra.
           ++ apply segmentAt_tail in Hseg.
              specialize (Hall k a' b' Hseg Hnd). cbn [ltMin] in Hall.
              apply Rltb_false in Hall. exact Hall.
        -- intros k a' b' Hk. lia.
      * right. exists (S j), a, b.
        cbn [ltMin] in Hlt. apply Rltb_true in Hlt.
        split; [apply segmentAt_tail; exact Hs |]. split; [exact Hn |].
        split; [rewrite Heq; f_equal; lia |].
        split.
        { destruct md as [m |]; [| reflexivity]. cbn [ltMin] in E0 |- *.
          apply Rltb_true in E0. apply Rltb_true. lra. }
        split.
        -- intros [| k] a' b' Hseg Hnd.
           ++ apply segmentAt_head in Hseg. destruct Hseg; subst. fold d0. lra.
           ++ apply segmentAt_tail in Hseg. eauto.
        -- intros [| k] a' b' Hk Hseg Hnd.
           ++ apply segmentAt_head in Hseg. destruct Hseg; subst. fold d0. lra.
           ++ apply segmentAt_tail in Hseg.
              apply (Hfirst k); [lia | assumption..].
    + (* segment 0 does not beat the running minimum *)
      destruct (IH (S i) md best)
        as [[Heq Hall] | (j & a & b & Hs & Hn & Heq & Hlt & Hmin & Hfirst)].
      * left. split; [exact Heq |].
        intros [| k] a b Hseg Hnd.
        -- apply segmentAt_head in Hseg. destruct Hseg; subst. exact E0.
        -- apply segmentAt_tail in Hseg. eauto.
      * right. exists (S j), a, b.
        split; [apply segmentAt_tail; exact Hs |]. split; [exact Hn |].
        split; [rewrite Heq; f_equal; lia |]. split; [exact Hlt |].
        assert (Hd0 : getDistance p (projectOn p a b) < d0).
        { destruct md as [m |]; [| discriminate].
          cbn [ltMin] in E0, Hlt. apply Rltb_false in E0.
          apply Rltb_true in Hlt. lra. }
        split.
        -- intros [| k] a' b' Hseg Hnd.
           ++ apply segmentAt_head in Hseg. destruct Hseg; subst. fold d0. lra.
           ++ apply segmentAt_tail in Hseg. eauto.
        -- intros [| k] a' b' Hk Hseg Hnd.
           ++ apply segmentAt_head in Hseg. destruct Hseg; subst. fold d0. lra.
           ++ apply segmentAt_tail in Hseg.
              apply (Hfirst k); [lia | assumption..].
Qed.

(** On a polyline with a proper segment the snapper returns a projection. *)
Lemma getNearestPointOnLine_projection p line k0 a0 b0 :
  segmentAt line k0 a0 b0 -> ~ degenerate a0 b0 ->
  exists j a b,
    segmentAt line j a b /\ ~ degenerate a b /\
    getNearestPointOnLine p line
    = {| point := projectOn p a b; bearing := calculateBearing a b;
         segmentIndex := j |} /\
    (forall k a' b', segmentAt line k a' b' -> ~ degenerate a' b' ->
       getDistance p (projectOn p a b) <= getDistance p (projectOn p a' b')) /\
    (forall k a' b', (k < j)%nat -> segmentAt line k a' b' ->
       ~ degenerate a' b' ->
       getDistance p (projectOn p a b) < getDistance p (projectOn p a' b')).
Proof.
  intros Hseg Hnd. unfold getNearestPointOnLine.
  destruct (snapLoop_min p line 0 None
              {| point := p; bearing := 0; segmentIndex := 0 |})
    as [[_ Hall] | (j & a & b & Hs & Hn & Heq & _ & Hmin & Hfirst)].
  - specialize (Hall k0 a0 b0 Hseg Hnd). discriminate.
  - exists j, a, b. rewrite Heq. cbn [Nat.add]. auto.
Qed.

(** X4: on a polyline with at least one proper segment,
    [getNearestPointOnLine] returns a point of the polyline that is nearest
    to the fix: it lies on the proper segment whose index and bearing are
    returned, the index is in range, and no point of any proper segment is
    closer to the fix.  Which of several segments at the same distance is
    reported is not part of the statement: on doubles it depends on
    rounding. *)
Theorem snap_is_nearest (p : LatLng) (line : list LatLng) (k0 : nat)
    (a0 b0 : LatLng) :
  segmentAt line k0 a0 b0 -> ~ degenerate a0 b0 ->
  let r := getNearestPointOnLine p line in
  (exists a b,
     segmentAt line (segmentIndex r) a b /\ ~ degenerate a b /\
     OnSegment (point r) a b /\ bearing r = calculateBearing a b) /\
  (S (segmentIndex r) < List.length line)%nat /\
  (forall k a b q, segmentAt line k a b -> ~ degenerate a b ->
     OnSegment q a b -> getDistance p (point r) <= getDistance p q).
Proof.
  intros Hseg Hnd r. subst r.
  destruct (getNearestPointOnLine_projection p line k0 a0 b0 Hseg Hnd)
    as (j & a & b & Hs & Hn & Heq & Hmin & _).
  rewrite Heq. cbn [point bearing segmentIndex].
  split; [| split].
  - exists a, b. split; [exact Hs |]. split; [exact Hn |].
    split; [apply projectOn_on | reflexivity].
  - destruct Hs as [_ Hs]. apply nth_error_Some. congruence.
  - intros k a' b' q Hs' Hn' Hq.
    pose proof (Hmin k a' b' Hs' Hn').
    pose proof (projectOn_nearest p a' b' q Hn' Hq). lra.
Qed.

Lemma snap_is_nearest_witness :
  getDistance {| lat := 1; lng := 1 |}
    (point (getNearestPointOnLine {| lat := 1; lng := 1 |} cornerLine))
  <= getDistance {| lat := 1; lng := 1 |} cornerPoint.
Proof.
  destruct (snap_is_nearest {| lat := 1; lng := 1 |} cornerLine 0
              {| lat := 0; lng := 0 |} {| lat := 0; lng := 2 |})
    as (_ & _ & Hmin).
  - split; reflexivity.
  - unfold degenerate; cbn; lra.
  - apply (Hmin 0%nat {| lat := 0; lng := 0 |} {| lat := 0; lng := 2 |}).
    + split; reflexivity.
    + unfold degenerate; cbn; lra.
    + exists 1. unfold cornerPoint. cbn. lra.
Defined.

(** ** The committed heading stays a compass angle *)

(** The bearing the snapper returns is 0 or a computed bearing. *)
Lemma getNearestPointOnLine_bearing_range p line :
  0 <= bearing (getNearestPointOnLine p line) < 360.
Proof.
  unfold getNearestPointOnLine.
  destruct (snapLoop_min p line 0 None
              {| point := p; bearing := 0; segmentIndex := 0 |})
    as [[Heq _] | (j & a & b & _ & _ & Heq & _)]; rewrite Heq; cbn [bearing].
  - lra.
  - apply calculateBearing_range.
Qed.

Lemma resolveFix_heading_range status rt newPos rawHeading r h :
  (forall h0, rawHeading = Some h0 -> 0 <= h0 < 360) ->
  snd (resolveFix status rt newPos rawHeading r) = Some h ->
  0 <= h < 360.
Proof.
  intros Hraw. unfold resolveFix.
  assert (Helse :
    snd match rawHeading, lastPosRef r with
        | None, Some last =>
            if Rgtb (getDistance last newPos) (1 / 1000000)
            then (newPos, Some (calculateBearing last newPos))
            else (newPos, None)
        | _, _ => (newPos, rawHeading)
        end = Some h -> 0 <= h < 360).
  { destruct rawHeading as [h0 |].
    - cbn. intros E. apply Hraw. exact E.
    - destruct (lastPosRef r) as [last |]; [| discriminate].
      destruct (Rgtb _ _); cbn; [| discriminate].
      intros E. injection E as <-. apply calculateBearing_range. }
  destruct (AppStatus_eqb status NAVIGATING); [| exact Helse].
  destruct rt as [rt |]; [| exact Helse].
  cbn [snd]. intros E. injection E as <-.
  apply getNearestPointOnLine_bearing_range.
Qed.

Lemma handleFix_headingsInRange f r :
  (forall h, fixHeading f = Some h -> 0 <= h < 360) ->
  headingsInRange r -> headingsInRange (handleFix f r).
Proof.
  intros Hraw [Hh Hp].
  pose proof (resolveFix_heading_range (fixStatus f) (fixRoute f) (fixPos f)
                (fixHeading f) r) as Hres.
  unfold handleFix, updateRiderLocation, headingsInRange.
  destruct (resolveFix _ _ _ _ _) as [finalPos finalHeading]. cbn [snd] in Hres.
  assert (Hpend : forall h,
            match finalHeading with
            | Some h0 => Some h0
            | None => pendingHeadingRef r
            end = Some h -> 0 <= h < 360).
  { intros h E. destruct finalHeading as [h0 |].
    - injection E as <-. apply (Hres h0 Hraw eq_refl).
    - apply Hp. exact E. }
  destruct (throttleOpen _ _); cbn.
  - split; [| exact Hpend].
    destruct (match finalHeading with
              | Some h0 => Some h0
              | None => pendingHeadingRef r
              end) as [h |] eqn:E; [| exact Hh].
    apply headingUpdater_range; [exact Hh | apply Hpend; reflexivity].
  - split; [exact Hh | exact Hpend].
Qed.

(** X5: the committed heading is always a compass angle.  Starting from a
    rider whose committed and pending headings lie in [0,360) (the initial
    rider does), every run of fixes whose compass headings, where present,
    lie in [0,360) leaves the committed heading in [0,360), whatever the
    statuses, routes, positions, speeds and times of the fixes. *)
Theorem heading_stays_in_range (fs : list Fix) (r : Rider) :
  headingsInRange r ->
  (forall f h, In f fs -> fixHeading f = Some h -> 0 <= h < 360) ->
  headingsInRange initialRider /\
  0 <= heading (handleFixes fs r) < 360 /\
  headingsInRange (handleFixes fs r).
Proof.
  intros Hr Hfs.
  split.
  { split; [cbn; lra | intros h E; discriminate]. }
  assert (H : headingsInRange (handleFixes fs r)).
  { revert r Hr. induction fs as [| f fs IH]; intros r Hr; [exact Hr |].
    unfold handleFixes in *. cbn [fold_left].
    apply IH.
    - intros g h Hg. apply Hfs. now right.
    - apply handleFix_headingsInRange; [| exact Hr].
      intros h. apply Hfs. now left. }
  split; [exact (proj1 H) | exact H].
Qed.

Lemma heading_stays_in_range_witness :
  0 <= heading (handleFixes tenFixes initialRider) < 360.
Proof.
  destruct (heading_stays_in_range tenFixes initialRider) as (Hi & Hh & _).
  - split; [cbn; lra | intros h E; discriminate].
  - intros f h Hf E. unfold tenFixes in Hf. cbn [map In] in Hf.
    repeat (destruct Hf as [<- | Hf]); try contradiction;
      cbn in E; injection E as <-; lra.
  - exact Hh.
Defined.

(** ** The position the handler settles on *)

(** Whatever the throttle does, the pending and last positions are the
    position the handler settled on. *)
Lemma handleFix_refs f r :
  pendingPosRef (handleFix f r)
  = Some (fst (resolveFix (fixStatus f) (fixRoute f) (fixPos f)
                 (fixHeading f) r)) /\
  lastPosRef (handleFix f r) = pendingPosRef (handleFix f r) /\
  pendingSpeedRef (handleFix f r) = Some (fixSpeed f).
Proof.
  unfold handleFix, updateRiderLocation.
  destruct (resolveFix _ _ _ _ _) as [finalPos finalHeading].
  destruct (throttleOpen _ _); cbn; auto.
Qed.

Lemma resolveFix_raw status rt newPos rawHeading r :
  status <> NAVIGATING \/ rt = None ->
  fst (resolveFix status rt newPos rawHeading r) = newPos.
Proof.
  intros H.
  destruct rt as [rt |]; [| apply resolveFix_no_route].
  destruct H as [H | H]; [| discriminate].
  unfold resolveFix.
  destruct status; try contradiction; cbn [AppStatus_eqb];
    (destruct rawHeading as [h |]; [reflexivity |];
     destruct (lastPosRef r) as [last |]; [| reflexivity];
     destruct (Rgtb _ _); reflexivity).
Qed.

(** X6: the position the handler settles on.  Outside navigation, or without
    a route, it is the raw position of the fix.  While navigating on a route
    whose polyline has a proper segment, it is a point of the polyline
    nearest to the raw position.  In both cases it is stored as pending and
    last position whether or not the throttle lets it through, and it is the
    position committed when the throttle does. *)
Theorem handler_position (f : Fix) (r : Rider) :
  (exists q, pendingPosRef (handleFix f r) = Some q /\
             lastPosRef (handleFix f r) = Some q /\
             (throttleOpen (fixNow f) r = true ->
                currentPos (handleFix f r) = Some q)) /\
  (fixStatus f <> NAVIGATING \/ fixRoute f = None ->
   pendingPosRef (handleFix f r) = Some (fixPos f)) /\
  (forall rt k0 a0 b0,
     fixStatus f = NAVIGATING -> fixRoute f = Some rt ->
     segmentAt (RouteResponse.polyline rt) k0 a0 b0 -> ~ degenerate a0 b0 ->
     exists q,
       pendingPosRef (handleFix f r) = Some q /\
       (exists j a b, segmentAt (RouteResponse.polyline rt) j a b /\
                      ~ degenerate a b /\ OnSegment q a b) /\
       (forall k a b q', segmentAt (RouteResponse.polyline rt) k a b ->
          ~ degenerate a b -> OnSegment q' a b ->
          getDistance (fixPos f) q <= getDistance (fixPos f) q')).
Proof.
  destruct (handleFix_refs f r) as (Hp & Hl & _).
  split; [| split].
  - eexists. split; [exact Hp |]. split; [now rewrite Hl |].
    intros Hopen. destruct (handleFix_open f r Hopen) as (Hc & _).
    now rewrite Hc.
  - intros H. rewrite Hp. f_equal. apply resolveFix_raw. exact H.
  - intros rt k0 a0 b0 Hst Hrt Hseg Hnd.
    rewrite Hp, Hst, Hrt. unfold resolveFix. cbn [AppStatus_eqb fst].
    destruct (getNearestPointOnLine_projection (fixPos f)
                (RouteResponse.polyline rt) k0 a0 b0 Hseg Hnd)
      as (j & a & b & Hs & Hn & Heq & Hmin & _).
    rewrite Heq. cbn [point].
    eexists. split; [reflexivity |]. split.
    + exists j, a, b. split; [exact Hs |]. split; [exact Hn |].
      apply projectOn_on.
    + intros k a' b' q' Hs' Hn' Hq'.
      pose proof (Hmin k a' b' Hs' Hn').
      pose proof (projectOn_nearest (fixPos f) a' b' q' Hn' Hq'). lra.
Qed.

Lemma handler_position_witness :
  pendingPosRef (handleFix (idleFix 1000 (Some 90) 40) initialRider)
  = Some (fixPos (idleFix 1000 (Some 90) 40)).
Proof.
  apply (handler_position (idleFix 1000 (Some 90) 40) initialRider).
  left. cbn. discriminate.
Defined.

(** ** Path length and the simulated position *)

Lemma pathLength_nonneg poly : 0 <= pathLength poly.
Proof.
  induction poly as [| a poly IH]; [cbn; lra |].
  destruct poly as [| b rest]; [cbn; lra |].
  change (pathLength (a :: b :: rest))
    with (getDistance a b + pathLength (b :: rest)).
  pose proof (getDistance_nonneg a b). lra.
Qed.

(** The [reduce] behind [totalDist], resumed after a vertex [x] of the
    polyline, adds the path length from [x] on. *)
Lemma reduceFrom_pathLength poly : forall rest pre x tail acc,
  poly = pre ++ x :: rest ++ tail ->
  reduceFrom (addSegment poly) (S (List.length pre)) rest acc
  = acc + pathLength (x :: rest).
Proof.
  induction rest as [| y rest IH]; intros pre x tail acc Hpoly.
  { cbn. ring. }
  cbn [reduceFrom].
  replace (S (S (List.length pre))) with (S (List.length (pre ++ [x])))
    by (rewrite length_app; cbn; lia).
  rewrite (IH (pre ++ [x]) y tail).
  - unfold addSegment. cbn [Nat.eqb Nat.sub].
    rewrite Nat.sub_0_r. rewrite Hpoly at 1. rewrite nth_middle.
    change (pathLength (x :: y :: rest))
      with (getDistance x y + pathLength (y :: rest)).
    ring.
  - rewrite Hpoly, <- app_assoc. reflexivity.
Qed.

Lemma totalDist_pathLength poly : totalDist poly = pathLength poly.
Proof.
  unfold totalDist, reduce. destruct poly as [| x rest]; [reflexivity |].
  cbn [reduceFrom]. unfold addSegment at 2. cbn [Nat.eqb].
  rewrite (reduceFrom_pathLength (x :: rest) rest [] x []).
  - ring.
  - now rewrite app_nil_r.
Qed.

Lemma cumulativeDistance_pathLength poly k :
  cumulativeDistance poly k = pathLength (firstn (S k) poly).
Proof.
  unfold cumulativeDistance, reduce. destruct poly as [| x rest]; [reflexivity |].
  cbn [firstn reduceFrom]. unfold addSegment at 2. cbn [Nat.eqb].
  rewrite (reduceFrom_pathLength (x :: rest) (firstn k rest) [] x (skipn k rest)).
  - ring.
  - cbn. now rewrite firstn_skipn.
Qed.

Lemma last_nonempty_default {A : Type} (l : list A) : forall x d1 d2,
  last (x :: l) d1 = last (x :: l) d2.
Proof.
  induction l as [| y l IH]; intros x d1 d2; [reflexivity |].
  change (last (x :: y :: l) d1) with (last (y :: l) d1).
  change (last (x :: y :: l) d2) with (last (y :: l) d2).
  apply IH.
Qed.

(** The straight line between the ends of a polyline is no longer than the
    polyline. *)
Lemma pathLength_chord : forall poly a b,
  hd_error poly = Some a -> last poly a = b ->
  getDistance a b <= pathLength poly.
Proof.
  induction poly as [| x poly IH]; intros a b Ha Hb; [discriminate |].
  cbn in Ha. injection Ha as ->.
  destruct poly as [| y rest].
  { cbn in Hb. subst b. rewrite getDistance_refl. cbn. lra. }
  change (pathLength (a :: y :: rest))
    with (getDistance a y + pathLength (y :: rest)).
  assert (Hlast : last (y :: rest) y = b).
  { rewrite <- Hb. change (last (a :: y :: rest) a) with (last (y :: rest) a).
    apply last_nonempty_default. }
  pose proof (IH y b eq_refl Hlast).
  pose proof (getDistance_triangle a y b). lra.
Qed.

(** X7: the total distance the simulator computes is the sum of the planar
    segment lengths; it is at least the straight-line distance between the
    first and the last vertex, and it is 0 only when all vertices coincide
    with the first. *)
Theorem totalDist_bounds (poly : list LatLng) (a b : LatLng) :
  hd_error poly = Some a -> last poly a = b ->
  totalDist poly = pathLength poly /\
  getDistance a b <= totalDist poly /\
  (totalDist poly = 0 -> forall x, In x poly -> x = a).
Proof.
  intros Ha Hb. rewrite totalDist_pathLength.
  split; [reflexivity |]. split; [apply pathLength_chord; assumption |].
  clear b Hb. revert a Ha.
  induction poly as [| x poly IH]; intros a Ha Hz v Hv; [contradiction |].
  cbn in Ha. injection Ha as ->.
  destruct poly as [| y rest].
  { destruct Hv as [<- | []]. reflexivity. }
  change (pathLength (a :: y :: rest))
    with (getDistance a y + pathLength (y :: rest)) in Hz.
  pose proof (getDistance_nonneg a y). pose proof (pathLength_nonneg (y :: rest)).
  assert (Hay : a = y) by (apply getDistance_zero; lra).
  destruct Hv as [<- | Hv]; [reflexivity |].
  rewrite Hay. apply (IH y eq_refl); [lra | exact Hv].
Qed.

Lemma totalDist_bounds_witness :
  getDistance {| lat := 0; lng := 0 |} {| lat := 2; lng := 2 |}
  <= totalDist cornerLine.
Proof.
  apply (totalDist_bounds cornerLine {| lat := 0; lng := 0 |}
           {| lat := 2; lng := 2 |}); reflexivity.
Defined.

Lemma degenerate_distance a b : degenerate a b -> getDistance a b = 0.
Proof.
  intros [Hlng Hlat]. unfold getDistance. rewrite Hlng, Hlat.
  replace (0 ^ 2 + 0 ^ 2) with 0 by ring. apply sqrt_0.
Qed.

(** When the travelled distance falls within the path, the segment loop stops
    on the segment that holds it, with the path length before that segment
    as [accumulated]. *)
Lemma segmentLoop_found dist : forall poly i acc,
  acc < dist -> dist <= acc + pathLength poly ->
  exists j a b,
    segmentLoop dist i poly acc
    = (acc + pathLength (firstn (S j) poly), (i + j)%nat) /\
    segmentAt poly j a b /\
    acc + pathLength (firstn (S j) poly) < dist
    <= acc + pathLength (firstn (S j) poly) + getDistance a b.
Proof.
  induction poly as [| a poly IH]; intros i acc Hlo Hhi; [cbn in Hhi; lra |].
  destruct poly as [| b rest]; [cbn in Hhi; lra |].
  rewrite segmentLoop_step.
  change (pathLength (a :: b :: rest))
    with (getDistance a b + pathLength (b :: rest)) in Hhi.
  destruct (Rgeb (acc + getDistance a b) dist) eqn:E.
  - apply Rgeb_true in E. exists 0%nat, a, b.
    change (pathLength (firstn 1 (a :: b :: rest))) with 0.
    split; [f_equal; [ring | lia] |].
    split; [split; reflexivity |]. lra.
  - apply Rgeb_false in E.
    destruct (IH (S i) (acc + getDistance a b)) as (j & x & y & Heq & Hs & Hb);
      [lra | lra |].
    exists (S j), x, y.
    change (firstn (S (S j)) (a :: b :: rest))
      with (a :: firstn (S j) (b :: rest)).
    change (firstn (S j) (b :: rest)) with (b :: firstn j rest) in *.
    change (pathLength (a :: b :: firstn j rest))
      with (getDistance a b + pathLength (b :: firstn j rest)).
    split; [rewrite Heq; f_equal; [ring | lia] |].
    split; [apply segmentAt_tail; exact Hs |]. lra.
Qed.

(** The simulated position unfolded: the segment found, the fraction along
    it, and the path length accounted for. *)
Lemma simulatedFix_unfold poly dist :
  0 < dist -> dist <= totalDist poly ->
  exists j a b prog,
    segmentAt poly j a b /\ 0 < getDistance a b /\ 0 <= prog <= 1 /\
    simulatedFix poly dist = (interpolate a b prog, calculateBearing a b) /\
    pathLength (firstn (S j) poly) + prog * getDistance a b = dist.
Proof.
  intros Hpos Htot. rewrite totalDist_pathLength in Htot.
  destruct (segmentLoop_found dist poly 0 0) as (j & a & b & Heq & Hs & Hlo & Hhi);
    [lra | lra |].
  unfold simulatedFix. rewrite Heq. cbn [Nat.add].
  destruct Hs as [Ha Hb].
  rewrite (nth_error_nth poly j origin Ha), (nth_error_nth poly (S j) origin Hb).
  set (acc := 0 + pathLength (firstn (S j) poly)) in *.
  assert (Hd : 0 < getDistance a b) by lra.
  assert (Emul : (dist - acc) / getDistance a b * getDistance a b = dist - acc)
    by (field; lra).
  exists j, a, b, ((dist - acc) / getDistance a b).
  split; [split; assumption |]. split; [exact Hd |]. split.
  - split; apply Rmult_le_reg_r with (getDistance a b); try exact Hd;
      rewrite Emul; lra.
  - split; [reflexivity |]. rewrite Emul. unfold acc. ring.
Qed.

Lemma interpolate_OnSegment a b prog :
  0 <= prog <= 1 -> OnSegment (interpolate a b prog) a b.
Proof.
  intros H. exists prog. split; [exact H |]. unfold interpolate. cbn.
  split; ring.
Qed.

(** The simulated position with the segment found and the path lengths the
    loop compared. *)
Lemma simulatedFix_bracket poly dist :
  0 < dist -> dist <= totalDist poly ->
  exists j a b,
    segmentAt poly j a b /\
    cumulativeDistance poly j < dist
    <= cumulativeDistance poly j + getDistance a b /\
    simulatedFix poly dist
    = (interpolate a b
         ((dist - cumulativeDistance poly j) / getDistance a b),
       calculateBearing a b).
Proof.
  intros Hpos Htot. rewrite totalDist_pathLength in Htot.
  destruct (segmentLoop_found dist poly 0 0)
    as (j & a & b & Heq & Hs & Hlo & Hhi); [lra | lra |].
  rewrite Rplus_0_l in Heq, Hlo, Hhi.
  rewrite <- cumulativeDistance_pathLength in Heq, Hlo, Hhi.
  exists j, a, b. split; [exact Hs |]. split; [lra |].
  unfold simulatedFix. rewrite Heq. cbn [Nat.add].
  destruct Hs as [Ha Hb].
  now rewrite (nth_error_nth poly j origin Ha),
    (nth_error_nth poly (S j) origin Hb).
Qed.

(** X8: the simulated position.  For a travelled distance [dist] between 0
    (excluded) and the total distance, [simulatedFix] picks the first segment
    whose end lies at [dist] or beyond along the path: the path before it is
    shorter than [dist], as is the path up to the end of every earlier
    segment.  That segment is proper.  The point returned is the one at the
    fraction (travelled distance less the path before the segment, over the
    length of the segment) of it, a fraction in (0, 1], so it lies on that
    segment; the bearing returned is that segment's. *)
Theorem simulated_fix_on_route (poly : list LatLng) (dist : R) :
  0 < dist -> dist <= totalDist poly ->
  exists j a b,
    segmentAt poly j a b /\ ~ degenerate a b /\
    cumulativeDistance poly j < dist
    <= cumulativeDistance poly j + getDistance a b /\
    (forall i, (i < j)%nat -> cumulativeDistance poly (S i) < dist) /\
    let prog := (dist - cumulativeDistance poly j) / getDistance a b in
    0 < prog <= 1 /\
    simulatedFix poly dist = (interpolate a b prog, calculateBearing a b) /\
    OnSegment (fst (simulatedFix poly dist)) a b.
Proof.
  intros Hpos Htot.
  destruct (simulatedFix_bracket poly dist Hpos Htot)
    as (j & a & b & Hs & [Hlo Hhi] & Heq).
  assert (Hd : 0 < getDistance a b) by lra.
  assert (Hnd : ~ degenerate a b).
  { intros H. apply degenerate_distance in H. lra. }
  set (prog := (dist - cumulativeDistance poly j) / getDistance a b) in *.
  assert (Emul : prog * getDistance a b = dist - cumulativeDistance poly j)
    by (unfold prog; field; lra).
  assert (Hprog : 0 < prog <= 1).
  { split.
    - apply Rmult_lt_reg_r with (getDistance a b); [exact Hd |].
      rewrite Emul. lra.
    - apply Rmult_le_reg_r with (getDistance a b); [exact Hd |].
      rewrite Emul. lra. }
  exists j, a, b.
  split; [exact Hs |]. split; [exact Hnd |]. split; [lra |].
  split.
  { intros i Hi.
    pose proof (cumulativeDistance_mono poly (S i) j ltac:(lia)). lra. }
  split; [exact Hprog |]. split; [exact Heq |].
  rewrite Heq. cbn [fst]. apply interpolate_OnSegment. lra.
Qed.

Lemma simulated_fix_on_route_witness :
  exists j a b,
    segmentAt (RouteResponse.polyline sampleRoute) j a b /\
    OnSegment (fst (simulatedFix (RouteResponse.polyline sampleRoute) (1 / 2)))
      a b.
Proof.
  destruct (simulated_fix_on_route (RouteResponse.polyline sampleRoute) (1 / 2))
    as (j & a & b & Hs & _ & _ & _ & _ & _ & Hon).
  - lra.
  - rewrite totalDist_sampleRoute. lra.
  - exists j, a, b. split; [exact Hs | exact Hon].
Defined.

(** The fix an advancing frame hands to the handler. *)
Lemma animate_advance_rider now c s :
  (S (frameCount c) mod 2 =? 0)%nat = true ->
  distanceRef s + SPEED_FACTOR
  < totalDist (RouteResponse.polyline (simRoute c)) ->
  rider (animate now c s)
  = updateRiderLocation (appStatus s) (route s) now
      (fst (simulatedFix (RouteResponse.polyline (simRoute c))
              (distanceRef s + SPEED_FACTOR)))
      (Some (snd (simulatedFix (RouteResponse.polyline (simRoute c))
                    (distanceRef s + SPEED_FACTOR))))
      (if (S (frameCount c) mod 20 =? 0)%nat then 85 else simSpeed c)
      (rider s).
Proof.
  intros E Hgo. unfold animate. rewrite E. cbn [negb].
  apply Rgeb_false in Hgo. rewrite Hgo.
  destruct (simulatedFix _ _) as [currentLoc bearing0].
  reflexivity.
Qed.

Lemma updateRiderLocation_refs status rt now newPos rawHeading newSpeed r :
  pendingPosRef (updateRiderLocation status rt now newPos rawHeading newSpeed r)
  = Some (fst (resolveFix status rt newPos rawHeading r)) /\
  lastPosRef (updateRiderLocation status rt now newPos rawHeading newSpeed r)
  = Some (fst (resolveFix status rt newPos rawHeading r)) /\
  pendingSpeedRef
    (updateRiderLocation status rt now newPos rawHeading newSpeed r)
  = Some newSpeed.
Proof.
  unfold updateRiderLocation.
  destruct (resolveFix _ _ _ _ _) as [finalPos finalHeading].
  destruct (throttleOpen _ _); cbn; auto.
Qed.

(** X9: what a simulation frame publishes.  On a frame that moves a running
    simulation on (an even frame before arrival) while the session is
    navigating the simulated route, the rider's pending and last positions
    become the simulated point snapped to the route, and this is the
    committed position when the throttle is open.  The simulated point and
    its snap both lie on proper segments of the route, and no point of a
    proper segment is nearer to the simulated point than its snap.  The
    pending speed is 85 on every twentieth frame and the speed captured at
    the start otherwise. *)
Theorem frame_publishes_simulated_point (now : Z) (c : Animate) (s : App) :
  (S (frameCount c) mod 2 = 0)%nat ->
  0 <= distanceRef s ->
  distanceRef s + SPEED_FACTOR
  < totalDist (RouteResponse.polyline (simRoute c)) ->
  appStatus s = NAVIGATING -> route s = Some (simRoute c) ->
  let poly := RouteResponse.polyline (simRoute c) in
  let q := fst (simulatedFix poly (distanceRef s + SPEED_FACTOR)) in
  let snapped := point (getNearestPointOnLine q poly) in
  pendingPosRef (rider (animate now c s)) = Some snapped /\
  lastPosRef (rider (animate now c s)) = Some snapped /\
  (throttleOpen now (rider s) = true ->
   currentPos (rider (animate now c s)) = Some snapped) /\
  (exists j a b, segmentAt poly j a b /\ ~ degenerate a b /\
                 OnSegment q a b) /\
  (exists j a b, segmentAt poly j a b /\ ~ degenerate a b /\
                 OnSegment snapped a b) /\
  (forall k a b x, segmentAt poly k a b -> ~ degenerate a b ->
     OnSegment x a b -> getDistance q snapped <= getDistance q x) /\
  pendingSpeedRef (rider (animate now c s))
  = Some (if (S (frameCount c) mod 20 =? 0)%nat then 85 else simSpeed c).
Proof.
  intros Heven Hd Hgo Hst Hrt poly q snapped.
  assert (E : (S (frameCount c) mod 2 =? 0)%nat = true) by now apply Nat.eqb_eq.
  assert (Hsf : 0 < SPEED_FACTOR) by (unfold SPEED_FACTOR; lra).
  destruct (simulatedFix_unfold poly (distanceRef s + SPEED_FACTOR))
    as (j & a & b & prog & Hs & Hdist & Hprog & Heq & _);
    [lra | unfold poly; lra |].
  assert (Hq : q = interpolate a b prog) by (unfold q; now rewrite Heq).
  assert (Hnd : ~ degenerate a b).
  { intros H. apply degenerate_distance in H. lra. }
  assert (Hon : OnSegment q a b)
    by (rewrite Hq; apply interpolate_OnSegment; exact Hprog).
  destruct (getNearestPointOnLine_projection q poly j a b Hs Hnd)
    as (j' & a' & b' & Hs' & Hnd' & Esnap & Hmin & _).
  assert (Hsn : snapped = projectOn q a' b')
    by (unfold snapped; now rewrite Esnap).
  rewrite (animate_advance_rider now c s E Hgo), Hst, Hrt.
  fold poly. fold q.
  destruct (updateRiderLocation_refs NAVIGATING (Some (simRoute c)) now q
              (Some (snd (simulatedFix poly (distanceRef s + SPEED_FACTOR))))
              (if (S (frameCount c) mod 20 =? 0)%nat then 85 else simSpeed c)
              (rider s)) as (Hp & Hl & Hv).
  assert (Eq : fst (resolveFix NAVIGATING (Some (simRoute c)) q
                      (Some (snd (simulatedFix poly
                                    (distanceRef s + SPEED_FACTOR))))
                      (rider s)) = snapped).
  { unfold resolveFix. cbn [AppStatus_eqb fst]. reflexivity. }
  rewrite Eq in Hp, Hl.
  split; [exact Hp |]. split; [exact Hl |]. split.
  { intros Hopen. rewrite updateRiderLocation_open_pos by exact Hopen.
    now rewrite Eq. }
  split; [exists j, a, b; auto |].
  split.
  { exists j', a', b'. split; [exact Hs' |]. split; [exact Hnd' |].
    rewrite Hsn. apply projectOn_on. }
  split; [| exact Hv].
  intros k a0 b0 x Hk Hn0 Hx. rewrite Hsn.
  pose proof (Hmin k a0 b0 Hk Hn0).
  pose proof (projectOn_nearest q a0 b0 x Hn0 Hx). lra.
Qed.

Lemma frame_publishes_simulated_point_witness :
  pendingPosRef (rider (animate 1000 closureAt95 stateAt95))
  = Some (point
            (getNearestPointOnLine
               (fst (simulatedFix (RouteResponse.polyline (simRoute closureAt95))
                       (distanceRef stateAt95 + SPEED_FACTOR)))
               (RouteResponse.polyline (simRoute closureAt95)))).
Proof.
  apply (frame_publishes_simulated_point 1000 closureAt95 stateAt95).
  - reflexivity.
  - cbn [stateAt95 distanceRef]. unfold SPEED_FACTOR. lra.
  - exact advancing_at_95.
  - reflexivity.
  - reflexivity.
Defined.

(** ** The maneuver index as a function of the travelled distance *)

Lemma maneuverDistancesFrom_length ms : forall c,
  List.length (maneuverDistancesFrom c ms) = List.length ms.
Proof.
  induction ms as [| m ms IH]; intros c; [reflexivity |].
  cbn. now rewrite IH.
Qed.

(** X10: with no negative step distance, the maneuver index picked for a
    travelled distance never points past the last maneuver, never decreases
    when the travelled distance grows, and is the last maneuver as soon as
    the travelled distance reaches the last cumulative distance. *)
Theorem maneuver_index_monotone (ms : list Maneuver.t) (t1 t2 : R) :
  (forall m, In m ms -> 0 <= Maneuver.distance m) ->
  t1 <= t2 ->
  let mds := maneuverDistances ms in
  (pickManeuverIndex t1 mds <= pickManeuverIndex t2 mds)%nat /\
  (ms <> [] -> (pickManeuverIndex t1 mds < List.length ms)%nat) /\
  (forall d, nth_error mds (List.length ms - 1) = Some d -> d <= t1 ->
     pickManeuverIndex t1 mds = (List.length ms - 1)%nat).
Proof.
  intros Hpos Ht mds.
  pose proof (proj2 (maneuverDistancesFrom_sorted ms 0 Hpos)) as Hsorted.
  fold (maneuverDistances ms) in Hsorted. fold mds in Hsorted.
  assert (Hlen : List.length mds = List.length ms)
    by apply maneuverDistancesFrom_length.
  unfold pickManeuverIndex.
  destruct (maneuverLoop_spec t1 mds 0 0 Hsorted)
    as [[E1 Hall1] | (j1 & d1 & E1 & Hj1 & Hd1 & Hlater1)];
    rewrite E1; cbn [Nat.add].
  - split; [lia |]. split.
    + intros Hne. destruct ms; [contradiction | cbn; lia].
    + intros d Hd Hle. specialize (Hall1 _ _ Hd). lra.
  - assert (Hb1 : (j1 < List.length ms)%nat).
    { rewrite <- Hlen. apply nth_error_Some. congruence. }
    split; [| split].
    + destruct (maneuverLoop_spec t2 mds 0 0 Hsorted)
        as [[E2 Hall2] | (j2 & d2 & E2 & Hj2 & Hd2 & Hlater2)];
        rewrite E2; cbn [Nat.add].
      * specialize (Hall2 _ _ Hj1). lra.
      * destruct (Nat.le_gt_cases j1 j2) as [Hle | Hgt]; [exact Hle |].
        specialize (Hlater2 _ _ Hgt Hj1). lra.
    + intros _. exact Hb1.
    + intros d Hd Hle.
      destruct (Nat.eq_dec j1 (List.length ms - 1)) as [E | E]; [exact E |].
      assert (Hlt : (j1 < List.length ms - 1)%nat) by lia.
      specialize (Hlater1 _ _ Hlt Hd). lra.
Qed.

Lemma maneuver_index_monotone_witness :
  (pickManeuverIndex 95 (maneuverDistances twoManeuvers)
   <= pickManeuverIndex 100 (maneuverDistances twoManeuvers))%nat.
Proof.
  apply (maneuver_index_monotone twoManeuvers 95 100).
  - intros m [<- | [<- | []]]; cbn; lra.
  - lra.
Defined.

(** ** Editing the stop list *)

Lemma last_app_nonempty {A : Type} (l r : list A) d :
  r <> [] -> last (l ++ r) d = last r d.
Proof.
  intros Hr. induction l as [| x l IH]; [reflexivity |].
  cbn [app]. destruct (l ++ r) eqn:E.
  - destruct l; [cbn in E; contradiction | discriminate].
  - rewrite <- IH. reflexivity.
Qed.

Lemma hd_error_app_nonempty {A : Type} (l r : list A) :
  l <> [] -> hd_error (l ++ r) = hd_error l.
Proof. destruct l; [contradiction | reflexivity]. Qed.

Lemma hd_error_firstn_pos {A : Type} k (l : list A) :
  (1 <= k)%nat -> hd_error (firstn k l) = hd_error l.
Proof. destruct k; [lia |]. destruct l; reflexivity. Qed.

Lemma firstn_nonempty {A : Type} k (l : list A) :
  (1 <= k)%nat -> l <> [] -> firstn k l <> [].
Proof. destruct k; [lia |]. destruct l; [contradiction | discriminate]. Qed.

Lemma skipn_nonempty {A : Type} k (l : list A) :
  (k < List.length l)%nat -> skipn k l <> [].
Proof.
  intros Hk E. apply (f_equal (@List.length A)) in E.
  rewrite length_skipn in E. cbn in E. lia.
Qed.

Lemma last_skipn {A : Type} k : forall (l : list A) d,
  (k < List.length l)%nat -> last (skipn k l) d = last l d.
Proof.
  induction k as [| k IH]; intros l d Hk; [reflexivity |].
  destruct l as [| x l]; [cbn in Hk; lia |].
  cbn [skipn]. cbn in Hk. rewrite IH by lia.
  destruct l; [cbn in Hk; lia | reflexivity].
Qed.

(** Taking out position [k], away from both ends. *)
Lemma remove_middle_facts {A : Type} k (l : list A) d :
  (1 <= k)%nat -> (S k <> List.length l) -> l <> [] ->
  hd_error (firstn k l ++ skipn (S k) l) = hd_error l /\
  last (firstn k l ++ skipn (S k) l) d = last l d /\
  (List.length l - 1 <= List.length (firstn k l ++ skipn (S k) l))%nat.
Proof.
  intros Hk Hend Hne.
  split; [| split].
  - rewrite hd_error_app_nonempty by (apply firstn_nonempty; assumption).
    apply hd_error_firstn_pos. exact Hk.
  - destruct (Nat.lt_ge_cases (S k) (List.length l)) as [Hlt | Hge].
    + rewrite last_app_nonempty by (apply skipn_nonempty; exact Hlt).
      apply last_skipn. exact Hlt.
    + rewrite firstn_all2, skipn_all2, app_nil_r by lia. reflexivity.
  - rewrite length_app, length_firstn, length_skipn. lia.
Qed.

(** Putting [x] in at position [k], away from both ends. *)
Lemma insert_middle_facts {A : Type} k (l : list A) x d :
  (1 <= k < List.length l)%nat ->
  hd_error (firstn k l ++ x :: skipn k l) = hd_error l /\
  last (firstn k l ++ x :: skipn k l) d = last l d /\
  List.length (firstn k l ++ x :: skipn k l) = S (List.length l) /\
  nth_error (firstn k l ++ x :: skipn k l) k = Some x.
Proof.
  intros [Hk Hlen].
  assert (Hne : l <> []) by (destruct l; [cbn in Hlen; lia | discriminate]).
  split; [| split; [| split]].
  - rewrite hd_error_app_nonempty by (apply firstn_nonempty; assumption).
    apply hd_error_firstn_pos. exact Hk.
  - rewrite last_app_nonempty by discriminate.
    pose proof (skipn_nonempty k l Hlen) as Hs.
    destruct (skipn k l) as [| y tl] eqn:E; [contradiction |].
    change (last (x :: y :: tl) d) with (last (y :: tl) d).
    rewrite <- E. apply last_skipn. exact Hlen.
  - rewrite length_app, length_firstn. cbn [List.length].
    rewrite length_skipn. lia.
  - rewrite nth_error_app2; rewrite length_firstn, Nat.min_l by lia; [| lia].
    now rewrite Nat.sub_diag.
Qed.

Lemma relativeStart_inside start len :
  (0 <= start)%Z -> (Z.to_nat start <= len)%nat ->
  relativeStart start len = Z.to_nat start.
Proof.
  intros H0 Hle. unfold relativeStart.
  destruct (start <? 0)%Z eqn:E; [apply Z.ltb_lt in E; lia |].
  apply Nat.min_l. exact Hle.
Qed.

Lemma dropIndexFrom_past {A : Type} index : forall (l : list A) i,
  (index < Z.of_nat i)%Z -> dropIndexFrom index i l = l.
Proof.
  induction l as [| x l IH]; intros i Hi; [reflexivity |].
  cbn [dropIndexFrom].
  destruct (Z.of_nat i =? index)%Z eqn:E; [apply Z.eqb_eq in E; lia |].
  rewrite IH by lia. reflexivity.
Qed.

(** The filter of [removeWaypoint] takes out one position. *)
Lemma dropIndexFrom_spec {A : Type} index : forall (l : list A) i,
  (Z.of_nat i <= index)%Z ->
  dropIndexFrom index i l
  = firstn (Z.to_nat index - i) l ++ skipn (S (Z.to_nat index - i)) l.
Proof.
  induction l as [| x l IH]; intros i Hi.
  { cbn. now rewrite firstn_nil. }
  cbn [dropIndexFrom].
  destruct (Z.of_nat i =? index)%Z eqn:E.
  - apply Z.eqb_eq in E. rewrite dropIndexFrom_past by lia.
    replace (Z.to_nat index - i)%nat with 0%nat by lia. reflexivity.
  - apply Z.eqb_neq in E. rewrite IH by lia.
    replace (Z.to_nat index - i)%nat with (S (Z.to_nat index - S i)) by lia.
    reflexivity.
Qed.

Lemma addWaypoint_facts newId l d :
  (2 <= List.length l)%nat ->
  hd_error (addWaypoint newId l) = hd_error l /\
  last (addWaypoint newId l) d = last l d /\
  List.length (addWaypoint newId l) = S (List.length l) /\
  nth_error (addWaypoint newId l) (List.length l - 1)
  = Some {| address := EmptyString; coord := None; id := newId |}.
Proof.
  intros Hlen. unfold addWaypoint, spliceInsert.
  rewrite relativeStart_inside by lia.
  replace (Z.to_nat (Z.of_nat (List.length l) - 1)) with (List.length l - 1)%nat
    by lia.
  apply insert_middle_facts. lia.
Qed.

Lemma removeWaypoint_facts index l d :
  (0 <= index)%Z -> (2 <= List.length l)%nat ->
  hd_error (removeWaypoint index l) = hd_error l /\
  last (removeWaypoint index l) d = last l d /\
  (2 <= List.length (removeWaypoint index l))%nat /\
  (List.length l - 1 <= List.length (removeWaypoint index l))%nat.
Proof.
  intros Hi Hlen. unfold removeWaypoint.
  destruct (index =? 0)%Z eqn:E0; [cbn; repeat split; lia |].
  destruct (index =? Z.of_nat (List.length l) - 1)%Z eqn:E1;
    [cbn; repeat split; lia |].
  destruct (List.length l <=? 2)%nat eqn:E2; [cbn; repeat split; lia |].
  cbn [orb]. apply Z.eqb_neq in E0, E1. apply Nat.leb_gt in E2.
  rewrite dropIndexFrom_spec by lia. rewrite Nat.sub_0_r.
  destruct (remove_middle_facts (Z.to_nat index) l d) as (H1 & H2 & H3);
    [lia | lia | destruct l; [cbn in Hlen; lia | discriminate] |].
  repeat split; try assumption; lia.
Qed.

(** What [moveWaypoint] does once its guards let the move through. *)
Lemma moveWaypoint_moved fromIndex toIndex l l' :
  (0 <= fromIndex)%Z -> moveWaypoint fromIndex toIndex l = Some l' ->
  l' = l \/
  (0 < fromIndex < Z.of_nat (List.length l) - 1)%Z /\
  (0 < toIndex < Z.of_nat (List.length l) - 1)%Z /\
  exists m rest,
    nth_error l (Z.to_nat fromIndex) = Some m /\
    rest = firstn (Z.to_nat fromIndex) l ++ skipn (S (Z.to_nat fromIndex)) l /\
    l' = firstn (Z.to_nat toIndex) rest ++ m :: skipn (Z.to_nat toIndex) rest.
Proof.
  intros Hfrom. unfold moveWaypoint.
  destruct ((fromIndex =? 0) || (fromIndex =? Z.of_nat (List.length l) - 1))%Z
    eqn:G1; [intros E; injection E as <-; now left |].
  destruct ((toIndex =? 0) || (toIndex =? Z.of_nat (List.length l) - 1))%Z
    eqn:G2; [intros E; injection E as <-; now left |].
  destruct ((toIndex <? 0) || (Z.of_nat (List.length l) <=? toIndex))%Z
    eqn:G3; [intros E; injection E as <-; now left |].
  apply orb_false_iff in G1, G2, G3.
  destruct G1 as [G1a G1b], G2 as [G2a G2b], G3 as [G3a G3b].
  apply Z.eqb_neq in G1a, G1b, G2a, G2b.
  apply Z.ltb_ge in G3a. apply Z.leb_gt in G3b.
  unfold spliceDelete1.
  destruct (nth_error l (relativeStart fromIndex (List.length l))) as [m |] eqn:En;
    [| discriminate].
  intros E. injection E as <-. right.
  assert (Hk : (relativeStart fromIndex (List.length l) < List.length l)%nat)
    by (apply nth_error_Some; congruence).
  assert (Ek : relativeStart fromIndex (List.length l) = Z.to_nat fromIndex).
  { unfold relativeStart in *.
    destruct (fromIndex <? 0)%Z eqn:En0; [apply Z.ltb_lt in En0; lia |]. lia. }
  rewrite Ek in *.
  split; [lia |]. split; [lia |].
  exists m, (firstn (Z.to_nat fromIndex) l ++ skipn (S (Z.to_nat fromIndex)) l).
  split; [exact En |]. split; [reflexivity |].
  unfold spliceInsert. rewrite relativeStart_inside; [reflexivity | lia |].
  change (match l with
          | [] => []
          | _ :: l0 => skipn (Z.to_nat fromIndex) l0
          end) with (skipn (S (Z.to_nat fromIndex)) l).
  rewrite length_app, length_firstn, length_skipn. lia.
Qed.

Lemma moveWaypoint_facts fromIndex toIndex l l' d :
  (0 <= fromIndex)%Z -> moveWaypoint fromIndex toIndex l = Some l' ->
  hd_error l' = hd_error l /\ last l' d = last l d /\
  List.length l' = List.length l /\ Permutation l l'.
Proof.
  intros Hfrom Hmove.
  destruct (moveWaypoint_moved fromIndex toIndex l l' Hfrom Hmove)
    as [-> | (Hf & Ht & m & rest & Hm & Hrest & ->)]; [auto |].
  assert (Hne : l <> []) by (destruct l; [cbn in Hf; lia | discriminate]).
  destruct (remove_middle_facts (Z.to_nat fromIndex) l d) as (R1 & R2 & _);
    [lia | lia | exact Hne |].
  rewrite <- Hrest in R1, R2.
  assert (Hlen : List.length rest = (List.length l - 1)%nat).
  { rewrite Hrest, length_app, length_firstn, length_skipn. lia. }
  destruct (insert_middle_facts (Z.to_nat toIndex) rest m d) as (I1 & I2 & I3 & _);
    [lia |].
  split; [congruence |]. split; [congruence |]. split; [lia |].
  rewrite <- (firstn_skipn_middle _ _ Hm) at 1.
  transitivity (m :: rest).
  - symmetry. rewrite Hrest. apply Permutation_middle.
  - rewrite <- (firstn_skipn (Z.to_nat toIndex) rest) at 1.
    apply Permutation_middle.
Qed.

Lemma Slots_addWaypoint_facts newId l d :
  (2 <= List.length l)%nat ->
  hd_error (Slots.addWaypoint newId l) = hd_error l /\
  last (Slots.addWaypoint newId l) d = last l d /\
  List.length (Slots.addWaypoint newId l) = S (List.length l).
Proof.
  intros Hlen. unfold Slots.addWaypoint, spliceInsert.
  rewrite relativeStart_inside by lia.
  replace (Z.to_nat (Z.of_nat (List.length l) - 1)) with (List.length l - 1)%nat
    by lia.
  destruct (insert_middle_facts (List.length l - 1) l
              (Some {| address := EmptyString; coord := None; id := newId |})
              d) as (H1 & H2 & H3 & _); [lia | auto].
Qed.

Lemma Slots_removeWaypoint_facts index l d :
  (0 <= index)%Z -> (2 <= List.length l)%nat ->
  hd_error (Slots.removeWaypoint index l) = hd_error l /\
  last (Slots.removeWaypoint index l) d = last l d /\
  (2 <= List.length (Slots.removeWaypoint index l))%nat.
Proof.
  intros Hi Hlen. unfold Slots.removeWaypoint.
  destruct (index =? 0)%Z eqn:E0; [cbn; repeat split; lia |].
  destruct (index =? Z.of_nat (List.length l) - 1)%Z eqn:E1;
    [cbn; repeat split; lia |].
  destruct (List.length l <=? 2)%nat eqn:E2; [cbn; repeat split; lia |].
  cbn [orb]. apply Z.eqb_neq in E0, E1. apply Nat.leb_gt in E2.
  rewrite dropIndexFrom_spec by lia. rewrite Nat.sub_0_r.
  destruct (remove_middle_facts (Z.to_nat index) l d) as (H1 & H2 & H3);
    [lia | lia | destruct l; [cbn in Hlen; lia | discriminate] |].
  repeat split; try assumption. lia.
Qed.

Lemma Slots_moveWaypoint_facts fromIndex toIndex l d :
  (0 <= fromIndex)%Z ->
  hd_error (Slots.moveWaypoint fromIndex toIndex l) = hd_error l /\
  last (Slots.moveWaypoint fromIndex toIndex l) d = last l d /\
  (List.length l <= List.length (Slots.moveWaypoint fromIndex toIndex l))%nat.
Proof.
  intros Hfrom. unfold Slots.moveWaypoint. cbv zeta.
  destruct ((fromIndex =? 0) || (fromIndex =? Z.of_nat (List.length l) - 1))%Z
    eqn:G1; [auto |].
  destruct ((toIndex =? 0) || (toIndex =? Z.of_nat (List.length l) - 1))%Z
    eqn:G2; [auto |].
  destruct ((toIndex <? 0) || (Z.of_nat (List.length l) <=? toIndex))%Z
    eqn:G3; [auto |].
  apply orb_false_iff in G1, G2, G3.
  destruct G1 as [F0 F1], G2 as [T0 T1], G3 as [T2 T3].
  apply Z.eqb_neq in F0, F1, T0, T1. apply Z.ltb_ge in T2.
  apply Z.leb_gt in T3.
  unfold spliceDelete1, spliceInsert.
  set (k := relativeStart fromIndex (List.length l)).
  assert (Hk : (1 <= k)%nat /\ S k <> List.length l).
  { unfold k, relativeStart.
    destruct (fromIndex <? 0)%Z eqn:E; [apply Z.ltb_lt in E; lia |]. lia. }
  assert (Hne : l <> []) by (intros ->; cbn in T3; lia).
  destruct (remove_middle_facts k l d) as (R1 & R2 & R3);
    [apply Hk | apply Hk | exact Hne |].
  set (newStops := firstn k l ++ skipn (S k) l) in *.
  assert (Ht : relativeStart toIndex (List.length newStops)
               = Z.to_nat toIndex)
    by (apply relativeStart_inside; lia).
  rewrite Ht.
  destruct (insert_middle_facts (Z.to_nat toIndex) newStops
              match nth_error l k with
              | Some entry => entry
              | None => None
              end d) as (I1 & I2 & I3 & _); [lia |].
  rewrite I1, I2, I3, R1, R2. repeat split; lia.
Qed.

Lemma spliceInsert_map {A B : Type} (f : A -> B) (l : list A) start x :
  spliceInsert (map f l) start (f x) = map f (spliceInsert l start x).
Proof.
  unfold spliceInsert. rewrite length_map, map_app. cbn [map].
  now rewrite firstn_map, skipn_map.
Qed.

Lemma dropIndexFrom_map {A B : Type} (f : A -> B) index : forall (l : list A) i,
  dropIndexFrom index i (map f l) = map f (dropIndexFrom index i l).
Proof.
  induction l as [| x l IH]; intros i; [reflexivity |].
  cbn [map dropIndexFrom]. rewrite IH.
  destruct (Z.of_nat i =? index)%Z; reflexivity.
Qed.

(** On an array that holds stops only, an edit the list model carries out
    gives the same stops. *)
Lemma Slots_applyEdit_map e l l' :
  applyEdit e l = Some l' -> Slots.applyEdit e (map Some l) = map Some l'.
Proof.
  destruct e as [newId | index | fromIndex toIndex]; cbn [applyEdit Slots.applyEdit].
  - intros H. injection H as <-. unfold Slots.addWaypoint, addWaypoint.
    rewrite length_map. apply spliceInsert_map.
  - intros H. injection H as <-. unfold Slots.removeWaypoint, removeWaypoint.
    rewrite length_map.
    destruct ((index =? 0)%Z || (index =? Z.of_nat (List.length l) - 1)%Z
              || (List.length l <=? 2)%nat); [reflexivity |].
    apply dropIndexFrom_map.
  - unfold Slots.moveWaypoint, moveWaypoint. cbv zeta. rewrite length_map.
    destruct ((fromIndex =? 0) || (fromIndex =? Z.of_nat (List.length l) - 1))%Z;
      [intros H; now injection H as <- |].
    destruct ((toIndex =? 0) || (toIndex =? Z.of_nat (List.length l) - 1))%Z;
      [intros H; now injection H as <- |].
    destruct ((toIndex <? 0) || (Z.of_nat (List.length l) <=? toIndex))%Z;
      [intros H; now injection H as <- |].
    unfold spliceDelete1. rewrite length_map, nth_error_map.
    destruct (nth_error l (relativeStart fromIndex (List.length l)))
      as [m |]; [| discriminate].
    intros H. injection H as <-. cbn [option_map].
    rewrite <- spliceInsert_map. f_equal.
    now rewrite map_app, firstn_map, skipn_map.
Qed.

(** X11: the ends of the stop list are fixed.  Starting from an array of at
    least two entries, whatever sequence of additions, removals and moves
    the panel issues (with the non-negative indices of its rendered rows),
    the array keeps at least two entries and its first and last entries
    stay the first and the last, also when a move whose [fromIndex] lies
    beyond the array inserts an undefined entry.  When the sequence is one
    the list model carries out (every move takes an existing stop), the
    array holds the stops of that model and nothing else. *)
Theorem stop_edits_keep_endpoints (es : list StopEdit)
    (l : list (option StopInput)) (d : option StopInput) :
  Forall editFromPanel es -> (2 <= List.length l)%nat ->
  (2 <= List.length (Slots.applyEdits es l))%nat /\
  hd_error (Slots.applyEdits es l) = hd_error l /\
  last (Slots.applyEdits es l) d = last l d /\
  (forall l0 l', l = map Some l0 -> applyEdits es l0 = Some l' ->
     Slots.applyEdits es l = map Some l').
Proof.
  intros Hes. revert l.
  induction Hes as [| e es He Hes IH]; intros l Hlen.
  { cbn. repeat split; auto.
    intros l0 l' -> H. now injection H as <-. }
  assert (H1 : (2 <= List.length (Slots.applyEdit e l))%nat /\
               hd_error (Slots.applyEdit e l) = hd_error l /\
               last (Slots.applyEdit e l) d = last l d).
  { destruct e as [newId | index | fromIndex toIndex];
      cbn [Slots.applyEdit]; cbn in He.
    - destruct (Slots_addWaypoint_facts newId l d Hlen) as (A1 & A2 & A3).
      repeat split; try assumption. lia.
    - destruct (Slots_removeWaypoint_facts index l d He Hlen)
        as (R1 & R2 & R3).
      repeat split; assumption.
    - destruct (Slots_moveWaypoint_facts fromIndex toIndex l d He)
        as (M1 & M2 & M3).
      repeat split; try assumption. lia. }
  destruct H1 as (L1 & Hh1 & Hl1).
  destruct (IH (Slots.applyEdit e l) L1) as (L2 & Hh2 & Hl2 & Hag).
  change (Slots.applyEdits (e :: es) l)
    with (Slots.applyEdits es (Slots.applyEdit e l)).
  split; [exact L2 |]. split; [congruence |]. split; [congruence |].
  intros l0 l' -> Happ. cbn [applyEdits] in Happ.
  destruct (applyEdit e l0) as [l1 |] eqn:E1; [| discriminate].
  apply (Hag l1 l'); [| exact Happ].
  now apply Slots_applyEdit_map.
Qed.

Lemma stop_edits_keep_endpoints_witness :
  hd_error
    (Slots.applyEdits [EditAdd "w1"; EditMove 7 1; EditRemove 1]
       (map Some sampleStops))
  = hd_error (map Some sampleStops) /\
  (2 <= List.length
          (Slots.applyEdits [EditAdd "w1"; EditMove 7 1; EditRemove 1]
             (map Some sampleStops)))%nat.
Proof.
  destruct (stop_edits_keep_endpoints
              [EditAdd "w1"; EditMove 7 1; EditRemove 1]
              (map Some sampleStops) None) as (H1 & H2 & _).
  - repeat constructor; cbn; lia.
  - cbn. lia.
  - split; [exact H2 | exact H1].
Defined.

(** X12: [moveWaypoint] between two inner positions puts the stop that was
    at [fromIndex] at [toIndex], keeps every stop (the result is a
    permutation of the same length), and leaves the first and last stops in
    place.  With [fromIndex] beyond the list and a valid inner [toIndex] no
    guard stops the call, nothing is removed and an undefined entry is
    inserted. *)
Theorem move_waypoint_spec (fromIndex toIndex : Z) (l : list StopInput)
    (d : StopInput) :
  (0 < toIndex < Z.of_nat (List.length l) - 1)%Z ->
  ((0 < fromIndex < Z.of_nat (List.length l) - 1)%Z ->
   exists l' m,
     moveWaypoint fromIndex toIndex l = Some l' /\
     nth_error l (Z.to_nat fromIndex) = Some m /\
     nth_error l' (Z.to_nat toIndex) = Some m /\
     Permutation l l' /\ List.length l' = List.length l /\
     hd_error l' = hd_error l /\ last l' d = last l d) /\
  ((Z.of_nat (List.length l) <= fromIndex)%Z ->
   moveWaypoint fromIndex toIndex l = None).
Proof.
  intros Hto.
  assert (G2 : ((toIndex =? 0) || (toIndex =? Z.of_nat (List.length l) - 1))%Z
               = false).
  { apply orb_false_iff. split; apply Z.eqb_neq; lia. }
  assert (G3 : ((toIndex <? 0) || (Z.of_nat (List.length l) <=? toIndex))%Z
               = false).
  { apply orb_false_iff. split; [apply Z.ltb_ge | apply Z.leb_gt]; lia. }
  split.
  - intros Hfrom.
    assert (G1 : ((fromIndex =? 0)
                  || (fromIndex =? Z.of_nat (List.length l) - 1))%Z = false).
    { apply orb_false_iff. split; apply Z.eqb_neq; lia. }
    destruct (nth_error l (Z.to_nat fromIndex)) as [m |] eqn:Em.
    2:{ apply nth_error_None in Em. lia. }
    set (rest := firstn (Z.to_nat fromIndex) l
                 ++ skipn (S (Z.to_nat fromIndex)) l).
    assert (Hlen : List.length rest = (List.length l - 1)%nat).
    { unfold rest. rewrite length_app, length_firstn, length_skipn. lia. }
    assert (Hmove : moveWaypoint fromIndex toIndex l
                    = Some (firstn (Z.to_nat toIndex) rest
                            ++ m :: skipn (Z.to_nat toIndex) rest)).
    { unfold moveWaypoint, spliceDelete1. rewrite G1, G2, G3.
      rewrite relativeStart_inside by lia. rewrite Em. fold rest.
      unfold spliceInsert. rewrite relativeStart_inside by lia. reflexivity. }
    destruct (moveWaypoint_facts fromIndex toIndex l _ d ltac:(lia) Hmove)
      as (F1 & F2 & F3 & F4).
    eexists. exists m.
    split; [exact Hmove |]. split; [reflexivity |].
    split; [| auto].
    destruct (insert_middle_facts (Z.to_nat toIndex) rest m d) as (_ & _ & _ & I4);
      [lia | exact I4].
  - intros Hfrom.
    assert (G1 : ((fromIndex =? 0)
                  || (fromIndex =? Z.of_nat (List.length l) - 1))%Z = false).
    { apply orb_false_iff. split; apply Z.eqb_neq; lia. }
    unfold moveWaypoint, spliceDelete1. rewrite G1, G2, G3.
    assert (Ek : relativeStart fromIndex (List.length l) = List.length l).
    { unfold relativeStart.
      destruct (fromIndex <? 0)%Z eqn:E; [apply Z.ltb_lt in E; lia | lia]. }
    rewrite Ek.
    assert (En : nth_error l (List.length l) = None)
      by (apply nth_error_None; lia).
    rewrite En. reflexivity.
Qed.

Lemma move_waypoint_spec_witness :
  exists l' m,
    moveWaypoint 1 2 sampleStops = Some l' /\
    nth_error sampleStops (Z.to_nat 1) = Some m /\
    nth_error l' (Z.to_nat 2) = Some m.
Proof.
  destruct (move_waypoint_spec 1 2 sampleStops
              {| address := EmptyString; coord := None; id := EmptyString |})
    as [H _]; [cbn; lia |].
  destruct H as (l' & m & H1 & H2 & H3 & _); [cbn; lia |].
  exists l', m. auto.
Defined.

(** ** Planning a ride *)

Lemma validCoords_nil l :
  validCoords l = [] <-> forall s, In s l -> coord s = None.
Proof.
  induction l as [| s l IH]; cbn.
  - split; [intros _ s [] | reflexivity].
  - destruct (coord s) as [c |] eqn:E; split.
    + discriminate.
    + intros H. specialize (H s (or_introl eq_refl)). congruence.
    + intros H s' [<- | Hin]; [exact E | apply IH; assumption].
    + intros H. apply IH. intros s' Hin. apply H. now right.
Qed.

Lemma validCoords_In l s c :
  In s l -> coord s = Some c -> In c (validCoords l).
Proof.
  induction l as [| s0 l IH]; intros Hin Hc; [contradiction |].
  cbn. destruct Hin as [-> | Hin].
  - rewrite Hc. now left.
  - destruct (coord s0); [right |]; apply IH; assumption.
Qed.

Lemma existsb_validCoords l :
  existsb hasCoord l = true -> validCoords l <> [].
Proof.
  intros H E. apply existsb_exists in H. destruct H as (s & Hin & Hs).
  pose proof (proj1 (validCoords_nil l) E s Hin) as Hn.
  unfold hasCoord in Hs. rewrite Hn in Hs. discriminate.
Qed.

(** The points sent to the router, by cases on the first stop. *)
Lemma planRoutePoints_cases l cur :
  (planRoutePoints l cur = None /\ validCoords l = []) \/
  (exists s0 rest, l = s0 :: rest /\ validCoords l <> [] /\
     ((hasCoord s0 = true /\ planRoutePoints l cur = Some (validCoords l)) \/
      (hasCoord s0 = false /\
       planRoutePoints l cur
       = Some (match cur with Some c => c | None => defaultStart end
               :: validCoords l)))).
Proof.
  unfold planRoutePoints.
  destruct (validCoords l) as [| c pts] eqn:E; [left; auto |].
  right. destruct l as [| s0 rest]; [discriminate |].
  exists s0, rest. split; [reflexivity |]. split; [discriminate |].
  destruct (hasCoord s0); [left | right]; auto.
Qed.

(** X13: the points [handlePlanRide] sends to the router.  There are none
    exactly when no stop is located.  Otherwise they hold the coordinates of
    every located stop; when the first stop is not located they start with
    the current position, or with the default start when there is none; and
    whenever [hasDestination] holds there are at least two of them, so the
    router's own guard on the number of points does not fire. *)
Theorem plan_route_points (l : list StopInput) (cur : option LatLng) :
  (planRoutePoints l cur = None <-> forall s, In s l -> coord s = None) /\
  (forall pts, planRoutePoints l cur = Some pts ->
     (1 <= List.length pts)%nat /\
     forall s c, In s l -> coord s = Some c -> In c pts) /\
  (forall s0 rest pts, l = s0 :: rest -> coord s0 = None ->
     planRoutePoints l cur = Some pts ->
     hd_error pts
     = Some (match cur with Some c => c | None => defaultStart end)) /\
  (hasDestination l = Some true ->
   exists pts, planRoutePoints l cur = Some pts /\
               (2 <= List.length pts)%nat).
Proof.
  split; [| split; [| split]].
  - rewrite <- validCoords_nil.
    destruct (planRoutePoints_cases l cur)
      as [[E Hv] | (s0 & rest & _ & Hv & [[_ E] | [_ E]])]; rewrite E;
      split; auto; try discriminate; contradiction.
  - intros pts Hp.
    destruct (planRoutePoints_cases l cur)
      as [[E Hv] | (s0 & rest & _ & Hv & [[_ E] | [_ E]])];
      rewrite E in Hp; try discriminate; injection Hp as <-.
    + split.
      * destruct (validCoords l); [contradiction | cbn; lia].
      * intros s c. apply validCoords_In.
    + split; [cbn; lia |].
      intros s c Hin Hc. right. eapply validCoords_In; eauto.
  - intros s0 rest pts -> Hc Hp.
    destruct (planRoutePoints_cases (s0 :: rest) cur)
      as [[E Hv] | (s1 & rest1 & El & Hv & [[Hs E] | [_ E]])];
      rewrite E in Hp; try discriminate; injection Hp as <-.
    + injection El as <- <-. unfold hasCoord in Hs. rewrite Hc in Hs.
      discriminate.
    + reflexivity.
  - unfold hasDestination.
    destruct l as [| s0 [| s1 rest]]; try discriminate.
    cbn [nth_error skipn]. intros E. injection E as E.
    assert (Hrest : validCoords (s1 :: rest) <> []).
    { apply existsb_validCoords. cbn [existsb]. exact E. }
    assert (Hlen : (1 <= List.length (validCoords (s1 :: rest)))%nat).
    { destruct (validCoords (s1 :: rest)); [contradiction | cbn; lia]. }
    unfold planRoutePoints, hasCoord.
    change (validCoords (s0 :: s1 :: rest))
      with (match coord s0 with
            | Some c => c :: validCoords (s1 :: rest)
            | None => validCoords (s1 :: rest)
            end).
    destruct (coord s0) as [c0 |].
    + eexists. split; [reflexivity |]. cbn [List.length]. lia.
    + destruct (validCoords (s1 :: rest)) as [| c pts] eqn:Ev; [contradiction |].
      eexists. split; [reflexivity |]. cbn [List.length]. lia.
Qed.

Lemma plan_route_points_witness :
  exists pts, planRoutePoints sampleStops None = Some pts /\
              (2 <= List.length pts)%nat.
Proof.
  apply (plan_route_points sampleStops None). reflexivity.
Defined.

Lemma orDefaultMessage_nonempty message :
  String.length (orDefaultMessage message) <> 0%nat.
Proof.
  unfold orDefaultMessage.
  destruct (String.length message =? 0)%nat eqn:E.
  - cbn. discriminate.
  - apply Nat.eqb_neq. exact E.
Qed.

(** X14: how planning ends.  [handlePlanRide] never touches the stop list,
    the rider or the simulator, and once the request has settled one of three
    things has happened.  No stop was located: the session is as it was and
    the banner asks for a destination.  A route came back: the status is
    [CONFIRM], the route is the new one and the banner is cleared.  The
    request was refused (fewer than two points, or the router failed): the
    status is [IDLE], the banner carries a non-empty message and the previous
    route, if any, is still in place. *)
Theorem plan_outcome (router : list LatLng -> RouteResult) (mapReady : bool)
    (p : Planner) :
  let p' := handlePlanRide router mapReady p in
  stops p' = stops p /\
  rider (session p') = rider (session p) /\
  simIntervalRef (session p') = simIntervalRef (session p) /\
  ((planRoutePoints (stops p) (currentPos (rider (session p))) = None /\
    session p' = session p /\
    errorMessage p' = Some "Please select a destination."%string) \/
   (exists pts res,
      planRoutePoints (stops p) (currentPos (rider (session p))) = Some pts /\
      (2 <= List.length pts)%nat /\ router pts = RouteOk res /\
      appStatus (session p') = CONFIRM /\
      route (session p') = Some res /\
      errorMessage p' = None) \/
   (exists pts message,
      planRoutePoints (stops p) (currentPos (rider (session p))) = Some pts /\
      ((List.length pts < 2)%nat \/ exists m, router pts = RouteError m) /\
      appStatus (session p') = IDLE /\
      route (session p') = route (session p) /\
      errorMessage p' = Some message /\
      String.length message <> 0%nat)).
Proof.
  intros p'. subst p'. unfold handlePlanRide.
  destruct (planRoutePoints (stops p) (currentPos (rider (session p))))
    as [pts |] eqn:Ep.
  2:{ cbn. repeat split. left. auto. }
  unfold calculateRoute.
  destruct (List.length pts <? 2)%nat eqn:Elen.
  - apply Nat.ltb_lt in Elen. cbn. repeat split.
    right; right. exists pts. eexists.
    split; [reflexivity |]. split; [left; exact Elen |].
    repeat split. discriminate.
  - apply Nat.ltb_ge in Elen.
    destruct (router pts) as [res | message] eqn:Er; cbn; repeat split.
    + right; left. exists pts, res. repeat split; auto.
    + right; right. exists pts. eexists.
      split; [reflexivity |]. split; [right; eauto |].
      repeat split. apply orDefaultMessage_nonempty.
Qed.

Lemma validCoords_map l1 l2 :
  map coord l1 = map coord l2 -> validCoords l1 = validCoords l2.
Proof.
  revert l2. induction l1 as [| s1 l1 IH]; intros [| s2 l2] E;
    try discriminate; [reflexivity |].
  cbn in E. injection E as Ec El. cbn. rewrite Ec, (IH l2 El). reflexivity.
Qed.

Lemma planRoutePoints_map l1 l2 cur :
  map coord l1 = map coord l2 ->
  planRoutePoints l1 cur = planRoutePoints l2 cur.
Proof.
  intros E. unfold planRoutePoints. rewrite (validCoords_map l1 l2 E).
  destruct l1 as [| s1 l1], l2 as [| s2 l2]; try discriminate; [reflexivity |].
  cbn in E. injection E as Ec _. unfold hasCoord. rewrite Ec. reflexivity.
Qed.

(** X15: typing in a stop's input.  The list keeps its length and every other
    stop.  With non-empty text the stop keeps the coordinates it had, so the
    points a later plan sends to the router are the same as before the
    typing; only emptying the input clears the coordinates.  With no stop at
    the index the call fails. *)
Theorem typing_keeps_coordinates (index : nat) (val : string)
    (l : list StopInput) :
  (nth_error l index = None -> onInputChange index val l = None) /\
  (forall st, nth_error l index = Some st ->
     exists l' st',
       onInputChange index val l = Some l' /\
       List.length l' = List.length l /\
       nth_error l' index = Some st' /\
       address st' = val /\ id st' = id st /\
       (forall i, i <> index -> nth_error l' i = nth_error l i) /\
       (String.length val <> 0%nat ->
          coord st' = coord st /\
          forall cur, planRoutePoints l' cur = planRoutePoints l cur) /\
       (String.length val = 0%nat -> coord st' = None)).
Proof.
  unfold onInputChange. split; [intros ->; reflexivity |].
  intros st Hst. rewrite Hst.
  assert (Hidx : (index < List.length l)%nat)
    by (apply nth_error_Some; congruence).
  eexists. eexists. split; [reflexivity |].
  assert (Hfirst : List.length (firstn index l) = index)
    by (rewrite length_firstn; lia).
  split.
  { rewrite length_app, Hfirst. cbn [List.length]. rewrite length_skipn. lia. }
  split.
  { rewrite nth_error_app2 by lia. rewrite Hfirst, Nat.sub_diag. reflexivity. }
  split; [reflexivity |]. split; [reflexivity |]. split.
  { intros i Hi.
    replace (nth_error l i)
      with (nth_error (firstn index l ++ st :: skipn (S index) l) i)
      by (now rewrite (firstn_skipn_middle _ _ Hst)).
    destruct (Nat.lt_ge_cases i index) as [Hlt | Hge].
    - rewrite !nth_error_app1 by lia. reflexivity.
    - rewrite !nth_error_app2 by lia. rewrite Hfirst.
      destruct (i - index)%nat as [| n] eqn:En; [lia | reflexivity]. }
  split.
  - intros Hval. apply Nat.eqb_neq in Hval. rewrite Hval. cbn [coord].
    split; [reflexivity |]. intros cur. apply planRoutePoints_map.
    replace (map coord l)
      with (map coord (firstn index l ++ st :: skipn (S index) l))
      by (now rewrite (firstn_skipn_middle _ _ Hst)).
    rewrite !map_app. reflexivity.
  - intros Hval. apply Nat.eqb_eq in Hval. rewrite Hval. reflexivity.
Qed.

Lemma typing_keeps_coordinates_witness :
  exists l' st',
    onInputChange 1 "Utr" sampleStops = Some l' /\
    List.length l' = List.length sampleStops /\
    nth_error l' 1 = Some st' /\
    address st' = "Utr"%string.
Proof.
  destruct (typing_keeps_coordinates 1 "Utr" sampleStops) as [_ H].
  destruct (H {| address := "Utrecht"; coord := Some {| lat := 52; lng := 5 |};
                 id := "w1" |} eq_refl)
    as (l' & st' & H1 & H2 & H3 & H4 & _).
  exists l', st'. auto.
Defined.

(** ** Request building in the routing client *)

(** X16: the hint point of curvy routing.  [generateCurvyTarget] gives no
    point outside curvy mode.  In curvy mode it gives a point that is
    equally far from both stops, displaced from their midpoint at a right
    angle to the line between them, by 0.15 times the distance between
    them. *)
Theorem curvy_target_geometry (start end_ : LatLng) (mode : RoutingMode) :
  (mode <> CURVY -> generateCurvyTarget start end_ mode = None) /\
  (mode = CURVY ->
   exists t,
     generateCurvyTarget start end_ mode = Some t /\
     getDistance start t = getDistance t end_ /\
     (lat t - (lat start + lat end_) / 2) * (lat end_ - lat start)
     + (lng t - (lng start + lng end_) / 2) * (lng end_ - lng start) = 0 /\
     getDistance
       {| lat := (lat start + lat end_) / 2;
          lng := (lng start + lng end_) / 2 |} t
     = 15 / 100 * getDistance start end_).
Proof.
  split.
  - intros H. unfold generateCurvyTarget. destruct mode; try reflexivity.
    contradiction.
  - intros ->. unfold generateCurvyTarget. cbn [RoutingMode_eqb negb].
    eexists. split; [reflexivity |].
    split; [| split].
    + unfold getDistance. cbn [lat lng]. f_equal. field.
    + cbn [lat lng]. field.
    + unfold getDistance. cbn [lat lng].
      replace (((lat start + lat end_) / 2 + - (lng end_ - lng start) * (15 / 100)
                - (lat start + lat end_) / 2) ^ 2
               + ((lng start + lng end_) / 2 + (lat end_ - lat start) * (15 / 100)
                  - (lng start + lng end_) / 2) ^ 2)
        with ((15 / 100) ^ 2
              * ((lat end_ - lat start) ^ 2 + (lng end_ - lng start) ^ 2))
        by field.
      rewrite sqrt_mult_alt by apply pow2_ge_0.
      rewrite sqrt_pow2 by lra. reflexivity.
Qed.

Lemma curvy_target_geometry_witness :
  exists t,
    generateCurvyTarget {| lat := 0; lng := 0 |} {| lat := 0; lng := 2 |} CURVY
    = Some t /\
    getDistance {| lat := 0; lng := 0 |} t
    = getDistance t {| lat := 0; lng := 2 |}.
Proof.
  destruct (curvy_target_geometry {| lat := 0; lng := 0 |}
              {| lat := 0; lng := 2 |} CURVY) as [_ H].
  destruct (H eq_refl) as (t & H1 & H2 & _).
  exists t. auto.
Defined.

Lemma sequenceLoop_step mode a b rest sequence radiusValues :
  sequenceLoop mode (a :: b :: rest) sequence radiusValues
  = match generateCurvyTarget a b mode with
    | Some target =>
        sequenceLoop mode (b :: rest) ((sequence ++ [a]) ++ [target])
          ((radiusValues ++ [100]) ++ [2000])
    | None =>
        sequenceLoop mode (b :: rest) (sequence ++ [a]) (radiusValues ++ [100])
    end.
Proof. reflexivity. Qed.

Lemma sequenceLoop_lengths mode : forall sts sequence radiusValues,
  List.length sequence = List.length radiusValues ->
  List.length (fst (sequenceLoop mode sts sequence radiusValues))
  = List.length (snd (sequenceLoop mode sts sequence radiusValues)).
Proof.
  induction sts as [| a sts IH]; intros sq rv E; [exact E |].
  destruct sts as [| b rest]; [exact E |].
  rewrite sequenceLoop_step.
  destruct (generateCurvyTarget a b mode); apply IH;
    rewrite !length_app; cbn; lia.
Qed.

(** Outside curvy mode the loop copies the stops but the last. *)
Lemma sequenceLoop_plain mode : mode <> CURVY ->
  forall sts sequence radiusValues,
  sequenceLoop mode sts sequence radiusValues
  = (sequence ++ removelast sts,
     radiusValues ++ map (fun _ => 100) (removelast sts)).
Proof.
  intros Hm. induction sts as [| a sts IH]; intros sq rv.
  { cbn. now rewrite !app_nil_r. }
  destruct sts as [| b rest].
  { cbn. now rewrite !app_nil_r. }
  rewrite sequenceLoop_step.
  assert (E : generateCurvyTarget a b mode = None).
  { unfold generateCurvyTarget. destruct mode; try reflexivity. contradiction. }
  rewrite E, IH.
  change (removelast (a :: b :: rest)) with (a :: removelast (b :: rest)).
  cbn [map]. now rewrite <- !app_assoc.
Qed.

(** In curvy mode the loop adds a hint after every stop but the last. *)
Lemma sequenceLoop_curvy : forall sts sequence radiusValues,
  List.length (fst (sequenceLoop CURVY sts sequence radiusValues))
  = (List.length sequence + 2 * (List.length sts - 1))%nat.
Proof.
  induction sts as [| a sts IH]; intros sq rv; [cbn; lia |].
  destruct sts as [| b rest]; [cbn; lia |].
  rewrite sequenceLoop_step. cbn [generateCurvyTarget RoutingMode_eqb negb].
  rewrite IH, !length_app. cbn [List.length]. lia.
Qed.

(** X17: the request [fetchRoute] builds.  For a non-empty stop list the
    list of coordinates and the list of radiuses have the same length, the
    coordinates end with the last stop; outside curvy mode the coordinates
    are the stops themselves, each with radius 100; in curvy mode [n] stops
    give [2 * n - 1] coordinates.  An empty stop list makes the call fail. *)
Theorem fetch_route_request (sts : list LatLng) (mode : RoutingMode) :
  (sts = [] -> fetchRouteRequest sts mode = None) /\
  (sts <> [] ->
   exists sequence radiusValues,
     fetchRouteRequest sts mode = Some (sequence, radiusValues) /\
     List.length sequence = List.length radiusValues /\
     (forall d, last sequence d = last sts d) /\
     (mode <> CURVY ->
        sequence = sts /\ radiusValues = map (fun _ => 100) sts) /\
     (mode = CURVY ->
        List.length sequence = (2 * List.length sts - 1)%nat)).
Proof.
  split; [intros ->; reflexivity |].
  intros Hne. destruct sts as [| s0 rest]; [contradiction |].
  unfold fetchRouteRequest.
  pose proof (sequenceLoop_lengths mode (s0 :: rest) [] [] eq_refl) as Hlen.
  destruct (sequenceLoop mode (s0 :: rest) [] []) as [sq rv] eqn:E.
  cbn [fst snd] in Hlen.
  eexists. eexists. split; [reflexivity |].
  split; [rewrite !length_app; cbn; lia |].
  split.
  { intros d. rewrite last_last. apply last_nonempty_default. }
  split.
  - intros Hm. rewrite (sequenceLoop_plain mode Hm) in E.
    injection E as <- <-. cbn [app].
    assert (Hrl : removelast (s0 :: rest) ++ [last (s0 :: rest) s0] = s0 :: rest)
      by (symmetry; apply app_removelast_last; discriminate).
    split; [exact Hrl |].
    transitivity (map (fun _ : LatLng => 100)
                    (removelast (s0 :: rest) ++ [last (s0 :: rest) s0])).
    + rewrite map_app. reflexivity.
    + now rewrite Hrl.
  - intros ->.
    pose proof (sequenceLoop_curvy (s0 :: rest) [] []) as Hc.
    rewrite E in Hc. cbn [fst] in Hc.
    rewrite length_app, Hc. cbn [List.length]. lia.
Qed.

Lemma fetch_route_request_witness :
  exists sequence radiusValues,
    fetchRouteRequest cornerLine CURVY = Some (sequence, radiusValues) /\
    List.length sequence = List.length radiusValues.
Proof.
  destruct (fetch_route_request cornerLine CURVY) as [_ H].
  destruct H as (sq & rv & H1 & H2 & _); [discriminate |].
  exists sq, rv. auto.
Defined.

(** ** Maneuvers built from the steps of an answer *)

Lemma pushSteps_leg (leg : list Step.t) (acc : list Maneuver.t) :
  fold_left (fun maneuvers step => maneuvers ++ [stepManeuver step]) leg acc
  = acc ++ map stepManeuver leg.
Proof.
  revert acc. induction leg as [| s leg IH]; intros acc; cbn.
  - now rewrite app_nil_r.
  - rewrite IH, <- app_assoc. reflexivity.
Qed.

Lemma pushSteps_from (legs : list (list Step.t)) (acc : list Maneuver.t) :
  fold_left
    (fun maneuvers leg =>
       fold_left (fun maneuvers step => maneuvers ++ [stepManeuver step])
         leg maneuvers)
    legs acc
  = acc ++ map stepManeuver (List.concat legs).
Proof.
  revert acc. induction legs as [| leg legs IH]; intros acc; cbn.
  - now rewrite app_nil_r.
  - rewrite IH, pushSteps_leg, map_app, app_assoc. reflexivity.
Qed.

Lemma pushSteps_map (legs : list (list Step.t)) :
  pushSteps legs = map stepManeuver (List.concat legs).
Proof. unfold pushSteps. now rewrite pushSteps_from. Qed.

Lemma nonEmpty_true (s : string) : nonEmpty s = true -> s <> EmptyString.
Proof.
  unfold nonEmpty. intros H ->. cbn in H. discriminate.
Qed.

Lemma truthy_orEmpty (o : option string) :
  truthy o = true -> orEmpty o <> EmptyString.
Proof.
  destruct o as [s |]; cbn; [apply nonEmpty_true | discriminate].
Qed.

Lemma buildInstruction_nonempty (step : Step.t) :
  buildInstruction step <> EmptyString.
Proof.
  unfold buildInstruction.
  destruct (truthy (Step.instruction step)) eqn:Ht;
    [now apply truthy_orEmpty |].
  cbv zeta.
  destruct (nonEmpty (buildRoadName step)).
  all: repeat match goal with
              | |- context [if ?b then _ else _] => destruct b
              | |- context [match Step.exit ?s with _ => _ end] =>
                  destruct (Step.exit s) as [[| ?] |]
              end.
  all: cbn [append]; discriminate.
Qed.

Lemma nth_error_last_cell {A : Type} (l : list A) (d : A) :
  l <> [] -> nth_error l (List.length l - 1) = Some (last l d).
Proof.
  intros Hne.
  destruct (exists_last Hne) as (pre & x & ->).
  rewrite last_last, length_app. cbn [List.length].
  replace (List.length pre + 1 - 1)%nat with (List.length pre) by lia.
  now rewrite nth_error_app2, Nat.sub_diag by lia.
Qed.

Lemma last_map_default {A B : Type} (f : A -> B) (l : list A) (d : A) :
  last (map f l) (f d) = f (last l d).
Proof.
  induction l as [| x l IH]; [reflexivity |].
  destruct l as [| y l]; [reflexivity |].
  change (last (map f (x :: y :: l)) (f d))
    with (last (map f (y :: l)) (f d)).
  rewrite IH. reflexivity.
Qed.

Lemma iconType_arrive (step : Step.t) :
  Step.maneuverType step = "arrive"%string -> iconType step = arrive.
Proof. unfold iconType. intros ->. reflexivity. Qed.

Lemma buildManeuvers_cases (legs : list (list Step.t)) :
  let base := map stepManeuver (List.concat legs) in
  (base = [] /\ buildManeuvers legs = []) \/
  (base <> [] /\
   (forall d, Maneuver.type (last base d) = arrive) /\
   buildManeuvers legs = base) \/
  (base <> [] /\
   (forall d, Maneuver.type (last base d) <> arrive) /\
   buildManeuvers legs = base ++ [destinationReached]).
Proof.
  intros base. unfold buildManeuvers. rewrite pushSteps_map. fold base.
  destruct base as [| m0 rest] eqn:E; [left; split; reflexivity |].
  right.
  assert (Hne : m0 :: rest <> []) by discriminate.
  rewrite (nth_error_last_cell (m0 :: rest) m0 Hne).
  cbn [List.length Nat.ltb Nat.leb andb].
  destruct (isArrive (Maneuver.type (last (m0 :: rest) m0))) eqn:Ha;
    cbn [negb].
  - left. split; [exact Hne |]. split; [| reflexivity].
    intros d. rewrite (last_nonempty_default rest m0 d m0).
    destruct (Maneuver.type (last (m0 :: rest) m0)); try discriminate.
    reflexivity.
  - right. split; [exact Hne |]. split; [| reflexivity].
    intros d. rewrite (last_nonempty_default rest m0 d m0).
    intros Heq. rewrite Heq in Ha. discriminate.
Qed.

(** X18: the maneuver list [calculateRoute] builds from the steps of the
    answer.  It holds one maneuver per step, in order, followed by at most
    one closing maneuver; it is empty exactly when the answer has no step;
    when it is not empty its last maneuver is an arrival; nothing is
    appended when the last step is itself an arrival; every instruction is
    a non-empty text; and when no step has a negative distance, no maneuver
    has one. *)
Theorem maneuvers_from_steps (legs : list (list Step.t)) :
  let steps := List.concat legs in
  let ms := buildManeuvers legs in
  (exists closing,
     (closing = [] \/ closing = [destinationReached]) /\
     ms = map stepManeuver steps ++ closing) /\
  (ms = [] <-> steps = []) /\
  (forall d, steps <> [] -> Maneuver.type (last ms d) = arrive) /\
  (forall d, steps <> [] ->
     Step.maneuverType (last steps d) = "arrive"%string ->
     ms = map stepManeuver steps) /\
  (forall m, In m ms -> Maneuver.instruction m <> EmptyString) /\
  ((forall s, In s steps -> 0 <= Step.distance s) ->
   forall m, In m ms -> 0 <= Maneuver.distance m).
Proof.
  intros steps ms.
  pose proof (buildManeuvers_cases legs) as Hc. cbv zeta in Hc.
  fold steps in Hc. fold ms in Hc.
  assert (Hshape : exists closing,
             (closing = [] \/ closing = [destinationReached]) /\
             ms = map stepManeuver steps ++ closing).
  { destruct Hc as [[Hb ->] | [(_ & _ & ->) | (_ & _ & ->)]].
    - exists []. rewrite Hb. auto.
    - exists []. rewrite app_nil_r. auto.
    - exists [destinationReached]. auto. }
  split; [exact Hshape |].
  split.
  { split.
    - intros Hms.
      destruct Hc as [[Hb _] | [(Hb & _ & He) | (_ & _ & He)]].
      + now apply map_eq_nil in Hb.
      + rewrite Hms in He. now rewrite <- He in Hb.
      + rewrite Hms in He. symmetry in He.
        apply app_eq_nil in He. destruct He as [_ He]. discriminate.
    - intros Hs.
      destruct Hc as [[_ He] | [(Hb & _ & _) | (Hb & _ & _)]];
        [exact He | |]; rewrite Hs in Hb; now contradiction Hb. }
  split.
  { intros d Hs.
    destruct Hc as [[Hb _] | [(_ & Ha & ->) | (_ & _ & ->)]].
    - apply map_eq_nil in Hb. contradiction.
    - apply Ha.
    - rewrite last_last. reflexivity. }
  split.
  { intros d Hs Harr.
    destruct Hc as [[Hb _] | [(_ & _ & He) | (Hb & Hn & _)]].
    - apply map_eq_nil in Hb. contradiction.
    - exact He.
    - exfalso. apply (Hn (stepManeuver d)).
      rewrite last_map_default. cbn [stepManeuver Maneuver.type].
      now apply iconType_arrive. }
  destruct Hshape as (closing & Hcl & Hms).
  split.
  - intros m Hin. rewrite Hms in Hin. apply in_app_or in Hin.
    destruct Hin as [Hin | Hin].
    + apply in_map_iff in Hin. destruct Hin as (s & <- & _).
      cbn [stepManeuver Maneuver.instruction].
      apply buildInstruction_nonempty.
    + destruct Hcl as [-> | ->]; [contradiction |].
      destruct Hin as [<- | []]. cbn. discriminate.
  - intros Hpos m Hin. rewrite Hms in Hin. apply in_app_or in Hin.
    destruct Hin as [Hin | Hin].
    + apply in_map_iff in Hin. destruct Hin as (s & <- & Hs).
      cbn [stepManeuver Maneuver.distance]. now apply Hpos.
    + destruct Hcl as [-> | ->]; [contradiction |].
      destruct Hin as [<- | []]. cbn. lra.
Qed.

Lemma maneuvers_from_steps_witness :
  Maneuver.type (last (buildManeuvers sampleLegs) destinationReached) = arrive
  /\ (forall m, In m (buildManeuvers sampleLegs) -> 0 <= Maneuver.distance m).
Proof.
  destruct (maneuvers_from_steps sampleLegs) as (_ & _ & H3 & _ & _ & H6).
  split.
  - apply H3. discriminate.
  - apply H6. intros s Hin. cbn in Hin.
    destruct Hin as [<- | [<- | [<- | []]]]; cbn; lra.
Defined.

(** ** The polyline decoder *)

Lemma chunkLoop_length (s : string) : forall shift result,
  (String.length (snd (chunkLoop s shift result)) <= String.length s)%nat /\
  (s <> EmptyString ->
   (String.length (snd (chunkLoop s shift result)) < String.length s)%nat).
Proof.
  induction s as [| c s IH]; intros shift result; cbn [chunkLoop].
  - cbn. split; [lia | congruence].
  - cbv zeta. destruct (32 <=? charCode c - 63)%Z.
    + match goal with
      | |- context [chunkLoop s ?a ?b] => destruct (IH a b) as [H1 _]
      end.
      cbn [String.length]. split; [lia | intros _; lia].
    + cbn. split; [lia | intros _; lia].
Qed.

Lemma decodeLoop_points (fuel : nat) : forall s lat0 lng0 acc,
  (String.length s <= fuel)%nat ->
  exists pts,
    decodeLoop fuel s lat0 lng0 acc = Some (acc ++ pts) /\
    (pts = [] <-> s = EmptyString) /\
    (2 * List.length pts <= String.length s + 1)%nat.
Proof.
  induction fuel as [| fuel IH]; intros s lat0 lng0 acc Hlen.
  - destruct s; [| cbn in Hlen; lia].
    exists []. cbn. rewrite app_nil_r. repeat split; auto.
  - destruct s as [| c s].
    { exists []. cbn. rewrite app_nil_r. repeat split; auto. }
    cbn [decodeLoop].
    pose proof (chunkLoop_length (String c s) 0 0) as [_ H1].
    destruct (chunkLoop (String c s) 0 0) as [r1 rest1] eqn:E1.
    pose proof (chunkLoop_length rest1 0 0) as [H2 H2'].
    destruct (chunkLoop rest1 0 0) as [r2 rest2] eqn:E2.
    cbn [snd] in H1, H2, H2'.
    specialize (H1 ltac:(discriminate)).
    cbn [String.length] in Hlen, H1.
    match goal with
    | |- context [decodeLoop fuel rest2 ?a ?b ?c] =>
        destruct (IH rest2 a b c ltac:(lia)) as (pts & Hd & Hnil & Hcount)
    end.
    eexists (_ :: pts). split.
    { rewrite Hd, <- app_assoc. reflexivity. }
    split; [split; discriminate |].
    cbn [List.length String.length].
    destruct rest1 as [| c1 rest1].
    + cbn in E2. injection E2 as <- <-.
      assert (pts = []) as -> by now apply Hnil.
      cbn. lia.
    + specialize (H2' ltac:(discriminate)). cbn [String.length] in *. lia.
Qed.

Lemma decodeLoop_fuel (fuel1 : nat) : forall fuel2 s lat0 lng0 acc,
  (String.length s <= fuel1)%nat -> (String.length s <= fuel2)%nat ->
  decodeLoop fuel1 s lat0 lng0 acc = decodeLoop fuel2 s lat0 lng0 acc.
Proof.
  induction fuel1 as [| fuel1 IH]; intros fuel2 s lat0 lng0 acc H1 H2.
  - destruct s; [| cbn in H1; lia]. destruct fuel2; reflexivity.
  - destruct s as [| c s]; [destruct fuel2; reflexivity |].
    destruct fuel2 as [| fuel2]; [cbn in H2; lia |].
    cbn [decodeLoop].
    pose proof (chunkLoop_length (String c s) 0 0) as [_ L1].
    destruct (chunkLoop (String c s) 0 0) as [r1 rest1].
    pose proof (chunkLoop_length rest1 0 0) as [L2 _].
    destruct (chunkLoop rest1 0 0) as [r2 rest2].
    cbn [snd String.length] in *.
    specialize (L1 ltac:(discriminate)).
    apply IH; lia.
Qed.

(** X19: the decoder always finishes within its fuel, also with more of it;
    it returns no point exactly for the empty string, and reads at least two
    characters per point except possibly for the last one. *)
Theorem decode_polyline_points (encoded : string) :
  (forall fuel, (String.length encoded <= fuel)%nat ->
     decodeLoop fuel encoded 0 0 [] = Some (decodePolyline encoded)) /\
  (decodePolyline encoded = [] <-> encoded = EmptyString) /\
  (2 * List.length (decodePolyline encoded)
   <= String.length encoded + 1)%nat.
Proof.
  unfold decodePolyline.
  destruct (decodeLoop_points (String.length encoded) encoded 0 0 []
              (le_n _)) as (pts & Hd & Hnil & Hcount).
  rewrite Hd. cbn [app].
  split; [| split; assumption].
  intros fuel Hfuel.
  rewrite (decodeLoop_fuel fuel (String.length encoded)) by lia.
  exact Hd.
Qed.

Lemma decode_polyline_points_witness :
  decodeLoop 40 exampleEncoded 0 0 [] = Some (decodePolyline exampleEncoded).
Proof.
  apply (proj1 (decode_polyline_points exampleEncoded)).
  cbn. lia.
Defined.

Lemma toInt32_small (z : Z) :
  (- 2 ^ 31 <= z < 2 ^ 31)%Z -> toInt32 z = z.
Proof.
  intros H. unfold toInt32. rewrite Z.mod_small; lia.
Qed.

Lemma land_31 (x : Z) : Z.land x 31 = (x mod 32)%Z.
Proof. change 31%Z with (Z.ones 5). now rewrite Z.land_ones by lia. Qed.

Lemma lor_disjoint (r x s : Z) :
  (0 <= s)%Z -> (0 <= r < 2 ^ s)%Z ->
  Z.lor r (x * 2 ^ s) = (r + x * 2 ^ s)%Z.
Proof.
  intros Hs Hr.
  assert (Hland : Z.land r (x * 2 ^ s) = 0%Z).
  { apply Z.bits_inj'. intros n Hn.
    rewrite Z.land_spec, Z.bits_0.
    destruct (Z.lt_ge_cases n s) as [Hlt | Hge].
    - rewrite (Z.mul_pow2_bits_low x s n) by lia. apply andb_false_r.
    - replace (Z.testbit r n) with false; [reflexivity |].
      symmetry. apply Z.testbit_false; [lia |].
      rewrite Z.div_small; [reflexivity |].
      split; [lia |].
      apply Z.lt_le_trans with (2 ^ s)%Z; [lia |].
      apply Z.pow_le_mono_r; lia. }
  rewrite <- (Z.lxor_lor _ _ Hland).
  symmetry. now apply Z.add_nocarry_lxor.
Qed.

Lemma shl32_small (d shift : Z) :
  (0 <= d)%Z -> (0 <= shift <= 30)%Z -> (d * 2 ^ shift < 2 ^ 31)%Z ->
  shl32 d shift = (d * 2 ^ shift)%Z.
Proof.
  intros Hd Hs Hlt. unfold shl32.
  rewrite Z.mod_small by lia.
  rewrite Z.shiftl_mul_pow2 by lia.
  apply toInt32_small. nia.
Qed.

Lemma charCode_ascii (n : Z) :
  (0 <= n < 256)%Z -> charCode (ascii_of_N (Z.to_N n)) = n.
Proof.
  intros H. unfold charCode.
  rewrite N_ascii_embedding by lia. lia.
Qed.

Lemma encodeChunks_step (fuel : nat) (u : Z) :
  encodeChunks (S fuel) u
  = if (u <? 32)%Z
    then String (ascii_of_N (Z.to_N (u + 63))) EmptyString
    else String (ascii_of_N (Z.to_N (Z.lor (Z.land u 31) 32 + 63)))
           (encodeChunks fuel (Z.shiftr u 5)).
Proof. reflexivity. Qed.

Lemma chunkLoop_encodeChunks (fuel : nat) : forall u shift result rest,
  (0 <= u < 32 ^ Z.of_nat (S fuel))%Z ->
  (0 <= shift <= 30)%Z ->
  (u * 2 ^ shift < 2 ^ 31)%Z ->
  (0 <= result < 2 ^ shift)%Z ->
  chunkLoop (encodeChunks (S fuel) u ++ rest) shift result
  = ((result + u * 2 ^ shift)%Z, rest).
Proof.
  induction fuel as [| fuel IH]; intros u shift result rest Hu Hs Hfit Hr.
  - change (32 ^ Z.of_nat 1)%Z with 32%Z in Hu.
    cbn [encodeChunks].
    destruct (Z.ltb_spec u 32) as [_ | Hge]; [| lia].
    cbn [append chunkLoop]. cbv zeta.
    rewrite charCode_ascii by lia.
    replace (u + 63 - 63)%Z with u by lia.
    destruct (Z.leb_spec 32 u) as [Hc | _]; [lia |].
    rewrite land_31, Z.mod_small by lia.
    rewrite shl32_small by lia.
    now rewrite lor_disjoint by lia.
  - rewrite encodeChunks_step.
    destruct (Z.ltb_spec u 32) as [Hlt | Hge].
    + cbn [append chunkLoop]. cbv zeta.
      rewrite charCode_ascii by lia.
      replace (u + 63 - 63)%Z with u by lia.
      destruct (Z.leb_spec 32 u) as [Hc | _]; [lia |].
      rewrite land_31, Z.mod_small by lia.
      rewrite shl32_small by lia.
      now rewrite lor_disjoint by lia.
    + assert (Hd : (0 <= u mod 32 < 32)%Z) by (apply Z.mod_pos_bound; lia).
      assert (Hlor : Z.lor (Z.land u 31) 32 = (u mod 32 + 32)%Z).
      { rewrite land_31. change 32%Z with (1 * 2 ^ 5)%Z at 2 3.
        apply lor_disjoint; [lia |]. change (2 ^ 5)%Z with 32%Z. exact Hd. }
      assert (Hdiv : (u = 32 * (u / 32) + u mod 32)%Z)
        by (apply Z.div_mod; lia).
      assert (Hq : (0 <= u / 32)%Z) by (apply Z.div_pos; lia).
      assert (Hpow : (2 ^ (shift + 5) = 32 * 2 ^ shift)%Z)
        by (rewrite Z.pow_add_r by lia; change (2 ^ 5)%Z with 32%Z; lia).
      assert (Hp : (0 < 2 ^ shift)%Z) by (apply Z.pow_pos_nonneg; lia).
      assert (Hshift : (shift <= 25)%Z).
      { destruct (Z.le_gt_cases shift 25) as [H | H]; [exact H |].
        exfalso.
        assert (2 ^ 26 <= 2 ^ shift)%Z by (apply Z.pow_le_mono_r; lia).
        nia. }
      cbn [append]. cbn [chunkLoop]. cbv zeta.
      rewrite Hlor.
      rewrite charCode_ascii by lia.
      replace (u mod 32 + 32 + 63 - 63)%Z with (u mod 32 + 32)%Z by lia.
      destruct (Z.leb_spec 32 (u mod 32 + 32)) as [_ | Hc]; [| lia].
      rewrite land_31.
      assert (Hm : ((u mod 32 + 32) mod 32 = u mod 32)%Z).
      { replace (u mod 32 + 32)%Z with (u mod 32 + 1 * 32)%Z by lia.
        rewrite Z.mod_add by lia. apply Z.mod_small. exact Hd. }
      rewrite Hm.
      rewrite shl32_small by nia.
      rewrite lor_disjoint by lia.
      rewrite Z.shiftr_div_pow2 by lia. change (2 ^ 5)%Z with 32%Z.
      rewrite IH.
      * f_equal. rewrite Hpow. nia.
      * split; [exact Hq |].
        apply Z.div_lt_upper_bound; [lia |].
        replace (Z.of_nat (S (S fuel))) with (1 + Z.of_nat (S fuel))%Z in Hu
          by lia.
        rewrite Z.pow_add_r in Hu by lia. lia.
      * lia.
      * rewrite Hpow. nia.
      * rewrite Hpow. nia.
Qed.

Lemma zigzag_range (v : Z) :
  (- 2 ^ 30 <= v < 2 ^ 30)%Z -> (0 <= zigzag v < 2 ^ 31)%Z.
Proof.
  intros H. unfold zigzag.
  rewrite Z.shiftl_mul_pow2 by lia. change (2 ^ 1)%Z with 2%Z.
  destruct (Z.ltb_spec v 0); unfold Z.lnot; lia.
Qed.

Lemma delta_zigzag (v : Z) : delta (zigzag v) = v.
Proof.
  unfold delta, zigzag.
  rewrite Z.shiftl_mul_pow2 by lia. change (2 ^ 1)%Z with 2%Z.
  change 1%Z with (Z.ones 1) at 1. rewrite Z.land_ones by lia.
  change (2 ^ 1)%Z with 2%Z.
  rewrite Z.shiftr_div_pow2 by lia. change (2 ^ 1)%Z with 2%Z.
  destruct (Z.ltb_spec v 0) as [Hneg | Hpos].
  - unfold Z.lnot.
    replace (Z.pred (- (v * 2))) with (1 + (- v - 1) * 2)%Z by lia.
    rewrite Z.mod_add, Z.div_add by lia.
    change (1 mod 2)%Z with 1%Z. change (1 / 2)%Z with 0%Z.
    cbn [Z.eqb]. lia.
  - rewrite Z.mod_mul, Z.div_mul by lia. reflexivity.
Qed.

Lemma chunkLoop_encodeValue (v : Z) (rest : string) :
  (- 2 ^ 30 <= v < 2 ^ 30)%Z ->
  chunkLoop (encodeValue v ++ rest) 0 0 = (zigzag v, rest).
Proof.
  intros H. pose proof (zigzag_range v H) as Hz.
  unfold encodeValue. rewrite chunkLoop_encodeChunks.
  - f_equal. change (2 ^ 0)%Z with 1%Z. lia.
  - change (32 ^ Z.of_nat 7)%Z with (2 ^ 35)%Z.
    assert (2 ^ 31 <= 2 ^ 35)%Z by (apply Z.pow_le_mono_r; lia). lia.
  - lia.
  - change (2 ^ 0)%Z with 1%Z. lia.
  - change (2 ^ 0)%Z with 1%Z. lia.
Qed.

Lemma encodeValue_cons (v : Z) :
  exists c s, encodeValue v = String c s.
Proof.
  unfold encodeValue. cbn [encodeChunks].
  destruct (zigzag v <? 32)%Z; eexists; eexists; reflexivity.
Qed.

Lemma decodeLoop_encodeFrom (points : list (Z * Z)) :
  forall fuel lat0 lng0 acc,
  (List.length points <= fuel)%nat ->
  stepsFit points lat0 lng0 ->
  decodeLoop fuel (encodeFrom points lat0 lng0) lat0 lng0 acc
  = Some (acc ++ map degrees points).
Proof.
  induction points as [| [lat1 lng1] points IH];
    intros fuel lat0 lng0 acc Hfuel Hfit.
  - cbn. destruct fuel; cbn; now rewrite app_nil_r.
  - destruct fuel as [| fuel]; [cbn in Hfuel; lia |].
    destruct Hfit as (Hlat & Hlng & Hrest).
    cbn [encodeFrom].
    destruct (encodeValue_cons (lat1 - lat0)) as (c & s & Hc).
    assert (Hstep : forall tail,
               decodeLoop (S fuel) (encodeValue (lat1 - lat0) ++ tail)
                 lat0 lng0 acc
               = let '(result, rest) :=
                   chunkLoop (encodeValue (lat1 - lat0) ++ tail) 0 0 in
                 let lat' := (lat0 + delta result)%Z in
                 let '(result, rest) := chunkLoop rest 0 0 in
                 let lng' := (lng0 + delta result)%Z in
                 decodeLoop fuel rest lat' lng'
                   (acc ++ [{| lat := IZR lat' / 100000;
                               lng := IZR lng' / 100000 |}])).
    { intros tail. rewrite Hc. reflexivity. }
    rewrite Hstep.
    rewrite chunkLoop_encodeValue by exact Hlat.
    rewrite chunkLoop_encodeValue by exact Hlng.
    rewrite !delta_zigzag.
    replace (lat0 + (lat1 - lat0))%Z with lat1 by lia.
    replace (lng0 + (lng1 - lng0))%Z with lng1 by lia.
    rewrite IH by (cbn in Hfuel; try lia; assumption).
    rewrite <- app_assoc. reflexivity.
Qed.

Lemma string_length_append (a b : string) :
  String.length (a ++ b) = (String.length a + String.length b)%nat.
Proof. induction a as [| c a IH]; cbn; [reflexivity | now rewrite IH]. Qed.

Lemma encodeFrom_length (points : list (Z * Z)) : forall lat0 lng0,
  (List.length points <= String.length (encodeFrom points lat0 lng0))%nat.
Proof.
  induction points as [| [lat1 lng1] points IH]; intros lat0 lng0;
    [cbn; lia |].
  cbn [encodeFrom List.length].
  destruct (encodeValue_cons (lat1 - lat0)) as (c & s & ->).
  cbn [append String.length].
  rewrite !string_length_append.
  specialize (IH lat1 lng1). lia.
Qed.

(** X20: the decoder inverts the polyline format.  For a list of points in
    units of 1e-5 degree in which every step from one point to the next
    (the first one from 0) fits 31 bits, decoding the encoded string gives
    back every point, divided by 1e5, in order. *)
Theorem decode_polyline_round_trip (points : list (Z * Z)) :
  stepsFit points 0 0 ->
  decodePolyline (encodePolyline points) = map degrees points.
Proof.
  intros Hfit. unfold decodePolyline, encodePolyline.
  rewrite decodeLoop_encodeFrom.
  - reflexivity.
  - apply encodeFrom_length.
  - exact Hfit.
Qed.

Lemma decode_polyline_round_trip_witness :
  stepsFit examplePoints 0 0 /\
  encodePolyline examplePoints = exampleEncoded /\
  decodePolyline exampleEncoded = map degrees examplePoints.
Proof.
  assert (Hfit : stepsFit examplePoints 0 0) by (cbn; lia).
  assert (Henc : encodePolyline examplePoints = exampleEncoded)
    by (vm_compute; reflexivity).
  split; [exact Hfit |]. split; [exact Henc |].
  rewrite <- Henc. exact (decode_polyline_round_trip examplePoints Hfit).
Defined.

(** ** [calculateRoute]: order, modes and result *)

Lemma allDefined_map_Some (l : list LatLng) : allDefined (map Some l) = Some l.
Proof. induction l as [| p l IH]; cbn; [reflexivity | now rewrite IH]. Qed.

Lemma fetchRouteRequest_plain (mode : RoutingMode) (pts : list LatLng) :
  mode <> CURVY ->
  fetchRouteRequest pts mode = fetchRouteRequest pts BALANCED.
Proof.
  intros Hm. unfold fetchRouteRequest. destruct pts as [| p pts]; [reflexivity |].
  rewrite (sequenceLoop_plain mode Hm).
  rewrite (sequenceLoop_plain BALANCED) by discriminate.
  reflexivity.
Qed.

Lemma fetchRoute_plain service (st : list (option LatLng)) (mode : RoutingMode) :
  mode <> CURVY -> fetchRoute service st mode = fetchRoute service st BALANCED.
Proof.
  intros Hm. unfold fetchRoute. destruct (allDefined st); [| reflexivity].
  now rewrite (fetchRouteRequest_plain mode l Hm).
Qed.

Lemma fetchWithRetry_plain service (st : list (option LatLng))
    (mode : RoutingMode) :
  mode <> CURVY ->
  fst (fetchWithRetry service st mode)
  = match fetchRoute service st BALANCED with
    | Json osrmData =>
        if String.eqb (Osrm.code osrmData) "Ok" then Json osrmData
        else Threw (Osrm.code osrmData)
    | Threw error => Threw error
    end.
Proof.
  intros Hm. unfold fetchWithRetry. rewrite (fetchRoute_plain service st mode Hm).
  assert (He : RoutingMode_eqb mode CURVY = false)
    by (destruct mode; [reflexivity | reflexivity | contradiction]).
  rewrite He.
  destruct (fetchRoute service st BALANCED) as [e | d]; [reflexivity |].
  destruct (String.eqb (Osrm.code d) "Ok"); reflexivity.
Qed.

Lemma fetchWithRetry_curvy_failed service (st : list (option LatLng)) :
  (forall d, fetchRoute service st CURVY = Json d ->
             Osrm.code d <> "Ok"%string) ->
  fst (fetchWithRetry service st CURVY) = fetchRoute service st BALANCED.
Proof.
  intros Hfail. unfold fetchWithRetry.
  destruct (fetchRoute service st CURVY) as [e | d] eqn:E; [reflexivity |].
  specialize (Hfail d eq_refl). apply String.eqb_neq in Hfail.
  rewrite Hfail. reflexivity.
Qed.

Lemma finalStops_curvy trip (optimizeOrder : bool) (sts : list LatLng) :
  finalStops trip optimizeOrder CURVY sts = map Some sts.
Proof.
  unfold finalStops. cbn [RoutingMode_eqb negb].
  now rewrite andb_false_r.
Qed.

Lemma fetchRoute_from_service service (st : list (option LatLng))
    (mode : RoutingMode) (d : Osrm.Data) :
  fetchRoute service st mode = Json d ->
  exists request, service request = Json d.
Proof.
  unfold fetchRoute. destruct (allDefined st); [| discriminate].
  destruct (fetchRouteRequest l mode) as [request |]; [| discriminate].
  intros H. now exists request.
Qed.

Lemma fetchWithRetry_from_service service (st : list (option LatLng))
    (mode : RoutingMode) (d : Osrm.Data) :
  fst (fetchWithRetry service st mode) = Json d ->
  exists request, service request = Json d.
Proof.
  unfold fetchWithRetry.
  destruct (fetchRoute service st mode) as [e | d0] eqn:E.
  - destruct (RoutingMode_eqb mode CURVY); cbn [fst]; [| discriminate].
    apply fetchRoute_from_service.
  - destruct (negb (String.eqb (Osrm.code d0) "Ok")).
    + destruct (RoutingMode_eqb mode CURVY); cbn [fst]; [| discriminate].
      apply fetchRoute_from_service.
    + cbn [fst]. intros H. injection H as <-.
      now apply fetchRoute_from_service in E.
Qed.

Lemma decodePolyline_nil (encoded : string) :
  decodePolyline encoded = [] <-> encoded = EmptyString.
Proof.
  unfold decodePolyline.
  destruct (decodeLoop_points (String.length encoded) encoded 0 0 []
              (le_n _)) as (pts & Hd & Hnil & _).
  rewrite Hd. exact Hnil.
Qed.

(** X21: order and modes in [calculateRoute].  FAST and BALANCED give the
    same result for the same answers of the services.  The stops are routed
    in the order given when reordering is off, with at most two stops, in
    CURVY mode, or when the trip service cannot be reached.  In CURVY mode,
    when the request with detour hints fails or is refused, a route is
    returned exactly when BALANCED without reordering returns it, and it is
    the same route. *)
Theorem routing_modes (trip : list LatLng -> TripFetched)
    (service : list LatLng * list R -> Fetched)
    (optimizeOrder : bool) (sts : list LatLng) :
  routeBody trip service FAST optimizeOrder sts
  = routeBody trip service BALANCED optimizeOrder sts /\
  (forall mode,
     optimizeOrder = false \/ (List.length sts <= 2)%nat \/ mode = CURVY
     \/ trip sts = TripThrew ->
     finalStops trip optimizeOrder mode sts = map Some sts) /\
  ((forall d, fetchRoute service (map Some sts) CURVY = Json d ->
              Osrm.code d <> "Ok"%string) ->
   forall res,
     routeBody trip service CURVY optimizeOrder sts = RouteOk res <->
     routeBody trip service BALANCED false sts = RouteOk res).
Proof.
  split; [| split].
  - unfold routeBody.
    change (finalStops trip optimizeOrder FAST sts)
      with (finalStops trip optimizeOrder BALANCED sts).
    rewrite (fetchWithRetry_plain service _ FAST) by discriminate.
    rewrite (fetchWithRetry_plain service _ BALANCED) by discriminate.
    reflexivity.
  - intros mode H. unfold finalStops.
    destruct H as [-> | [H | [-> | H]]].
    + reflexivity.
    + apply Nat.ltb_ge in H. rewrite H. now rewrite andb_false_r.
    + cbn [RoutingMode_eqb negb]. now rewrite andb_false_r.
    + rewrite H. now destruct (_ && _ && _).
  - intros Hfail res. unfold routeBody.
    rewrite finalStops_curvy.
    rewrite (fetchWithRetry_curvy_failed service _ Hfail).
    rewrite (fetchWithRetry_plain service _ BALANCED) by discriminate.
    change (finalStops trip false BALANCED sts) with (map Some sts).
    destruct (fetchRoute service (map Some sts) BALANCED) as [e | d];
      [reflexivity |].
    destruct (String.eqb (Osrm.code d) "Ok") eqn:Ec; cbn [negb].
    + rewrite Ec. reflexivity.
    + split; discriminate.
Qed.

Lemma routing_modes_witness :
  finalStops noTrip true FAST cornerLine = map Some cornerLine /\
  exists res,
    routeBody noTrip plainOnlyService CURVY true twoStops = RouteOk res /\
    routeBody noTrip plainOnlyService BALANCED false twoStops = RouteOk res.
Proof.
  destruct (routing_modes noTrip plainOnlyService true cornerLine)
    as (_ & Horder & _).
  destruct (routing_modes noTrip plainOnlyService true twoStops)
    as (_ & _ & Hcurvy).
  split.
  - apply Horder. right. right. right. reflexivity.
  - assert (Hfail : forall d,
               fetchRoute plainOnlyService (map Some twoStops) CURVY = Json d ->
               Osrm.code d <> "Ok"%string)
      by (intros d H; cbv in H; discriminate).
    destruct (routeBody noTrip plainOnlyService BALANCED false twoStops)
      as [res | e] eqn:E; [| cbv in E; discriminate].
    exists res. split; [| reflexivity].
    apply (Hcurvy Hfail res). reflexivity.
Defined.

(** X22: what [calculateRoute] returns.  With fewer than two points it
    refuses before any request.  A route it returns is the first route of an
    answer of the routing service whose code is Ok: its polyline is the
    decoded geometry and is not empty, distance and duration are the
    service's, and the maneuvers are built from the legs.  Outside CURVY
    mode, an answer with another code is reported with that code as the
    message. *)
Theorem route_result (trip : list LatLng -> TripFetched)
    (service : list LatLng * list R -> Fetched)
    (mode : RoutingMode) (optimizeOrder : bool) (sts : list LatLng) :
  let router := routeBody trip service mode optimizeOrder in
  ((List.length sts < 2)%nat ->
   calculateRoute router sts
   = RouteError "At least 2 points are required for routing.") /\
  (forall res, calculateRoute router sts = RouteOk res ->
     (2 <= List.length sts)%nat /\
     RouteResponse.polyline res <> [] /\
     exists request data bestRoute,
       service request = Json data /\
       Osrm.code data = "Ok"%string /\
       hd_error (Osrm.routes data) = Some bestRoute /\
       Osrm.geometry bestRoute <> EmptyString /\
       RouteResponse.polyline res = decodePolyline (Osrm.geometry bestRoute) /\
       RouteResponse.distance res = Osrm.distance bestRoute /\
       RouteResponse.duration res = Osrm.duration bestRoute /\
       RouteResponse.maneuvers res = buildManeuvers (Osrm.legs bestRoute)) /\
  (mode <> CURVY ->
   forall data,
     fetchRoute service (finalStops trip optimizeOrder mode sts) mode
     = Json data ->
     Osrm.code data <> "Ok"%string ->
     router sts = RouteError (Osrm.code data)).
Proof.
  intros router. split; [| split].
  - intros Hlt. unfold calculateRoute.
    apply Nat.ltb_lt in Hlt. now rewrite Hlt.
  - intros res. unfold calculateRoute.
    destruct (Nat.ltb_spec (List.length sts) 2) as [| Hge]; [discriminate |].
    intros H. split; [exact Hge |].
    unfold router, routeBody in H.
    destruct (fst (fetchWithRetry service
                     (finalStops trip optimizeOrder mode sts) mode))
      as [e | d] eqn:E; [discriminate |].
    destruct (String.eqb (Osrm.code d) "Ok") eqn:Ec; cbn [negb] in H;
      [| discriminate].
    destruct (Osrm.routes d) as [| bestRoute others] eqn:Er; [discriminate |].
    destruct (Nat.eqb_spec
                (List.length (decodePolyline (Osrm.geometry bestRoute))) 0)
      as [| Hlen]; [discriminate |].
    injection H as <-. cbn [RouteResponse.polyline RouteResponse.distance
                             RouteResponse.duration RouteResponse.maneuvers].
    assert (Hpoly : decodePolyline (Osrm.geometry bestRoute) <> [])
      by (intros Hnil; rewrite Hnil in Hlen; now apply Hlen).
    split; [exact Hpoly |].
    destruct (fetchWithRetry_from_service service _ mode d E) as [request Hr].
    exists request, d, bestRoute.
    split; [exact Hr |].
    split; [now apply String.eqb_eq |].
    split; [rewrite Er; reflexivity |].
    split; [| repeat split].
    intros Hg. apply Hpoly. now apply decodePolyline_nil.
  - intros Hm data Hfetch Hcode. unfold router, routeBody.
    rewrite (fetchWithRetry_plain service _ mode Hm).
    rewrite <- (fetchRoute_plain service _ mode Hm), Hfetch.
    apply String.eqb_neq in Hcode. rewrite Hcode. reflexivity.
Qed.

Lemma route_result_witness :
  calculateRoute (routeBody noTrip plainOnlyService BALANCED false)
    [cornerPoint]
  = RouteError "At least 2 points are required for routing.".
Proof.
  apply (proj1 (route_result noTrip plainOnlyService BALANCED false
                  [cornerPoint])).
  cbn. lia.
Defined.

Lemma rem_3_range (seed : Z) : (-2 <= Z.rem seed 3 <= 2)%Z.
Proof.
  pose proof (Z.rem_bound_abs seed 3 ltac:(lia)). lia.
Qed.

Lemma rem_5_range (seed : Z) : (-4 <= Z.rem seed 5 <= 4)%Z.
Proof.
  pose proof (Z.rem_bound_abs seed 5 ltac:(lia)). lia.
Qed.

Lemma Int_part_nonneg (x : R) : 0 <= x -> (0 <= Int_part x)%Z.
Proof.
  intros H. destruct (base_Int_part x) as [H1 H2].
  destruct (Z.le_gt_cases 0 (Int_part x)) as [Hz | Hz]; [exact Hz | exfalso].
  assert (Int_part x <= -1)%Z as Hle by lia.
  apply IZR_le in Hle. lra.
Qed.

(** X23: the scores returned when no analysis key is configured.  Both lie
    between 1 and 9 for every distance and either mode, so the substitute
    value 5 is never taken for a zero score; for a non-negative distance
    the curvature score lies in 7..9 when the route was made in CURVY mode
    and in 3..5 otherwise, and the scenic score lies in 5..9. *)
Theorem fallback_stats_range (usedMode : RoutingMode) (distance : R) :
  let '(curvatureIndex, scenicIndex) := fallbackStats usedMode distance in
  (1 <= curvatureIndex <= 9)%Z /\ (1 <= scenicIndex <= 9)%Z /\
  (0 <= distance ->
   (usedMode = CURVY -> 7 <= curvatureIndex <= 9)%Z /\
   (usedMode <> CURVY -> 3 <= curvatureIndex <= 5)%Z /\
   (5 <= scenicIndex <= 9)%Z /\
   curvatureIndex
   = ((if RoutingMode_eqb usedMode CURVY then 7 else 3)
      + Int_part distance mod 3)%Z /\
   scenicIndex = (5 + Int_part distance mod 5)%Z).
Proof.
  unfold fallbackStats. cbv zeta.
  pose proof (rem_3_range (Int_part distance)) as H3.
  pose proof (rem_5_range (Int_part distance)) as H5.
  assert (Hor : forall x, (x <> 0)%Z -> orFive x = x).
  { intros x Hx. unfold orFive.
    destruct (Z.eqb_spec x 0); [contradiction | reflexivity]. }
  rewrite (Hor (5 + Z.rem (Int_part distance) 5)%Z) by lia.
  destruct usedMode; cbn [RoutingMode_eqb];
    rewrite Hor by lia;
    (split; [lia |]); (split; [lia |]);
    intros Hd; apply Int_part_nonneg in Hd;
    rewrite !Z.rem_mod_nonneg by lia;
    pose proof (Z.mod_pos_bound (Int_part distance) 3 ltac:(lia));
    pose proof (Z.mod_pos_bound (Int_part distance) 5 ltac:(lia));
    (split; [intros Hm; try discriminate; lia |]);
    (split; [intros Hm; try (now contradiction Hm); lia |]);
    (split; [lia |]); split; reflexivity.
Qed.

Lemma fallback_stats_range_witness :
  fallbackStats CURVY 12345 = (7%Z, 5%Z).
Proof.
  pose proof (fallback_stats_range CURVY 12345) as H.
  destruct (fallbackStats CURVY 12345) as [c s].
  destruct H as (_ & _ & H). specialize (H ltac:(lra)).
  destruct H as (_ & _ & _ & -> & ->).
  assert (Hip : Int_part 12345 = 12345%Z).
  { symmetry. apply Int_part_spec. lra. }
  rewrite Hip. reflexivity.
Defined.

(** ** The GPX import *)

Lemma trackLoop_unfold (fuel : nat) (points : list LatLng) (i step : Z)
    (simplified : list (option LatLng)) :
  trackLoop fuel points i step simplified
  = if (i <? Z.of_nat (List.length points) - 1)%Z then
      match fuel with
      | O => None
      | S fuel =>
          trackLoop fuel points (i + step)%Z step
            (simplified ++ [pointAt points i])
      end
    else Some simplified.
Proof. destruct fuel; reflexivity. Qed.

Lemma trackLoop_spec (points : list LatLng) (step : Z) (m : nat) :
  forall fuel i acc,
  (1 <= step)%Z -> (m <= fuel)%nat ->
  (m <> O -> i + (Z.of_nat m - 1) * step < Z.of_nat (List.length points) - 1)%Z ->
  (Z.of_nat (List.length points) - 1 <= i + Z.of_nat m * step)%Z ->
  trackLoop fuel points i step acc
  = Some (acc ++ map (pointAt points) (indicesFrom m i step)).
Proof.
  induction m as [| m IH]; intros fuel i acc Hstep Hfuel Hin Hout.
  - rewrite trackLoop_unfold.
    destruct (Z.ltb_spec i (Z.of_nat (List.length points) - 1)); [lia |].
    cbn. now rewrite app_nil_r.
  - rewrite trackLoop_unfold.
    specialize (Hin ltac:(discriminate)).
    destruct (Z.ltb_spec i (Z.of_nat (List.length points) - 1)); [| nia].
    destruct fuel as [| fuel]; [lia |].
    rewrite IH; [| lia | lia | intros Hm; nia | nia].
    cbn [indicesFrom map]. rewrite <- app_assoc. reflexivity.
Qed.

Lemma trackLoop_diverges (points : list LatLng) (step : Z) (fuel : nat) :
  forall i acc,
  (step <= 0)%Z -> (i < Z.of_nat (List.length points) - 1)%Z ->
  trackLoop fuel points i step acc = None.
Proof.
  induction fuel as [| fuel IH]; intros i acc Hstep Hi;
    rewrite trackLoop_unfold;
    destruct (Z.ltb_spec i (Z.of_nat (List.length points) - 1)); try lia.
  - reflexivity.
  - apply IH; lia.
Qed.

Lemma indicesFrom_length (count : nat) : forall i step,
  List.length (indicesFrom count i step) = count.
Proof.
  induction count as [| count IH]; intros i step; cbn;
    [reflexivity | now rewrite IH].
Qed.

Lemma indicesFrom_nth (count : nat) : forall i step k,
  (k < count)%nat ->
  nth_error (indicesFrom count i step) k = Some (i + Z.of_nat k * step)%Z.
Proof.
  induction count as [| count IH]; intros i step k Hk; [lia |].
  destruct k as [| k]; cbn [indicesFrom nth_error].
  - f_equal. lia.
  - rewrite IH by lia. f_equal. lia.
Qed.

Lemma pointAt_nat (points : list LatLng) (k : nat) :
  pointAt points (Z.of_nat k) = nth_error points k.
Proof.
  unfold pointAt. destruct (Z.ltb_spec (Z.of_nat k) 0); [lia |].
  now rewrite Nat2Z.id.
Qed.

Lemma map_Some_inj {A : Type} (l1 l2 : list A) :
  map Some l1 = map Some l2 -> l1 = l2.
Proof.
  revert l2. induction l1 as [| x l1 IH]; intros [| y l2] H;
    try discriminate; [reflexivity |].
  cbn in H. injection H as -> H. f_equal. now apply IH.
Qed.

Lemma all_Some_map {A : Type} (l : list (option A)) :
  (forall o, In o l -> o <> None) -> exists kept, l = map Some kept.
Proof.
  induction l as [| o l IH]; intros H; [now exists [] |].
  destruct IH as [kept ->]; [intros o' Ho'; apply H; now right |].
  destruct o as [x |]; [| exfalso; now apply (H None); [left |]].
  now exists (x :: kept).
Qed.

(** The shape of the result of [simplifyTrack] above the target count, for
    a target of at least two. *)
Lemma simplifyTrackWith_shape (fuel : nat) (points : list LatLng)
    (targetCount : Z) :
  (2 <= targetCount < Z.of_nat (List.length points))%Z ->
  (List.length points <= fuel)%nat ->
  let n := Z.of_nat (List.length points) in
  let step := (n / (targetCount - 1))%Z in
  let m := Z.to_nat ((n - 2) / step) in
  (1 <= step)%Z /\
  (Z.of_nat m * step <= n - 2)%Z /\
  simplifyTrackWith fuel points targetCount
  = Some (map (pointAt points)
            (0%Z :: indicesFrom m step step ++ [(n - 1)%Z])).
Proof.
  intros HT Hfuel n step m.
  assert (Hstep : (1 <= step)%Z).
  { unfold step. apply Z.div_le_lower_bound; lia. }
  assert (Hq : (0 <= (n - 2) / step)%Z) by (apply Z.div_pos; lia).
  assert (Hm : Z.of_nat m = ((n - 2) / step)%Z) by (unfold m; lia).
  assert (Hlow : (step * ((n - 2) / step) <= n - 2)%Z)
    by (apply Z.mul_div_le; lia).
  assert (Hhigh : (n - 2 < step * ((n - 2) / step) + step)%Z).
  { pose proof (Z.div_mod (n - 2) step ltac:(lia)) as Hdm.
    pose proof (Z.mod_pos_bound (n - 2) step ltac:(lia)). lia. }
  assert (Hmn : (Z.of_nat m <= n - 2)%Z) by nia.
  split; [exact Hstep |]. split; [nia |].
  unfold simplifyTrackWith. fold n. cbv zeta. fold step.
  destruct (Z.leb_spec n targetCount); [lia |].
  destruct (Z.eqb_spec (targetCount - 1) 0); [lia |].
  rewrite (trackLoop_spec points step m); [| exact Hstep | lia | | ].
  - cbn [map app]. rewrite map_app. reflexivity.
  - intros _. fold n. nia.
  - fold n. nia.
Qed.

Lemma indicesFrom_In (count : nat) : forall i step x,
  In x (indicesFrom count i step) ->
  exists k, (k < count)%nat /\ x = (i + Z.of_nat k * step)%Z.
Proof.
  induction count as [| count IH]; intros i step x Hin; [contradiction |].
  destruct Hin as [<- | Hin].
  - exists O. split; lia.
  - destruct (IH _ _ _ Hin) as (k & Hk & ->).
    exists (S k). split; lia.
Qed.

Lemma hd_error_nth {A : Type} (l : list A) : hd_error l = nth_error l 0.
Proof. destruct l; reflexivity. Qed.

Lemma option_map_Some_inj {A : Type} (a b : option A) :
  option_map Some a = Some b -> a = b.
Proof. destruct a; cbn; intros H; [injection H as <- |]; congruence. Qed.

(** Above the target, for a target of at least two: the entries of the
    result are the points at the indices the loop visits. *)
Lemma simplifyTrack_kept (points : list LatLng) (targetCount : Z) :
  (2 <= targetCount < Z.of_nat (List.length points))%Z ->
  let n := Z.of_nat (List.length points) in
  let step := (n / (targetCount - 1))%Z in
  let m := Z.to_nat ((n - 2) / step) in
  exists kept,
    (forall fuel, (List.length points <= fuel)%nat ->
       simplifyTrackWith fuel points targetCount = Some (map Some kept)) /\
    List.length kept = (m + 2)%nat /\
    (forall j, (j <= m)%nat ->
       nth_error kept j = nth_error points (j * Z.to_nat step)) /\
    nth_error kept (m + 1) = nth_error points (List.length points - 1).
Proof.
  intros HT n step m.
  destruct (simplifyTrackWith_shape (List.length points) points targetCount
              HT (le_n _)) as (Hstep & Hm & _).
  fold n in Hstep, Hm. fold step in Hstep, Hm. fold m in Hm.
  set (idxs := (0%Z :: indicesFrom m step step ++ [(n - 1)%Z])).
  assert (Hrange : forall x, In x idxs -> (0 <= x < n)%Z).
  { intros x [<- | Hin]; [lia |].
    apply in_app_or in Hin. destruct Hin as [Hin | [<- | []]]; [| lia].
    apply indicesFrom_In in Hin. destruct Hin as (k & Hk & ->). nia. }
  destruct (all_Some_map (map (pointAt points) idxs)) as [kept Hkept].
  { intros o Ho. apply in_map_iff in Ho. destruct Ho as (x & <- & Hx).
    apply Hrange in Hx.
    replace x with (Z.of_nat (Z.to_nat x)) by lia.
    rewrite pointAt_nat. apply nth_error_Some. lia. }
  assert (Hnth : forall j x, nth_error idxs j = Some x ->
             nth_error kept j = nth_error points (Z.to_nat x)).
  { intros j x Hj.
    assert (Hx : (0 <= x < n)%Z) by (apply Hrange; eapply nth_error_In; eauto).
    apply option_map_Some_inj.
    rewrite <- nth_error_map, <- Hkept, nth_error_map, Hj. cbn [option_map].
    replace x with (Z.of_nat (Z.to_nat x)) at 1 by lia.
    now rewrite pointAt_nat. }
  exists kept.
  split.
  { intros fuel Hfuel.
    destruct (simplifyTrackWith_shape fuel points targetCount HT Hfuel)
      as (_ & _ & Hs).
    fold n in Hs. fold step in Hs. fold m in Hs. fold idxs in Hs.
    now rewrite Hs, Hkept. }
  split.
  { rewrite <- (length_map Some kept), <- Hkept, length_map.
    unfold idxs. cbn [List.length]. rewrite length_app, indicesFrom_length.
    cbn [List.length]. lia. }
  split.
  - intros j Hj. destruct j as [| j].
    + rewrite (Hnth O 0%Z) by reflexivity. reflexivity.
    + rewrite (Hnth (S j) (step + Z.of_nat j * step)%Z).
      * f_equal. nia.
      * unfold idxs. cbn [nth_error].
        rewrite nth_error_app1 by (rewrite indicesFrom_length; lia).
        apply indicesFrom_nth. lia.
  - rewrite (Hnth (m + 1)%nat (n - 1)%Z).
    + f_equal. lia.
    + unfold idxs. replace (m + 1)%nat with (S m) by lia. cbn [nth_error].
      rewrite nth_error_app2 by (rewrite indicesFrom_length; lia).
      rewrite indicesFrom_length, Nat.sub_diag. reflexivity.
Qed.

(** X24: [simplifyTrack] for a target count of at least 1 always returns,
    within as many rounds as there are points, and every entry of the
    result is a point of the track.  At or below the target the track is
    returned as it is.  Above it, the result has at least two and at most
    as many points as the track, keeps the first and the last point, and
    for a target of at least 2 holds the points at indices 0, step,
    2*step, ... below the last index, then the last point, where step is
    the length divided by the target minus one; when that step is 1, that
    is for fewer than [2 * (targetCount - 1)] points, nothing is dropped.
    For a target count of 0 or less and a non-empty track the loop never
    ends. *)
Theorem simplify_track (points : list LatLng) (targetCount : Z) :
  let n := Z.of_nat (List.length points) in
  ((1 <= targetCount)%Z ->
   exists kept,
     (forall fuel, (List.length points <= fuel)%nat ->
        simplifyTrackWith fuel points targetCount = Some (map Some kept)) /\
     ((n <= targetCount)%Z -> kept = points) /\
     ((targetCount < n)%Z ->
        (2 <= List.length kept <= List.length points)%nat /\
        hd_error kept = hd_error points /\
        (forall d, last kept d = last points d) /\
        ((2 <= targetCount)%Z ->
           let step := Z.to_nat (n / (targetCount - 1)) in
           (1 <= step)%nat /\
           List.length kept = (2 + (List.length points - 2) / step)%nat /\
           (forall j, (j + 1 < List.length kept)%nat ->
              nth_error kept j = nth_error points (j * step)) /\
           ((n < 2 * (targetCount - 1))%Z -> kept = points)))) /\
  ((targetCount <= 0)%Z -> points <> [] ->
   forall fuel, simplifyTrackWith fuel points targetCount = None).
Proof.
  intros n. split.
  - intros HT1.
    destruct (Z.le_gt_cases n targetCount) as [Hle | Hgt].
    { exists points. split; [| split].
      - intros fuel _. unfold simplifyTrackWith. fold n.
        destruct (Z.leb_spec n targetCount); [reflexivity | lia].
      - reflexivity.
      - lia. }
    destruct (Z.eq_dec targetCount 1) as [-> | Hne].
    { destruct points as [| p0 rest]; [unfold n in Hgt; cbn in Hgt; lia |].
      exists [p0; last (p0 :: rest) p0].
      assert (Hlast : pointAt (p0 :: rest) (n - 1)
                      = Some (last (p0 :: rest) p0)).
      { unfold n. replace (Z.of_nat (List.length (p0 :: rest)) - 1)%Z
          with (Z.of_nat (List.length (p0 :: rest) - 1))
          by (cbn [List.length]; lia).
        rewrite pointAt_nat. apply nth_error_last_cell. discriminate. }
      split; [| split].
      - intros fuel _. unfold simplifyTrackWith. fold n.
        destruct (Z.leb_spec n 1); [lia |].
        cbn [Z.sub Z.add Z.opp Z.pos_sub Z.eqb app].
        rewrite Hlast. reflexivity.
      - lia.
      - intros _. split; [cbn [List.length] in *; lia |].
        split; [reflexivity |].
        split; [| lia].
        intros d. cbn [last].
        apply last_nonempty_default. }
    assert (HT : (2 <= targetCount < Z.of_nat (List.length points))%Z)
      by (fold n; lia).
    destruct (simplifyTrack_kept points targetCount HT)
      as (kept & Hrun & Hlen & Hnth & Hend).
    destruct (simplifyTrackWith_shape (List.length points) points targetCount
                HT (le_n _)) as (Hstep & Hm & _).
    fold n in Hrun, Hlen, Hnth, Hend, Hstep, Hm.
    set (step := (n / (targetCount - 1))%Z) in *.
    set (m := Z.to_nat ((n - 2) / step)) in *.
    assert (Hpts : points <> []) by (intros ->; cbn in n; lia).
    assert (Hk : kept <> []) by (intros ->; cbn in Hlen; lia).
    assert (Hlastk : forall d, last kept d = last points d).
    { intros d.
      pose proof (nth_error_last_cell kept d Hk) as H1.
      pose proof (nth_error_last_cell points d Hpts) as H2.
      replace (List.length kept - 1)%nat with (m + 1)%nat in H1 by lia.
      rewrite Hend, H2 in H1. now injection H1. }
    assert (Hmn : (m + 2 <= List.length points)%nat) by nia.
    exists kept. split; [exact Hrun |].
    split; [lia |].
    intros _. split; [lia |].
    split.
    { rewrite !hd_error_nth. rewrite (Hnth O) by lia. reflexivity. }
    split; [exact Hlastk |].
    intros _. cbv zeta. fold step.
    split; [lia |].
    split.
    { rewrite Hlen. unfold m.
      rewrite Z2Nat.inj_div by lia.
      replace (Z.to_nat (n - 2)) with (List.length points - 2)%nat
        by (unfold n; lia).
      lia. }
    split.
    { intros j Hj. apply Hnth. lia. }
    intros Hsmall.
    assert (Hone : step = 1%Z).
    { unfold step. symmetry. apply (Z.div_unique n (targetCount - 1) 1
                                      (n - (targetCount - 1))); lia. }
    assert (Hm1 : m = (List.length points - 2)%nat).
    { unfold m. rewrite Hone, Z.div_1_r. unfold n. lia. }
    apply nth_error_ext. intros j.
    destruct (Nat.le_gt_cases j m) as [Hj | Hj].
    + rewrite (Hnth j Hj), Hone. f_equal. lia.
    + destruct (Nat.eq_dec j (m + 1)) as [-> | Hj'].
      * rewrite Hend. f_equal. lia.
      * transitivity (@None LatLng);
          [| symmetry]; apply nth_error_None; lia.
  - intros HT0 Hpts fuel.
    assert (Hn : (1 <= n)%Z)
      by (unfold n; destruct points; [contradiction | cbn; lia]).
    unfold simplifyTrackWith. fold n.
    destruct (Z.leb_spec n targetCount); [lia |].
    destruct (Z.eqb_spec (targetCount - 1) 0); [lia |].
    cbv zeta.
    assert (Hneg : (n / (targetCount - 1) <= -1)%Z).
    { pose proof (Z.div_mod n (targetCount - 1) ltac:(lia)) as Hdm.
      pose proof (Z.mod_neg_bound n (targetCount - 1) ltac:(lia)) as Hb.
      nia. }
    rewrite trackLoop_diverges; [reflexivity | lia | fold n; lia].
Qed.

Lemma simplify_track_witness :
  exists kept,
    simplifyTrack sampleTrack 50 = Some (map Some kept) /\
    kept = sampleTrack.
Proof.
  destruct (simplify_track sampleTrack 50) as [H _].
  destruct (H ltac:(lia)) as (kept & Hrun & _ & Hgt).
  exists kept. split; [apply Hrun; apply le_n |].
  destruct (Hgt ltac:(cbn; lia)) as (_ & _ & _ & H2).
  destruct (H2 ltac:(lia)) as (_ & _ & _ & Hsame).
  apply Hsame. cbn. lia.
Defined.

Lemma simplifyTrack_facts (points : list LatLng) (targetCount : Z) :
  (3 <= targetCount)%Z ->
  exists kept,
    simplifyTrack points targetCount = Some (map Some kept) /\
    ((Z.of_nat (List.length points) <= targetCount)%Z -> kept = points) /\
    (Z.of_nat (List.length kept) <= 2 * targetCount - 3)%Z /\
    (List.length kept <= List.length points)%nat /\
    ((2 <= List.length points)%nat -> (2 <= List.length kept)%nat) /\
    hd_error kept = hd_error points /\
    (forall d, last kept d = last points d) /\
    (forall c, In c kept -> In c points).
Proof.
  intros HT.
  destruct (Z.le_gt_cases (Z.of_nat (List.length points)) targetCount)
    as [Hle | Hgt].
  { exists points. split.
    - unfold simplifyTrack, simplifyTrackWith.
      destruct (Z.leb_spec (Z.of_nat (List.length points)) targetCount);
        [reflexivity | lia].
    - repeat split; auto; lia. }
  assert (HT2 : (2 <= targetCount < Z.of_nat (List.length points))%Z) by lia.
  destruct (simplifyTrack_kept points targetCount HT2)
    as (kept & Hrun & Hlen & Hnth & Hend).
  destruct (simplifyTrackWith_shape (List.length points) points targetCount
              HT2 (le_n _)) as (Hstep & Hm & _).
  set (n := Z.of_nat (List.length points)) in *.
  set (step := (n / (targetCount - 1))%Z) in *.
  set (m := Z.to_nat ((n - 2) / step)) in *.
  assert (Hpts : points <> []) by (intros ->; cbn in n; lia).
  assert (Hk : kept <> []) by (intros ->; cbn in Hlen; lia).
  assert (Hbound : ((n - 2) / step < 2 * targetCount - 4)%Z).
  { apply Z.div_lt_upper_bound; [lia |].
    pose proof (Z.div_mod n (targetCount - 1) ltac:(lia)) as Hdm.
    pose proof (Z.mod_pos_bound n (targetCount - 1) ltac:(lia)) as Hb.
    fold step in Hdm. nia. }
  assert (Hq : (0 <= (n - 2) / step)%Z) by (apply Z.div_pos; lia).
  exists kept. split; [apply Hrun; apply le_n |].
  split; [lia |].
  split; [rewrite Hlen; unfold m; lia |].
  split; [rewrite Hlen; unfold n in Hm; nia |].
  split; [lia |].
  split; [rewrite !hd_error_nth; rewrite (Hnth O) by lia; reflexivity |].
  split.
  - intros d.
    pose proof (nth_error_last_cell kept d Hk) as H1.
    pose proof (nth_error_last_cell points d Hpts) as H2.
    replace (List.length kept - 1)%nat with (m + 1)%nat in H1 by lia.
    rewrite Hend, H2 in H1. now injection H1.
  - intros c Hc. apply In_nth_error in Hc. destruct Hc as [j Hj].
    assert (Hjlt : (j < List.length kept)%nat)
      by (apply nth_error_Some; congruence).
    destruct (Nat.le_gt_cases j m) as [Hjm | Hjm].
    + rewrite (Hnth j Hjm) in Hj. eapply nth_error_In; eauto.
    + replace j with (m + 1)%nat in Hj by lia.
      rewrite Hend in Hj. eapply nth_error_In; eauto.
Qed.

Lemma coordOf_inRange (pt : GpxPoint) (c : LatLng) :
  coordOf pt = Some c -> inRange c.
Proof.
  unfold coordOf, isValidCoord.
  destruct (latAttr pt) as [la |]; [| discriminate].
  destruct (lonAttr pt) as [ln |]; [| discriminate].
  destruct (Rgeb la (-90)) eqn:E1; [| discriminate].
  destruct (Rleb la 90) eqn:E2; [| discriminate].
  destruct (Rgeb ln (-180)) eqn:E3; [| discriminate].
  destruct (Rleb ln 180) eqn:E4; [| discriminate].
  cbn [andb]. intros H. injection H as <-.
  apply Rgeb_true in E1, E3. apply Rleb_true in E2, E4.
  unfold inRange. cbn. lra.
Qed.

Lemma validPoints_inRange (pts : list GpxPoint) (c : LatLng) :
  In c (validPoints pts) -> inRange c.
Proof.
  induction pts as [| pt pts IH]; [contradiction |].
  cbn [validPoints]. destruct (coordOf pt) as [c0 |] eqn:E; [| exact IH].
  intros [<- | Hin]; [now apply coordOf_inRange in E | now apply IH].
Qed.

Lemma fold_points_coords (mk : GpxPoint -> nat -> LatLng -> StopInput) :
  (forall pt index c, coord (mk pt index c) = Some c) ->
  forall pts idxs acc,
  List.length idxs = List.length pts ->
  map coord
    (fold_left
       (fun stops '(pt, index) =>
          match coordOf pt with
          | None => stops
          | Some c => stops ++ [mk pt index c]
          end)
       (combine pts idxs) acc)
  = map coord acc ++ map Some (validPoints pts).
Proof.
  intros Hmk. induction pts as [| pt pts IH]; intros idxs acc Hlen.
  - cbn. now rewrite app_nil_r.
  - destruct idxs as [| index idxs]; [discriminate |].
    cbn [combine fold_left validPoints].
    rewrite IH by (cbn in Hlen; lia).
    destruct (coordOf pt) as [c |]; [| reflexivity].
    rewrite map_app. cbn [map]. rewrite Hmk, <- app_assoc. reflexivity.
Qed.

Lemma parseRoutes_coords trim now (rtepts : list GpxPoint) :
  map coord (parseRoutes trim now rtepts) = map Some (validPoints rtepts).
Proof.
  unfold parseRoutes.
  apply (fold_points_coords
           (fun rtept index c =>
              {| address := trim (pointName rtept "Waypoint " index);
                 coord := Some c;
                 id := ("gpx-route-" ++ printNumber (now index) ++ "-"
                        ++ printNumber index)%string |})).
  - reflexivity.
  - apply length_seq.
Qed.

Lemma parseWaypoints_coords trim now (waypoints : list GpxPoint) :
  map coord (parseWaypoints trim now waypoints)
  = map Some (validPoints waypoints).
Proof.
  unfold parseWaypoints.
  apply (fold_points_coords
           (fun wpt0 index c =>
              {| address := trim (pointName wpt0 "Point " index);
                 coord := Some c;
                 id := ("gpx-waypoint-" ++ printNumber (now index) ++ "-"
                        ++ printNumber index)%string |})).
  - reflexivity.
  - apply length_seq.
Qed.

Lemma track_points_fold (trkpts : list GpxPoint) : forall acc,
  fold_left
    (fun points trkpt =>
       match coordOf trkpt with
       | Some c => points ++ [c]
       | None => points
       end)
    trkpts acc
  = acc ++ validPoints trkpts.
Proof.
  induction trkpts as [| pt pts IH]; intros acc; cbn [fold_left validPoints].
  - now rewrite app_nil_r.
  - rewrite IH. destruct (coordOf pt); [| reflexivity].
    now rewrite <- app_assoc.
Qed.

Lemma map_coord_indexed (f : option LatLng * nat -> StopInput)
    (l : list (option LatLng)) :
  (forall point index, coord (f (point, index)) = point) ->
  forall idxs, List.length idxs = List.length l ->
  map coord (map f (combine l idxs)) = l.
Proof.
  intros Hf. induction l as [| x l IH]; intros idxs Hlen; [reflexivity |].
  destruct idxs as [| i idxs]; [discriminate |].
  cbn [combine map]. rewrite Hf, IH by (cbn in Hlen; lia). reflexivity.
Qed.

Lemma parseAndSimplifyTrack_coords now (trkpts : list GpxPoint) :
  exists stops kept,
    parseAndSimplifyTrack now trkpts = Some stops /\
    map coord stops = map Some kept /\
    simplifyTrack (validPoints trkpts) 50 = Some (map Some kept).
Proof.
  destruct (simplifyTrack_facts (validPoints trkpts) 50 ltac:(lia))
    as (kept & Hrun & _).
  unfold parseAndSimplifyTrack. cbv zeta.
  rewrite track_points_fold. cbn [app]. rewrite Hrun.
  eexists. exists kept. split; [reflexivity |]. split; [| reflexivity].
  apply map_coord_indexed.
  - intros point index. reflexivity.
  - apply length_seq.
Qed.

Lemma located_stops (sts : list StopInput) : forall l,
  map coord sts = map Some l ->
  validCoords sts = l /\
  List.length sts = List.length l /\
  (forall s, In s sts -> exists c, coord s = Some c /\ In c l).
Proof.
  induction sts as [| s sts IH]; intros [| c l] H; try discriminate.
  - repeat split; auto. intros s [].
  - cbn [map] in H. injection H as Hs Hrest.
    destruct (IH l Hrest) as (Hv & Hlen & Hin).
    cbn [validCoords]. rewrite Hs, Hv.
    split; [reflexivity |]. split; [cbn; lia |].
    intros s' [<- | Hs'].
    + exists c. split; [exact Hs | now left].
    + destruct (Hin s' Hs') as (c' & Hc' & Hin').
      exists c'. split; [exact Hc' | now right].
Qed.

Lemma validateGPX_error (doc : GpxDocument) :
  valid (validateGPX doc) = false ->
  orEmpty (error (validateGPX doc)) <> EmptyString.
Proof.
  unfold validateGPX.
  destruct (parsererror doc); [intros _; cbn; discriminate |].
  destruct (negb (gpxRoot doc)); [intros _; cbn; discriminate |].
  cbv zeta.
  destruct (negb (0 <? List.length (rte doc))%nat
            && negb (0 <? List.length (wpt doc))%nat
            && negb (0 <? List.length (trk doc))%nat);
    [intros _; cbn; discriminate | cbn; discriminate].
Qed.

(** The outcomes of [parseGPX] on a document that passes validation. *)
Lemma parseGPX_cases trim now (doc : GpxDocument) :
  valid (validateGPX doc) = true ->
  (exists route0 others,
     rte doc = route0 :: others /\
     (2 <= List.length (validPoints route0))%nat /\
     parseGPX trim now doc = GpxStops (parseRoutes trim now route0)) \/
  ((forall route0, hd_error (rte doc) = Some route0 ->
      (List.length (validPoints route0) < 2)%nat) /\
   ((2 <= List.length (validPoints (wpt doc)))%nat /\
    parseGPX trim now doc = GpxStops (parseWaypoints trim now (wpt doc)) \/
    (List.length (validPoints (wpt doc)) < 2)%nat /\
    ((exists track0 others stops kept,
        trk doc = track0 :: others /\
        (2 <= List.length (validPoints track0))%nat /\
        parseGPX trim now doc = GpxStops stops /\
        map coord stops = map Some kept /\
        simplifyTrack (validPoints track0) 50 = Some (map Some kept)) \/
     (forall track0, hd_error (trk doc) = Some track0 ->
        (List.length (validPoints track0) < 2)%nat) /\
     parseGPX trim now doc
     = GpxError "GPX file must contain at least 2 valid waypoints"))).
Proof.
  intros Hvalid. unfold parseGPX. cbv zeta. rewrite Hvalid. cbn [negb].
  assert (Hr : forall pts,
             List.length (parseRoutes trim now pts)
             = List.length (validPoints pts)).
  { intros pts.
    now destruct (located_stops _ _ (parseRoutes_coords trim now pts))
      as (_ & H & _). }
  assert (Hw : forall pts,
             List.length (parseWaypoints trim now pts)
             = List.length (validPoints pts)).
  { intros pts.
    now destruct (located_stops _ _ (parseWaypoints_coords trim now pts))
      as (_ & H & _). }
  assert (Hroute :
            (exists route0 others, rte doc = route0 :: others /\
               (2 <= List.length (validPoints route0))%nat) \/
            (forall route0, hd_error (rte doc) = Some route0 ->
               (List.length (validPoints route0) < 2)%nat)).
  { destruct (rte doc) as [| route0 others]; [right; discriminate |].
    destruct (Nat.le_gt_cases 2 (List.length (validPoints route0))).
    - left. eauto.
    - right. intros r H'. cbn in H'. injection H' as <-. assumption. }
  destruct Hroute as [(route0 & others & Hrte & Hlen) | Hnoroute].
  { left. exists route0, others. rewrite Hrte.
    split; [reflexivity |]. split; [exact Hlen |].
    rewrite <- Hr in Hlen. apply Nat.leb_le in Hlen. now rewrite Hlen. }
  right. split; [exact Hnoroute |].
  assert (Hfrom :
            match rte doc with
            | [] => None
            | route0 :: _ =>
                if (2 <=? List.length (parseRoutes trim now route0))%nat
                then Some (parseRoutes trim now route0) else None
            end = None).
  { destruct (rte doc) as [| route0 others]; [reflexivity |].
    specialize (Hnoroute route0 eq_refl). rewrite <- Hr in Hnoroute.
    apply Nat.leb_gt in Hnoroute. now rewrite Hnoroute. }
  rewrite Hfrom.
  destruct (Nat.le_gt_cases 2 (List.length (validPoints (wpt doc))))
    as [Hw2 | Hw2].
  { left. split; [exact Hw2 |].
    assert (H0 : (0 <? List.length (wpt doc))%nat = true).
    { apply Nat.ltb_lt. destruct (wpt doc); [cbn in Hw2; lia | cbn; lia]. }
    rewrite H0. rewrite <- Hw in Hw2. apply Nat.leb_le in Hw2.
    now rewrite Hw2. }
  right. split; [exact Hw2 |].
  assert (Hfromw :
            (if (0 <? List.length (wpt doc))%nat
             then if (2 <=? List.length
                              (parseWaypoints trim now (wpt doc)))%nat
                  then Some (parseWaypoints trim now (wpt doc)) else None
             else None) = None).
  { destruct (0 <? List.length (wpt doc))%nat; [| reflexivity].
    rewrite <- Hw in Hw2. apply Nat.leb_gt in Hw2. now rewrite Hw2. }
  rewrite Hfromw.
  destruct (trk doc) as [| track0 others] eqn:Htrk.
  { right. split; [discriminate | reflexivity]. }
  destruct (parseAndSimplifyTrack_coords now track0)
    as (stops & kept & Hparse & Hcoord & Hrun).
  rewrite Hparse.
  destruct (simplifyTrack_facts (validPoints track0) 50 ltac:(lia))
    as (kept' & Hrun' & Hsame & _ & Hle & Hge & _).
  rewrite Hrun in Hrun'. injection Hrun' as Heq.
  apply map_Some_inj in Heq. subst kept'.
  destruct (located_stops _ _ Hcoord) as (_ & Hlen & _).
  destruct (Nat.le_gt_cases 2 (List.length (validPoints track0)))
    as [Ht2 | Ht2].
  - left. exists track0, others, stops, kept.
    split; [reflexivity |]. split; [exact Ht2 |].
    specialize (Hge Ht2). rewrite <- Hlen in Hge.
    apply Nat.leb_le in Hge. rewrite Hge. auto.
  - right. split.
    + intros t H'. cbn in H'. injection H' as <-. exact Ht2.
    + assert (Hlt : (List.length stops < 2)%nat) by lia.
      apply Nat.leb_gt in Hlt. now rewrite Hlt.
Qed.

Lemma parseGPX_invalid trim now (doc : GpxDocument) :
  valid (validateGPX doc) = false ->
  parseGPX trim now doc = GpxError (orEmpty (error (validateGPX doc))).
Proof. intros Hv. unfold parseGPX. cbv zeta. now rewrite Hv. Qed.

Lemma parseGPX_stops_located trim now (doc : GpxDocument)
    (sts : list StopInput) :
  parseGPX trim now doc = GpxStops sts ->
  (2 <= List.length sts)%nat /\ exists l, map coord sts = map Some l.
Proof.
  intros H.
  destruct (valid (validateGPX doc)) eqn:Hv;
    [| rewrite (parseGPX_invalid trim now doc Hv) in H; discriminate].
  destruct (parseGPX_cases trim now doc Hv)
    as [(r & o & _ & Hlen & Hp)
       | (_ & [(Hlen & Hp)
              | (_ & [(t & o & sts' & kept & _ & Hlen & Hp & Hc & Hrun)
                     | (_ & Hp)])])];
    rewrite Hp in H; try discriminate; injection H as <-.
  - pose proof (parseRoutes_coords trim now r) as Hc.
    destruct (located_stops _ _ Hc) as (_ & Hl & _).
    split; [lia | eauto].
  - pose proof (parseWaypoints_coords trim now (wpt doc)) as Hc.
    destruct (located_stops _ _ Hc) as (_ & Hl & _).
    split; [lia | eauto].
  - destruct (simplifyTrack_facts (validPoints t) 50 ltac:(lia))
      as (kept' & Hrun' & _ & _ & _ & Hge & _).
    rewrite Hrun in Hrun'. injection Hrun' as Heq.
    apply map_Some_inj in Heq. subst kept'.
    destruct (located_stops _ _ Hc) as (_ & Hl & _).
    split; [specialize (Hge Hlen); lia | eauto].
Qed.

Lemma parseGPX_messages trim now (doc : GpxDocument) (message : string) :
  parseGPX trim now doc = GpxError message ->
  In message
    ["Invalid XML format. Please upload a valid .gpx file";
     "Invalid file format. Root element must be <gpx>";
     "GPX file contains no waypoints, routes, or tracks";
     "GPX file must contain at least 2 valid waypoints"]%string.
Proof.
  intros H.
  destruct (valid (validateGPX doc)) eqn:Hv.
  - destruct (parseGPX_cases trim now doc Hv)
      as [(r & o & _ & _ & Hp)
         | (_ & [(_ & Hp)
                | (_ & [(t & o & sts' & kept & _ & _ & Hp & _)
                       | (_ & Hp)])])];
      rewrite Hp in H; try discriminate.
    injection H as <-. cbn. auto.
  - rewrite (parseGPX_invalid trim now doc Hv) in H. injection H as <-.
    revert Hv. unfold validateGPX.
    destruct (parsererror doc); [intros _; cbn; auto |].
    destruct (negb (gpxRoot doc)); [intros _; cbn; auto |].
    cbv zeta.
    destruct (negb (0 <? List.length (rte doc))%nat
              && negb (0 <? List.length (wpt doc))%nat
              && negb (0 <? List.length (trk doc))%nat);
      [intros _; cbn; auto | cbn; discriminate].
Qed.

Lemma located_inRange (sts : list StopInput) (l : list LatLng) :
  map coord sts = map Some l ->
  (forall c, In c l -> inRange c) ->
  List.length (validCoords sts) = List.length sts /\
  (forall s, In s sts -> exists c, coord s = Some c /\ inRange c).
Proof.
  intros Hc Hr. destruct (located_stops _ _ Hc) as (Hv & Hl & Hin).
  split; [rewrite Hv; lia |].
  intros s Hs. destruct (Hin s Hs) as (c & Hcs & Hcl).
  exists c. split; [exact Hcs | now apply Hr].
Qed.

(** X25: [parseGPX] on a parsed document.  It always returns or throws.
    Stops it returns number at least two, each located at coordinates with
    latitude in [-90, 90] and longitude in [-180, 180]; their coordinates
    are those of the valid points of the first route, or of the valid
    waypoints, or are taken from the valid points of the first track, in
    which case there are at most 97 of them, the first and the last track
    point are kept, and a track of up to 50 valid points is kept whole.  A
    first route with two valid points wins over waypoints and tracks.  A
    thrown error has a non-empty message, and on a document that passes
    validation it means that neither the first route, nor the waypoints,
    nor the first track has two valid points. *)
Theorem parse_gpx (trim : string -> string) (now : nat -> nat)
    (doc : GpxDocument) :
  parseGPX trim now doc <> GpxHang /\
  (forall sts, parseGPX trim now doc = GpxStops sts ->
     (2 <= List.length sts)%nat /\
     List.length (validCoords sts) = List.length sts /\
     (forall s, In s sts -> exists c, coord s = Some c /\ inRange c) /\
     ((exists route0 others,
         rte doc = route0 :: others /\ validCoords sts = validPoints route0)
      \/ validCoords sts = validPoints (wpt doc)
      \/ (exists track0 others,
            trk doc = track0 :: others /\
            (List.length sts <= 97)%nat /\
            hd_error (validCoords sts) = hd_error (validPoints track0) /\
            (forall d,
               last (validCoords sts) d = last (validPoints track0) d) /\
            (forall c, In c (validCoords sts) ->
                       In c (validPoints track0)) /\
            ((List.length (validPoints track0) <= 50)%nat ->
             validCoords sts = validPoints track0)))) /\
  (forall route0 others,
     valid (validateGPX doc) = true ->
     rte doc = route0 :: others ->
     (2 <= List.length (validPoints route0))%nat ->
     parseGPX trim now doc = GpxStops (parseRoutes trim now route0)) /\
  (forall message, parseGPX trim now doc = GpxError message ->
     message <> EmptyString /\
     (valid (validateGPX doc) = true ->
      (forall route0, hd_error (rte doc) = Some route0 ->
         (List.length (validPoints route0) < 2)%nat) /\
      (List.length (validPoints (wpt doc)) < 2)%nat /\
      (forall track0, hd_error (trk doc) = Some track0 ->
         (List.length (validPoints track0) < 2)%nat))).
Proof.
  destruct (valid (validateGPX doc)) eqn:Hv.
  2:{ rewrite (parseGPX_invalid trim now doc Hv).
      split; [discriminate |]. split; [discriminate |].
      split; [discriminate |].
      intros message H. injection H as <-.
      split; [now apply validateGPX_error | discriminate]. }
  destruct (parseGPX_cases trim now doc Hv)
    as [(r & o & Hrte & Hlen & Hp)
       | (Hnoroute & [(Hlen & Hp)
              | (Hnow & [(t & o & sts' & kept & Htrk & Hlen & Hp & Hc & Hrun)
                     | (Hnotrack & Hp)])])];
    rewrite Hp.
  - split; [discriminate |].
    split; [| split; [| discriminate]].
    + intros sts H. injection H as <-.
      pose proof (parseRoutes_coords trim now r) as Hc.
      destruct (located_stops _ _ Hc) as (Hvc & Hl & _).
      destruct (located_inRange _ _ Hc (validPoints_inRange r)) as [H1 H2].
      split; [lia |]. split; [exact H1 |]. split; [exact H2 |].
      left. eauto.
    + intros route0 others _ Hrte' _. rewrite Hrte in Hrte'.
      now injection Hrte' as <- _.
  - split; [discriminate |].
    split; [| split; [| discriminate]].
    + intros sts H. injection H as <-.
      pose proof (parseWaypoints_coords trim now (wpt doc)) as Hc.
      destruct (located_stops _ _ Hc) as (Hvc & Hl & _).
      destruct (located_inRange _ _ Hc (validPoints_inRange (wpt doc)))
        as [H1 H2].
      split; [lia |]. split; [exact H1 |]. split; [exact H2 |].
      right. left. exact Hvc.
    + intros route0 others _ Hrte' Hlen'.
      specialize (Hnoroute route0). rewrite Hrte' in Hnoroute.
      specialize (Hnoroute eq_refl). lia.
  - split; [discriminate |].
    split; [| split; [| discriminate]].
    + intros sts H. injection H as <-.
      destruct (simplifyTrack_facts (validPoints t) 50 ltac:(lia))
        as (kept' & Hrun' & Hsame & Hmax & _ & Hge & Hhd & Hlast & Hin).
      rewrite Hrun in Hrun'. injection Hrun' as Heq.
      apply map_Some_inj in Heq. subst kept'.
      destruct (located_stops _ _ Hc) as (Hvc & Hl & _).
      assert (Hr : forall c, In c kept -> inRange c)
        by (intros c Hk; apply (validPoints_inRange t); now apply Hin).
      destruct (located_inRange _ _ Hc Hr) as [H1 H2].
      split; [specialize (Hge Hlen); lia |].
      split; [exact H1 |]. split; [exact H2 |].
      right. right. exists t, o. rewrite Hvc.
      split; [exact Htrk |]. split; [lia |].
      split; [exact Hhd |]. split; [exact Hlast |]. split; [exact Hin |].
      intros H50. apply Hsame. lia.
    + intros route0 others _ Hrte' Hlen'.
      specialize (Hnoroute route0). rewrite Hrte' in Hnoroute.
      specialize (Hnoroute eq_refl). lia.
  - split; [discriminate |]. split; [discriminate |].
    split.
    + intros route0 others _ Hrte' Hlen'.
      specialize (Hnoroute route0). rewrite Hrte' in Hnoroute.
      specialize (Hnoroute eq_refl). lia.
    + intros message H. injection H as <-.
      split; [discriminate |]. intros _. auto.
Qed.

Lemma coordOf_gpxPointAt (la ln : R) :
  -90 <= la <= 90 -> -180 <= ln <= 180 ->
  coordOf (gpxPointAt la ln) = Some {| lat := la; lng := ln |}.
Proof.
  intros Hla Hln. unfold coordOf, isValidCoord, gpxPointAt.
  cbn [latAttr lonAttr].
  replace (Rgeb la (-90)) with true by (symmetry; apply Rgeb_true; lra).
  replace (Rleb la 90) with true by (symmetry; apply Rleb_true; lra).
  replace (Rgeb ln (-180)) with true by (symmetry; apply Rgeb_true; lra).
  replace (Rleb ln 180) with true by (symmetry; apply Rleb_true; lra).
  reflexivity.
Qed.

Lemma parse_gpx_sample :
  exists sts,
    parseGPX noTrim clockZero sampleDocument = GpxStops sts /\
    (2 <= List.length sts)%nat.
Proof.
  assert (Hv : valid (validateGPX sampleDocument) = true) by reflexivity.
  assert (H1 : coordOf (gpxPointAt 52 5) = Some {| lat := 52; lng := 5 |})
    by (apply coordOf_gpxPointAt; lra).
  assert (H2 : coordOf (gpxPointAt 53 6) = Some {| lat := 53; lng := 6 |})
    by (apply coordOf_gpxPointAt; lra).
  destruct (parseGPX_cases noTrim clockZero sampleDocument Hv)
    as [(r & o & Hrte & Hlen & _)
       | (_ & [(_ & Hp) | (Hlt & _)])].
  - exfalso. cbn in Hrte. injection Hrte as <- _.
    revert Hlen. cbn [validPoints]. rewrite H1.
    unfold coordOf, isValidCoord. cbn. lia.
  - eexists. split; [exact Hp |].
    now destruct (parseGPX_stops_located _ _ _ _ Hp).
  - exfalso. revert Hlt.
    cbn [sampleDocument wpt validPoints]. rewrite H1, H2.
    destruct (coordOf (gpxPointAt 91 5)); cbn; lia.
Qed.

Lemma parse_gpx_witness :
  exists sts,
    parseGPX noTrim clockZero sampleDocument = GpxStops sts /\
    (2 <= List.length sts)%nat /\
    List.length (validCoords sts) = List.length sts.
Proof.
  destruct parse_gpx_sample as (sts & Hp & _).
  destruct (parse_gpx noTrim clockZero sampleDocument) as (_ & Hs & _ & _).
  destruct (Hs sts Hp) as (H2 & H3 & _).
  exists sts. auto.
Defined.

Lemma located_plan (sts : list StopInput) (l : list LatLng) :
  map coord sts = map Some l -> (2 <= List.length sts)%nat ->
  hasDestination sts = Some true /\
  forall cur, planRoutePoints sts cur = Some (validCoords sts).
Proof.
  intros Hc Hlen.
  destruct (located_stops _ _ Hc) as (Hv & _ & _).
  destruct sts as [| s0 [| s1 rest]]; try (cbn in Hlen; lia).
  destruct l as [| c0 [| c1 l]]; try discriminate.
  cbn [map] in Hc. injection Hc as H0 H1 _.
  split.
  - unfold hasDestination, hasCoord. cbn [nth_error]. now rewrite H1.
  - intros cur. unfold planRoutePoints. rewrite Hv. unfold hasCoord.
    now rewrite H0.
Qed.

(** X26: a GPX upload.  The handler always returns and never touches the
    rider or the simulator.  With no file chosen nothing changes.  A file
    over 5 MB or one that [parseGPX] refuses leaves the stops and the
    session as they were and shows a non-empty message, which is never the
    handler's own message about fewer than two waypoints.  Otherwise the
    stops become the parsed ones, at least two and all located, the banner
    is cleared, the route is dropped and the status is IDLE, the map stops
    following when it is ready, a destination is present, and a plan made
    next sends exactly the coordinates of the imported stops. *)
Theorem gpx_upload (trim : string -> string) (now : nat -> nat)
    (file : option (nat * GpxDocument)) (mapReady : bool) (p : Planner) :
  exists p',
    handleGPXUpload trim now file mapReady p = Some p' /\
    rider (session p') = rider (session p) /\
    simIntervalRef (session p') = simIntervalRef (session p) /\
    ((file = None /\ p' = p) \/
     (file <> None /\ stops p' = stops p /\ session p' = session p /\
      exists message,
        errorMessage p' = Some message /\ message <> EmptyString /\
        message <> "GPX file must contain at least 2 waypoints"%string) \/
     (exists size doc,
        file = Some (size, doc) /\ (size <= MAX_FILE_SIZE)%nat /\
        parseGPX trim now doc = GpxStops (stops p') /\
        (2 <= List.length (stops p'))%nat /\
        List.length (validCoords (stops p')) = List.length (stops p') /\
        errorMessage p' = None /\
        appStatus (session p') = IDLE /\
        route (session p') = None /\
        isFollowing (session p')
        = (if mapReady then false else isFollowing (session p)) /\
        hasDestination (stops p') = Some true /\
        forall cur,
          planRoutePoints (stops p') cur = Some (validCoords (stops p')))).
Proof.
  destruct file as [[size doc] |]; cbn [handleGPXUpload].
  2:{ exists p. split; [reflexivity |]. auto. }
  destruct (Nat.ltb_spec MAX_FILE_SIZE size) as [Hbig | Hsmall].
  { eexists. split; [reflexivity |]. cbn [session errorMessage stops].
    split; [reflexivity |]. split; [reflexivity |].
    right. left. split; [discriminate |].
    split; [reflexivity |]. split; [reflexivity |].
    eexists. split; [reflexivity |]. split; discriminate. }
  cbv zeta.
  destruct (parseGPX trim now doc) as [newStops | message |] eqn:Hp.
  - destruct (parseGPX_stops_located trim now doc newStops Hp)
      as (Hlen & l & Hc).
    destruct (Nat.ltb_spec (List.length newStops) 2) as [Hlt | _]; [lia |].
    destruct (located_stops _ _ Hc) as (Hv & Hl & _).
    destruct (located_plan _ _ Hc Hlen) as (Hdest & Hplan).
    eexists. split; [reflexivity |].
    cbn [session errorMessage stops rider simIntervalRef appStatus route
         isFollowing].
    split; [reflexivity |]. split; [reflexivity |].
    right. right. exists size, doc.
    split; [reflexivity |]. split; [exact Hsmall |].
    split; [exact Hp |]. split; [exact Hlen |].
    split; [rewrite Hv; lia |]. split; [reflexivity |].
    split; [reflexivity |]. split; [reflexivity |].
    split; [| split; [exact Hdest | exact Hplan]].
    destruct mapReady; [| reflexivity].
    assert (H1 : (0 <? List.length newStops)%nat = true)
      by (apply Nat.ltb_lt; lia).
    assert (H2 : (0 <? List.length (validCoords newStops))%nat = true)
      by (apply Nat.ltb_lt; rewrite Hv; lia).
    now rewrite H1, H2.
  - pose proof (parseGPX_messages trim now doc message Hp) as Hm.
    eexists. split; [reflexivity |]. cbn [session errorMessage stops].
    split; [reflexivity |]. split; [reflexivity |].
    right. left. split; [discriminate |].
    split; [reflexivity |]. split; [reflexivity |].
    eexists. split; [reflexivity |].
    destruct Hm as [<- | [<- | [<- | [<- | []]]]]; split; discriminate.
  - exfalso.
    destruct (valid (validateGPX doc)) eqn:Hv;
      [| rewrite (parseGPX_invalid trim now doc Hv) in Hp; discriminate].
    destruct (parseGPX_cases trim now doc Hv)
      as [(r & o & _ & _ & Hp')
         | (_ & [(_ & Hp')
                | (_ & [(t & o & sts' & kept & _ & _ & Hp' & _)
                       | (_ & Hp')])])];
      rewrite Hp' in Hp; discriminate.
Qed.

Lemma gpx_upload_witness :
  exists p',
    handleGPXUpload noTrim clockZero (Some (1000%nat, sampleDocument)) true
      samplePlanner = Some p' /\
    hasDestination (stops p') = Some true /\
    route (session p') = None.
Proof.
  destruct (gpx_upload noTrim clockZero (Some (1000%nat, sampleDocument))
              true samplePlanner)
    as (p' & Hrun & _ & _ & [[Hnone _] | [Hfail | Hok]]).
  - discriminate.
  - exfalso. destruct Hfail as (_ & _ & _ & message & Hm & _).
    revert Hrun. cbn [handleGPXUpload].
    destruct (Nat.ltb_spec MAX_FILE_SIZE 1000) as [Hbig | _];
      [unfold MAX_FILE_SIZE in Hbig; lia |].
    destruct (parse_gpx_sample) as (sts & Hp & Hlen).
    cbv zeta. rewrite Hp.
    destruct (Nat.ltb_spec (List.length sts) 2) as [Hlt | _]; [lia |].
    intros H. injection H as <-. discriminate.
  - destruct Hok as (size & doc & _ & _ & _ & _ & _ & _ & _ & Hr & _ & Hd & _).
    exists p'. auto.
Defined.

(** ** The geocoding client *)

Lemma searchWith_unbounded (fuel : nat) service query center countryCode
    delta limit :
  exists results sent,
    searchWith fuel service query center countryCode false delta limit
    = Some (results, sent) /\
    (List.length sent <= 1)%nat /\
    (forall request, In request sent -> Search.bounded request = false) /\
    ((String.length query < 2)%nat -> sent = [] /\ results = []) /\
    ((2 <= String.length query)%nat -> List.length sent = 1%nat) /\
    (results <> [] ->
     exists request,
       In request sent /\ service request = SearchOk (BodyArray results)).
Proof.
  destruct fuel; cbn [searchWith];
    (destruct (Nat.ltb_spec (String.length query) 2) as [Hs | Hl];
     [exists [], []; repeat split; auto; try lia;
        try (intros r []); try (intros H; now contradiction H)
     |]);
    cbv zeta;
    match goal with
    | |- context [service ?r] =>
        set (request := r); destruct (service request) as [| | data] eqn:E
    end;
    cbn [andb];
    eexists; eexists; (split; [reflexivity |]);
    (split; [cbn; lia |]);
    (split; [intros r [<- | []]; reflexivity |]);
    (split; [intros; lia |]);
    (split; [reflexivity |]);
    try (intros H; now contradiction H);
    intros Hne; exists request; (split; [now left |]);
    rewrite E; destruct data; cbn in Hne |- *;
    try reflexivity; now contradiction Hne.
Qed.

(** X27: [searchNominatim] never throws and always returns; it sends no
    request for a query shorter than two characters, one request otherwise,
    and a second one only when the first was bounded and its answer was read
    and held no result; the second differs from the first in the [bounded]
    flag only.  Results that are returned are the array of the last request
    sent. *)
Theorem search_nominatim (service : Search.Request -> SearchResponse)
    (query : string) (center : LatLng) (countryCode : option string)
    (bounded : bool) (delta limit : R) :
  exists results sent,
    searchNominatim service query center countryCode bounded delta limit
    = Some (results, sent) /\
    (forall fuel, (1 <= fuel)%nat ->
       searchWith fuel service query center countryCode bounded delta limit
       = Some (results, sent)) /\
    ((String.length query < 2)%nat -> sent = [] /\ results = []) /\
    ((2 <= String.length query)%nat ->
     exists first,
       hd_error sent = Some first /\
       Search.q first = query /\
       Search.bounded first = bounded /\
       Search.viewbox first
       = (lng center - delta, lat center + delta,
          lng center + delta, lat center - delta) /\
       (sent = [first] \/
        exists data,
          bounded = true /\
          service first = SearchOk data /\ noResults data = true /\
          sent
          = [first;
             {| Search.q := Search.q first;
                Search.limit := Search.limit first;
                Search.viewbox := Search.viewbox first;
                Search.bounded := false;
                Search.countrycodes := Search.countrycodes first |}])) /\
    (results <> [] ->
     exists request,
       last sent request = request /\ sent <> [] /\
       service request = SearchOk (BodyArray results)).
Proof.
  unfold searchNominatim.
  destruct (Nat.ltb_spec (String.length query) 2) as [Hs | Hl].
  { exists [], []. 
    assert (Hrun : forall fuel,
               searchWith fuel service query center countryCode bounded
                 delta limit = Some ([], [])).
    { intros fuel. destruct fuel; cbn [searchWith];
        destruct (Nat.ltb_spec (String.length query) 2); try lia;
        reflexivity. }
    split; [apply Hrun |]. split; [intros; apply Hrun |].
    split; [auto |]. split; [intros; lia |].
    intros H. now contradiction H. }
  set (first :=
         {| Search.q := query;
            Search.limit := limit;
            Search.viewbox :=
              (lng center - delta, lat center + delta,
               lng center + delta, lat center - delta);
            Search.bounded := bounded;
            Search.countrycodes :=
              if truthy countryCode then countryCode else None |}).
  assert (Hstep : forall fuel,
            searchWith (S fuel) service query center countryCode bounded
              delta limit
            = match service first with
              | SearchThrew => Some ([], [first])
              | SearchNotOk => Some ([], [first])
              | SearchOk data =>
                  if bounded && noResults data then
                    match searchWith fuel service query center countryCode
                            false delta limit with
                    | Some (results, sent) => Some (results, first :: sent)
                    | None => None
                    end
                  else Some (arrayOrEmpty data, [first])
              end).
  { intros fuel. cbn [searchWith].
    destruct (Nat.ltb_spec (String.length query) 2); [lia | reflexivity]. }
  destruct (service first) as [| | data] eqn:E.
  1, 2: exists [], [first];
    (split; [rewrite Hstep; reflexivity |]);
    (split; [intros [| fuel] Hf; [lia | rewrite Hstep; reflexivity] |]);
    (split; [intros; lia |]);
    (split; [intros _; exists first; repeat split; auto
            | intros H; now contradiction H]).
  destruct (bounded && noResults data) eqn:Eb.
  - apply andb_prop in Eb. destruct Eb as [-> Hno].
    assert (Hun : forall fuel,
              searchWith fuel service query center countryCode false
                delta limit
              = searchWith 0 service query center countryCode false
                  delta limit).
    { intros fuel. destruct fuel; cbn [searchWith]; [reflexivity |].
      destruct (String.length query <? 2)%nat; [reflexivity |].
      cbv zeta.
      match goal with
      | |- context [service ?r] => destruct (service r)
      end; reflexivity. }
    destruct (searchWith_unbounded 0 service query center countryCode
                delta limit)
      as (results & sent & Hrun & _ & _ & _ & Hone & Hres).
    assert (Hsent : sent
                    = [{| Search.q := query;
                          Search.limit := limit;
                          Search.viewbox :=
                            (lng center - delta, lat center + delta,
                             lng center + delta, lat center - delta);
                          Search.bounded := false;
                          Search.countrycodes :=
                            if truthy countryCode then countryCode
                            else None |}]).
    { revert Hrun. cbn [searchWith].
      destruct (Nat.ltb_spec (String.length query) 2); [lia |].
      cbv zeta.
      match goal with
      | |- context [service ?r] => destruct (service r)
      end; cbn [andb]; intros Heq; injection Heq as _ <-; reflexivity. }
    exists results, (first :: sent).
    split; [rewrite Hstep, Hrun; reflexivity |].
    split.
    { intros [| fuel] Hf; [lia |].
      rewrite Hstep, Hun, Hrun. reflexivity. }
    split; [intros; lia |].
    split.
    + intros _. exists first. split; [reflexivity |].
      split; [reflexivity |]. split; [reflexivity |].
      split; [reflexivity |].
      right. exists data. split; [reflexivity |]. split; [exact E |].
      split; [exact Hno |]. rewrite Hsent. reflexivity.
    + intros Hne. destruct (Hres Hne) as (request & Hin & Hsvc).
      rewrite Hsent in Hin. destruct Hin as [<- | []].
      eexists. split; [| split; [discriminate | exact Hsvc]].
      rewrite Hsent. reflexivity.
  - exists (arrayOrEmpty data), [first].
    split; [rewrite Hstep; reflexivity |].
    split; [intros [| fuel] Hf; [lia | rewrite Hstep; reflexivity] |].
    split; [intros; lia |].
    split.
    + intros _. exists first. repeat split; auto.
    + intros Hne. exists first. split; [reflexivity |].
      split; [discriminate |].
      rewrite E. destruct data; cbn in Hne |- *;
        try reflexivity; now contradiction Hne.
Qed.

Lemma search_nominatim_witness :
  exists sent,
    searchNominatim farService "Zwolle" cornerPoint None true (1 / 2) 6
    = Some ([sampleResult], sent) /\
    List.length sent = 2%nat.
Proof.
  destruct (search_nominatim farService "Zwolle" cornerPoint None true
              (1 / 2) 6)
    as (results & sent & Hrun & _ & _ & Hreq & _).
  destruct (Hreq ltac:(cbn; lia)) as (first & _ & _ & _ & _ & Hsent).
  exists sent.
  assert (Hres : results = [sampleResult] /\ List.length sent = 2%nat).
  { revert Hrun. unfold searchNominatim. cbn.
    intros H. injection H as <- <-. split; reflexivity. }
  destruct Hres as [-> Hlen]. split; [exact Hrun | exact Hlen].
Defined.
